(** * SIGET: central traffic coordinator and traffic-light agent

    A shallow embedding of [src/traffic_server.py] (class [TrafficServer])
    and [src/traffic_light.py] (class [TrafficLight]), with the properties
    of the coordinator's registry, dispatcher, lock helper, synchronisation
    scheduler, liveness sweep and emergency override, and of the agent's
    state machine.

    Modelling conventions.
    - One thread at a time: every method is a function on an explicit
      state ([world] for the server, [light] for an agent).  Interleavings
      of threads are modelled where a property depends on them: the test
      and the body of [trigger_synchronization] are the two atomic steps
      of a schedule ([trigger_sched]).
    - [time.time()] is a reading of a clock [clock : nat -> Z]; the state
      counts the readings made so far, so successive readings inside one
      method may differ.
    - Python dictionaries are [gmap]s.  The iteration order of a [gmap] is
      not Python's insertion order, so whatever depends on iteration is
      stated up to permutation.
    - A socket is an identity ([sock]); the environment records which
      sockets were closed, on which sockets [send] raises, and every call
      of [send] with its data and its outcome.
    - Calls of the logger have no effect on the state and are left out.
    - The server's [clients_lock] is modelled by its recursion level,
      because the lock helper is a subject of the properties; the agent's
      [state_lock], [communication_lock] and [sync_semaphore] only
      serialise threads and are left out, and its [running] flag is taken
      as true while the loop is observed. *)

From Stdlib Require Import ZArith Lia Ascii String.
From stdpp Require Import base option list sorting gmap strings.

Local Open Scope Z_scope.
Local Open Scope string_scope.
Local Open Scope list_scope.

(** ** Values carried by JSON messages *)

Inductive value : Type :=
  | VNone
  | VBool (b : bool)
  | VNum (n : Z)
  | VStr (s : string)
  | VPos (x y : Z).

#[global] Instance value_eq_dec : EqDecision value.
Proof. solve_decision. Defined.

(** A message is a JSON object: a dictionary from field names to values. *)
Abbreviation message := (gmap string value).

(** [d.get(k, dflt)] *)
Definition get (k : string) (dflt : value) (d : message) : value :=
  default dflt (d !! k).

(** Python truthiness of the values that are tested in the sources. *)
Definition truthy_str (s : string) : bool :=
  match s with EmptyString => false | _ => true end.

(** Result of a computation that may raise. *)
Inductive exc (A : Type) : Type :=
  | Ok (a : A)
  | Raise (e : string).
Arguments Ok {A} a.
Arguments Raise {A} e.

Module Server.

(** ** State of [TrafficServer] *)

Definition sock := nat.
Definition addr : Type := string * Z.

(** [client_info], the dictionary built by [register_client]. *)
Record client_info : Type := mk_client {
  ci_id : string;
  ci_intersection : value;
  ci_position : value;
  ci_state : value;
  ci_last_heartbeat : Z;
  ci_socket : sock;
  ci_address : addr;
  ci_state_changes : nat
}.

(** [self.system_state] *)
Record system_state_t : Type := mk_system_state {
  emergency_mode : bool;
  sync_in_progress : bool;
  last_sync : Z;
  total_clients : nat
}.

(** [self.stats] *)
Record stats_t : Type := mk_stats {
  messages_processed : nat;
  sync_operations : nat;
  emergency_overrides : nat;
  deadlock_preventions : nat
}.

(** Target of a [threading.Timer]. *)
Inductive callback : Type :=
  | cb_complete_synchronization.

(** The calls of [acquire] and [release] on a named lock that returned,
    in program order. *)
Inductive lock_event : Type :=
  | EvAcquire (name : string)
  | EvRelease (name : string).

Record world : Type := mk_world {
  (* fields of the TrafficServer object *)
  clients : gmap string client_info;
  client_sockets : gmap string sock;
  client_locks : gset string;
  system_state : system_state_t;
  stats : stats_t;
  active_locks : gset string;
  (* recursion level of the RLock [clients_lock] held by the running thread *)
  clients_lock : nat;
  (* environment *)
  time_reads : nat;                 (* number of calls of time.time() so far *)
  sent : list (sock * message * bool);  (* calls of send: socket, data, returned? *)
  closed : gset sock;               (* sockets on which close() was called *)
  broken : gset sock;               (* sockets on which send has begun to raise *)
  timers : list (Z * callback);     (* started one-shot timers: delay, target *)
  lock_events : list lock_event     (* what was done to the lock, in order *)
}.

Definition set_clients (f : gmap string client_info → gmap string client_info) (w : world) : world :=
  mk_world (f (clients w)) (client_sockets w) (client_locks w) (system_state w) (stats w)
    (active_locks w) (clients_lock w) (time_reads w) (sent w) (closed w) (broken w)
    (timers w) (lock_events w).

Definition set_client_sockets (f : gmap string sock → gmap string sock) (w : world) : world :=
  mk_world (clients w) (f (client_sockets w)) (client_locks w) (system_state w) (stats w)
    (active_locks w) (clients_lock w) (time_reads w) (sent w) (closed w) (broken w)
    (timers w) (lock_events w).

Definition set_client_locks (f : gset string → gset string) (w : world) : world :=
  mk_world (clients w) (client_sockets w) (f (client_locks w)) (system_state w) (stats w)
    (active_locks w) (clients_lock w) (time_reads w) (sent w) (closed w) (broken w)
    (timers w) (lock_events w).

Definition set_system_state (f : system_state_t → system_state_t) (w : world) : world :=
  mk_world (clients w) (client_sockets w) (client_locks w) (f (system_state w)) (stats w)
    (active_locks w) (clients_lock w) (time_reads w) (sent w) (closed w) (broken w)
    (timers w) (lock_events w).

Definition set_stats (f : stats_t → stats_t) (w : world) : world :=
  mk_world (clients w) (client_sockets w) (client_locks w) (system_state w) (f (stats w))
    (active_locks w) (clients_lock w) (time_reads w) (sent w) (closed w) (broken w)
    (timers w) (lock_events w).

Definition set_active_locks (f : gset string → gset string) (w : world) : world :=
  mk_world (clients w) (client_sockets w) (client_locks w) (system_state w) (stats w)
    (f (active_locks w)) (clients_lock w) (time_reads w) (sent w) (closed w) (broken w)
    (timers w) (lock_events w).

Definition set_clients_lock (f : nat → nat) (w : world) : world :=
  mk_world (clients w) (client_sockets w) (client_locks w) (system_state w) (stats w)
    (active_locks w) (f (clients_lock w)) (time_reads w) (sent w) (closed w) (broken w)
    (timers w) (lock_events w).

Definition set_time_reads (f : nat → nat) (w : world) : world :=
  mk_world (clients w) (client_sockets w) (client_locks w) (system_state w) (stats w)
    (active_locks w) (clients_lock w) (f (time_reads w)) (sent w) (closed w) (broken w)
    (timers w) (lock_events w).

Definition set_sent (f : list (sock * message * bool) → list (sock * message * bool))
    (w : world) : world :=
  mk_world (clients w) (client_sockets w) (client_locks w) (system_state w) (stats w)
    (active_locks w) (clients_lock w) (time_reads w) (f (sent w)) (closed w) (broken w)
    (timers w) (lock_events w).

Definition set_closed (f : gset sock → gset sock) (w : world) : world :=
  mk_world (clients w) (client_sockets w) (client_locks w) (system_state w) (stats w)
    (active_locks w) (clients_lock w) (time_reads w) (sent w) (f (closed w)) (broken w)
    (timers w) (lock_events w).

Definition set_broken (f : gset sock → gset sock) (w : world) : world :=
  mk_world (clients w) (client_sockets w) (client_locks w) (system_state w) (stats w)
    (active_locks w) (clients_lock w) (time_reads w) (sent w) (closed w) (f (broken w))
    (timers w) (lock_events w).

Definition set_timers (f : list (Z * callback) → list (Z * callback)) (w : world) : world :=
  mk_world (clients w) (client_sockets w) (client_locks w) (system_state w) (stats w)
    (active_locks w) (clients_lock w) (time_reads w) (sent w) (closed w) (broken w)
    (f (timers w)) (lock_events w).

Definition set_lock_events (f : list lock_event → list lock_event) (w : world) : world :=
  mk_world (clients w) (client_sockets w) (client_locks w) (system_state w) (stats w)
    (active_locks w) (clients_lock w) (time_reads w) (sent w) (closed w) (broken w)
    (timers w) (f (lock_events w)).

(** Updates of the two small dictionaries. *)
Definition with_emergency_mode (b : bool) (s : system_state_t) : system_state_t :=
  mk_system_state b (sync_in_progress s) (last_sync s) (total_clients s).
Definition with_sync_in_progress (b : bool) (s : system_state_t) : system_state_t :=
  mk_system_state (emergency_mode s) b (last_sync s) (total_clients s).
Definition with_last_sync (t : Z) (s : system_state_t) : system_state_t :=
  mk_system_state (emergency_mode s) (sync_in_progress s) t (total_clients s).
Definition with_total_clients (n : nat) (s : system_state_t) : system_state_t :=
  mk_system_state (emergency_mode s) (sync_in_progress s) (last_sync s) n.

Definition incr_messages_processed (s : stats_t) : stats_t :=
  mk_stats (S (messages_processed s)) (sync_operations s) (emergency_overrides s)
    (deadlock_preventions s).
Definition incr_sync_operations (s : stats_t) : stats_t :=
  mk_stats (messages_processed s) (S (sync_operations s)) (emergency_overrides s)
    (deadlock_preventions s).
Definition incr_emergency_overrides (s : stats_t) : stats_t :=
  mk_stats (messages_processed s) (sync_operations s) (S (emergency_overrides s))
    (deadlock_preventions s).
Definition incr_deadlock_preventions (s : stats_t) : stats_t :=
  mk_stats (messages_processed s) (sync_operations s) (emergency_overrides s)
    (S (deadlock_preventions s)).

(** ** Methods of [TrafficServer] *)

Section Methods.

(** The clock read by [time.time()]: [clock n] is the [n]-th reading. *)
Variable clock : nat → Z.

Definition time_time (w : world) : Z * world :=
  (clock (time_reads w), set_time_reads S w).

(** The state right after [__init__]: empty registry, [total_clients] 0,
    [last_sync] stamped with the first clock reading. *)
Definition init : world :=
  mk_world ∅ ∅ ∅ (mk_system_state false false (clock 0) 0) (mk_stats 0 0 0 0)
    ∅ 0 1 [] ∅ ∅ [] [].

(** *** The reentrant lock [clients_lock] *)

Definition rlock_acquire (w : world) : world := set_clients_lock S w.

(** [RLock.release()] raises [RuntimeError] ([None]) when the lock is not held. *)
Definition rlock_release (w : world) : option world :=
  match clients_lock w with
  | O => None
  | S n => Some (set_clients_lock (λ _, n) w)
  end.

(** [with self.clients_lock: body].  The bodies in the source never
    release the lock themselves, so the release on exit finds it held. *)
Definition with_clients_lock (body : world → world) (w : world) : world :=
  let w1 := body (rlock_acquire w) in
  default w1 (rlock_release w1).

(** *** Lock helper (lines 65-105) *)

Definition resource_order : list string :=
  ["system_lock"; "clients_lock"; "message_lock"].

(** [l.index(x)]: position of the first occurrence. *)
Fixpoint index (x : string) (l : list string) : option nat :=
  match l with
  | [] => None
  | y :: l' => if String.eqb x y then Some O else S <$> index x l'
  end.

(** The sort key: [resource_order.index(x) if x in resource_order else 999]. *)
Definition lock_key (x : string) : nat :=
  default 999%nat (index x resource_order).

(** [sorted(lock_names, key=lock_key)]: Python's sort is stable, and a
    stable sort has one result, computed here by insertion from the right. *)
Fixpoint insert_by_key (x : string) (l : list string) : list string :=
  match l with
  | [] => [x]
  | y :: l' =>
      if (lock_key x <=? lock_key y)%nat then x :: y :: l'
      else y :: insert_by_key x l'
  end.

Definition sorted_locks (lock_names : list string) : list string :=
  foldr insert_by_key [] lock_names.

(** One pass of [for lock_name in reversed(lock_names)] in [release_locks]:
    the lock is touched for ['clients_lock'] only, and a release that
    raises [RuntimeError] (the lock is not held) is passed over. *)
Definition release_one (lock_name : string) (w : world) : world :=
  let w1 :=
    if String.eqb lock_name "clients_lock" then
      match rlock_release w with
      | Some w' => set_lock_events (λ l, l ++ [EvRelease "clients_lock"]) w'
      | None => w                         (* RuntimeError is caught *)
      end
    else w in
  set_active_locks (λ s, s ∖ {[lock_name]}) w1.

Definition release_locks (lock_names : list string) (w : world) : world :=
  foldl (λ w lock_name, release_one lock_name w) w (rev lock_names).

(** The loop of [acquire_locks_in_order].  [fail_at = Some k] stands for an
    exception raised by the [k]-th iteration before it acquires anything
    ([None]: no exception); the result says whether the loop ran to its end
    and returns [acquired_locks] as it stands at that point. *)
Fixpoint acquire_loop (fail_at : option nat) (names : list string)
    (acquired_locks : list string) (w : world) : bool * list string * world :=
  match names with
  | [] => (true, acquired_locks, w)
  | lock_name :: rest =>
      match fail_at with
      | Some O => (false, acquired_locks, w)
      | _ =>
          let fail_at' := Nat.pred <$> fail_at in
          if String.eqb lock_name "system_lock" then
            acquire_loop fail_at' rest acquired_locks w
          else if String.eqb lock_name "clients_lock" then
            acquire_loop fail_at' rest (acquired_locks ++ ["clients_lock"])
              (set_lock_events (λ l, l ++ [EvAcquire "clients_lock"]) (rlock_acquire w))
          else if String.eqb lock_name "message_lock" then
            acquire_loop fail_at' rest acquired_locks w
          else
            acquire_loop fail_at' rest acquired_locks w
      end
  end.

Definition acquire_locks_in_order (fail_at : option nat) (lock_names : list string)
    (w : world) : exc (list string) * world :=
  match acquire_loop fail_at (sorted_locks lock_names) [] w with
  | (true, acquired_locks, w1) =>
      (Ok acquired_locks,
       set_stats incr_deadlock_preventions
         (set_active_locks (λ s, s ∪ list_to_set acquired_locks) w1))
  | (false, acquired_locks, w1) =>
      (* except Exception: release what was acquired, re-raise *)
      (Raise "Exception", release_locks acquired_locks w1)
  end.

(** The shape of [process_client_message]: acquire, then
    [try: body finally: release_locks(acquired_locks)].  An exception of
    the acquisition propagates; an exception of the body passes through
    the [finally]. *)
Definition locked {A : Type} (fail_at : option nat) (lock_names : list string)
    (body : world → exc A * world) (w : world) : exc A * world :=
  match acquire_locks_in_order fail_at lock_names w with
  | (Raise e, w1) => (Raise e, w1)
  | (Ok acquired_locks, w1) =>
      let '(r, w2) := body w1 in
      (r, release_locks acquired_locks w2)
  end.

(** *** Sending *)

(** [client_socket.send(data)] raises on a socket that this process has
    closed and on a socket of [broken], the sockets on which the environment
    has made [send] raise (a peer that has gone away does not by itself make
    the next [send] raise); the call is recorded with its outcome. *)
Definition send_ok (s : sock) (w : world) : bool :=
  bool_decide (s ∉ closed w ∪ broken w).

Definition sock_send (s : sock) (data : message) (w : world) : bool * world :=
  (send_ok s w, set_sent (λ l, l ++ [(s, data, send_ok s w)]) w).

Definition sock_close (s : sock) (w : world) : world :=
  set_closed (λ c, {[s]} ∪ c) w.

Definition send_to_client (client_id : string) (msg : message) (w : world) : bool * world :=
  match client_sockets w !! client_id with
  | None => (false, w)
  | Some client_socket =>
      (* try: send, return True; except: log, return False *)
      sock_send client_socket msg w
  end.

Definition broadcast_message (msg : message) (w : world) : world :=
  with_clients_lock
    (λ w, foldl (λ w client_id, (send_to_client client_id msg w).2) w
            (map_to_list (client_sockets w)).*1)
    w.

(** *** Registry (lines 222-268, 363-373) *)

Definition register_client (client_id : string) (m : message)
    (client_socket : sock) (address : addr) (w : world) : world :=
  let '(now, w) := time_time w in
  let client_info :=
    mk_client client_id
      (get "intersection" (VStr "Unknown") m)
      (get "position" (VPos 0 0) m)
      (get "state" (VStr "RED") m)
      now client_socket address 0 in
  let w := set_clients (insert client_id client_info) w in
  let w := set_client_sockets (insert client_id client_socket) w in
  let w := set_client_locks (λ s, {[client_id]} ∪ s) w in
  let w := set_system_state (with_total_clients (size (clients w))) w in
  let '(server_time, w) := time_time w in
  (send_to_client client_id
     {[ "type" := VStr "registration_confirmed";
        "server_time" := VNum server_time;
        "client_id" := VStr client_id ]} w).2.

Definition complete_synchronization (w : world) : world :=
  set_system_state (with_sync_in_progress false) w.

Definition should_sync_clients (w : world) : bool * world :=
  if sync_in_progress (system_state w) then (false, w)
  else
    let '(now, w) := time_time w in
    (bool_decide (now - last_sync (system_state w) > 30), w).

Definition sync_message (timestamp : Z) : message :=
  {[ "type" := VStr "sync_request";
     "timestamp" := VNum timestamp;
     "server_id" := VStr "SIGET_CENTRAL" ]}.

Definition trigger_synchronization (w : world) : world :=
  if sync_in_progress (system_state w) then w
  else
    let w := set_system_state (with_sync_in_progress true) w in
    let '(now, w) := time_time w in
    let w := set_system_state (with_last_sync now) w in
    let w := set_stats incr_sync_operations w in
    let '(timestamp, w) := time_time w in
    let w := broadcast_message (sync_message timestamp) w in
    (* threading.Timer(5.0, self.complete_synchronization).start() *)
    set_timers (λ l, l ++ [(5, cb_complete_synchronization)]) w.

(** [trigger_synchronization] in the two steps between which another
    thread can run: the test of line 280, and lines 283-299, which a caller
    reaches when its test found no synchronisation in progress.  No lock is
    held between the two. *)
Definition trigger_test (w : world) : bool :=
  negb (sync_in_progress (system_state w)).

Definition trigger_enter (w : world) : world :=
  let w := set_system_state (with_sync_in_progress true) w in
  let '(now, w) := time_time w in
  let w := set_system_state (with_last_sync now) w in
  let w := set_stats incr_sync_operations w in
  let '(timestamp, w) := time_time w in
  let w := broadcast_message (sync_message timestamp) w in
  set_timers (λ l, l ++ [(5, cb_complete_synchronization)]) w.

(** Calls of [trigger_synchronization] by several threads (the periodic
    thread, a handler, the interface), as a sequence of such steps.  The
    second component holds the callers that have passed the test and have
    not yet gone on. *)
Inductive trigger_step : Type :=
  | tr_test (thread : nat)
  | tr_enter (thread : nat).

Definition trigger_sched_step (st : world * gset nat) (s : trigger_step)
    : world * gset nat :=
  match s with
  | tr_test t => if trigger_test st.1 then (st.1, {[t]} ∪ st.2) else st
  | tr_enter t =>
      if decide (t ∈ st.2) then (trigger_enter st.1, st.2 ∖ {[t]}) else st
  end.

Definition trigger_sched (steps : list trigger_step) (w : world) : world * gset nat :=
  foldl trigger_sched_step (w, ∅) steps.

(** The first pending timer fires. *)
Definition run_callback (c : callback) (w : world) : world :=
  match c with
  | cb_complete_synchronization => complete_synchronization w
  end.

Definition timer_fires (w : world) : world :=
  match timers w with
  | [] => w
  | (_, c) :: rest => run_callback c (set_timers (λ _, rest) w)
  end.

Definition update_client_state (client_id : string) (m : message) (w : world) : world :=
  match clients w !! client_id with
  | None => w
  | Some client_info =>
      let state := get "state" (ci_state client_info) m in
      let '(now, w) := time_time w in
      let client_info' :=
        mk_client (ci_id client_info) (ci_intersection client_info)
          (ci_position client_info) state now (ci_socket client_info)
          (ci_address client_info) (S (ci_state_changes client_info)) in
      let w := set_clients (insert client_id client_info') w in
      let '(sync, w) := should_sync_clients w in
      if sync then trigger_synchronization w else w
  end.

Definition update_client_heartbeat (client_id : string) (w : world) : world :=
  match clients w !! client_id with
  | None => w
  | Some client_info =>
      let '(now, w) := time_time w in
      let client_info' :=
        mk_client (ci_id client_info) (ci_intersection client_info)
          (ci_position client_info) (ci_state client_info) now
          (ci_socket client_info) (ci_address client_info)
          (ci_state_changes client_info) in
      set_clients (insert client_id client_info') w
  end.

Definition remove_client (client_id : string) (w : world) : world :=
  with_clients_lock
    (λ w,
      match clients w !! client_id with
      | None => w
      | Some _ =>
          let w := set_clients (delete client_id) w in
          let w := set_client_sockets (delete client_id) w in
          let w := set_client_locks (λ s, s ∖ {[client_id]}) w in
          set_system_state (with_total_clients (size (clients w))) w
      end)
    w.

(** *** Dispatcher (lines 196-220) *)

(** The body of the [try] block: the [if]/[elif] chain on the message
    type, then the statement that follows it. *)
Definition dispatch (client_id : string) (m : message) (client_socket : sock)
    (address : addr) (w : world) : world :=
  let message_type := get "type" VNone m in
  let w :=
    if decide (message_type = VStr "register") then
      register_client client_id m client_socket address w
    else if decide (message_type = VStr "state_update") then
      update_client_state client_id m w
    else if decide (message_type = VStr "heartbeat") then
      update_client_heartbeat client_id w
    else w (* a warning is logged *) in
  set_stats incr_messages_processed w.

Definition locks_to_acquire (m : message) : list string :=
  ["clients_lock"] ++
  (if decide (get "type" VNone m = VStr "state_update") then ["system_lock"] else []).

Definition process_client_message (client_id : string) (m : message)
    (client_socket : sock) (address : addr) (w : world) : exc unit * world :=
  locked None (locks_to_acquire m)
    (λ w, (Ok (), dispatch client_id m client_socket address w)) w.

(** What [handle_client] does with the messages of one connection. *)
Record inbound : Type := mk_inbound {
  in_client_id : string;
  in_message : message;
  in_socket : sock;
  in_address : addr
}.

Definition process_inbound (w : world) (i : inbound) : world :=
  (process_client_message (in_client_id i) (in_message i) (in_socket i)
     (in_address i) w).2.

(** [message.get('light_id')] as [json.loads] delivers it: a string, or a
    value that cannot be hashed (a JSON array or object).  A JSON null,
    number or boolean can be hashed and is handled as a string is, with
    itself as the key; the keys of the registry are strings here. *)
Inductive light_id_t : Type :=
  | id_str (s : string)
  | id_unhashable.

(** The body of the [try] block for an id that cannot be hashed: the first
    use of the id as a dictionary key raises [TypeError], in
    [register_client] at line 235, after [client_info] was built with one
    reading of the clock, in [update_client_state] at line 251 and in
    [update_client_heartbeat] at line 267; the statement after the chain is
    then not reached.  A message of unknown type does not use the id. *)
Definition dispatch_unhashable (m : message) (w : world) : exc unit * world :=
  let message_type := get "type" VNone m in
  if decide (message_type = VStr "register") then
    let '(_, w) := time_time w in (Raise "TypeError", w)
  else if decide (message_type = VStr "state_update") then (Raise "TypeError", w)
  else if decide (message_type = VStr "heartbeat") then (Raise "TypeError", w)
  else (Ok (), set_stats incr_messages_processed w).

(** [process_client_message] on every id: [process_client_message] above
    is the function on the string ids. *)
Definition process_client_message_json (client_id : light_id_t) (m : message)
    (client_socket : sock) (address : addr) (w : world) : exc unit * world :=
  match client_id with
  | id_str s => process_client_message s m client_socket address w
  | id_unhashable => locked None (locks_to_acquire m) (dispatch_unhashable m) w
  end.

(** A message as it reaches the dispatcher. *)
Record arrival : Type := mk_arrival {
  ar_id : light_id_t;
  ar_message : message;
  ar_socket : sock;
  ar_address : addr
}.

Definition process_arrival (w : world) (i : arrival) : world :=
  (process_client_message_json (ar_id i) (ar_message i) (ar_socket i)
     (ar_address i) w).2.

(** The [finally] block of [handle_client] (lines 189-194).  [client_id]
    is [None] when the connection ended before any message arrived. *)
Definition handle_client_finally (client_id : option string) (client_socket : sock)
    (w : world) : world :=
  let w :=
    match client_id with
    | Some cid => if truthy_str cid then remove_client cid w else w
    | None => w
    end in
  sock_close client_socket w.

(** *** Liveness sweep: one round of [system_monitor] after its sleep
    (lines 343-358).  [log_system_stats] only reads. *)
Definition inactive_clients (current_time : Z) (w : world) : list string :=
  (filter (λ kv, current_time - ci_last_heartbeat kv.2 > 60)
     (map_to_list (clients w))).*1.

Definition system_monitor_round (w : world) : world :=
  let '(current_time, w) := time_time w in
  (* the with block only reads the registry *)
  let inactive := inactive_clients current_time w in
  foldl (λ w client_id, remove_client client_id w) w inactive.

(** *** Emergency override (lines 395-417) *)

Definition target_value (target_intersection : option string) : value :=
  match target_intersection with
  | Some s => VStr s
  | None => VNone
  end.

(** [if target_intersection:] *)
Definition truthy_target (target_intersection : option string) : bool :=
  match target_intersection with
  | Some s => truthy_str s
  | None => false
  end.

Definition emergency_message (target_intersection : option string)
    (emergency_state : string) (timestamp : Z) : message :=
  {[ "type" := VStr "emergency_override";
     "state" := VStr emergency_state;
     "timestamp" := VNum timestamp;
     "target_intersection" := target_value target_intersection ]}.

Definition emergency_override (target_intersection : option string)
    (emergency_state : string) (w : world) : world :=
  let w := set_system_state (with_emergency_mode true) w in
  let w := set_stats incr_emergency_overrides w in
  let '(timestamp, w) := time_time w in
  let msg := emergency_message target_intersection emergency_state timestamp in
  if truthy_target target_intersection then
    with_clients_lock
      (λ w,
        foldl
          (λ w kv,
            if decide (ci_intersection kv.2 = target_value target_intersection)
            then (send_to_client kv.1 msg w).2 else w)
          w (map_to_list (clients w)))
      w
  else broadcast_message msg w.

(** One round of [periodic_sync] after its sleep (lines 331-332). *)
Definition periodic_sync_round (w : world) : world :=
  let '(sync, w) := should_sync_clients w in
  if sync then trigger_synchronization w else w.

(** *** What can happen to a running server *)

Inductive op : Type :=
  | op_message (i : inbound)             (* process_client_message *)
  | op_disconnect (client_id : option string) (client_socket : sock)
                                         (* the finally block of handle_client *)
  | op_remove (client_id : string)       (* remove_client *)
  | op_monitor                           (* a round of system_monitor *)
  | op_periodic_sync                     (* a round of periodic_sync *)
  | op_timer                             (* the first pending timer fires *)
  | op_emergency (target_intersection : option string) (emergency_state : string)
  | op_peer_gone (s : sock).             (* environment: from now on send on s raises *)

Definition run_op (w : world) (o : op) : world :=
  match o with
  | op_message i => process_inbound w i
  | op_disconnect client_id client_socket => handle_client_finally client_id client_socket w
  | op_remove client_id => remove_client client_id w
  | op_monitor => system_monitor_round w
  | op_periodic_sync => periodic_sync_round w
  | op_timer => timer_fires w
  | op_emergency target_intersection emergency_state =>
      emergency_override target_intersection emergency_state w
  | op_peer_gone s => set_broken (λ b, {[s]} ∪ b) w
  end.

Definition run (ops : list op) : world := foldl run_op init ops.

End Methods.

(** ** Auxiliary definitions for the statements *)

Definition add_sent (new : list (sock * message * bool)) (w : world) : world :=
  set_sent (λ l, l ++ new) w.

(** The call of [send] that [send_to_client client_id msg] makes, if any. *)
Definition send_call (client_id : string) (msg : message) (w : world)
    : list (sock * message * bool) :=
  match client_sockets w !! client_id with
  | Some s => [(s, msg, send_ok s w)]
  | None => []
  end.

(** One call per stored connection handle. *)
Definition broadcast_calls (msg : message) (w : world) : list (sock * message * bool) :=
  (λ kv, (kv.2, msg, send_ok kv.2 w)) <$> map_to_list (client_sockets w).

(** The calls for the sessions of one intersection. *)
Definition scoped_calls (target : value) (msg : message) (w : world)
    : list (sock * message * bool) :=
  flat_map
    (λ kv, if decide (ci_intersection kv.2 = target) then send_call kv.1 msg w else [])
    (map_to_list (clients w)).

(** From the spec's words: a message is successfully classified when its
    type is register, stateUpdate or heartbeat. *)
Definition classified (m : message) : bool :=
  bool_decide (get "type" VNone m = VStr "register") ||
  bool_decide (get "type" VNone m = VStr "state_update") ||
  bool_decide (get "type" VNone m = VStr "heartbeat").

Definition count_classified (l : list inbound) : nat :=
  length (filter (λ i, classified (in_message i) = true) l).

(** The global order of the lock names. *)
Definition key_le (a b : string) : Prop := (lock_key a ≤ lock_key b)%nat.

(** The part of the sorted names that the acquisition loop goes through
    before the exception of iteration [fail_at], if any. *)
Definition visited (fail_at : option nat) (names : list string) : list string :=
  match fail_at with
  | Some k => take k names
  | None => names
  end.

Definition completes (fail_at : option nat) (names : list string) : bool :=
  match fail_at with
  | Some k => (length names <=? k)%nat
  | None => true
  end.

(** The names that the loop really acquires: only [clients_lock] is a lock. *)
Definition acquired_of (fail_at : option nat) (names : list string) : list string :=
  filter (λ x, x = "clients_lock") (visited fail_at names).

(** The session written by [update_client_state] over [client_info]. *)
Definition updated_info (info : client_info) (m : message) (now : Z) : client_info :=
  mk_client (ci_id info) (ci_intersection info) (ci_position info)
    (get "state" (ci_state info) m) now (ci_socket info)
    (ci_address info) (S (ci_state_changes info)).

(** The session written by [register_client]. *)
Definition registered_info (client_id : string) (m : message) (client_socket : sock)
    (address : addr) (now : Z) : client_info :=
  mk_client client_id (get "intersection" (VStr "Unknown") m)
    (get "position" (VPos 0 0) m) (get "state" (VStr "RED") m)
    now client_socket address 0.

Definition registration_confirmed (client_id : string) (server_time : Z) : message :=
  {[ "type" := VStr "registration_confirmed";
     "server_time" := VNum server_time;
     "client_id" := VStr client_id ]}.

(** What a message handler leaves alone: the lock, the sockets' health,
    and the counters that are not its own. *)
Definition handler_frame (w w' : world) : Prop :=
  clients_lock w' = clients_lock w ∧ active_locks w' = active_locks w ∧
  lock_events w' = lock_events w ∧ closed w' = closed w ∧ broken w' = broken w ∧
  messages_processed (stats w') = messages_processed (stats w) ∧
  deadlock_preventions (stats w') = deadlock_preventions (stats w) ∧
  emergency_overrides (stats w') = emergency_overrides (stats w) ∧
  emergency_mode (system_state w') = emergency_mode (system_state w).

(** What leaves the registry alone. *)
Definition registry_frame (w w' : world) : Prop :=
  clients w' = clients w ∧ client_sockets w' = client_sockets w ∧
  client_locks w' = client_locks w ∧
  total_clients (system_state w') = total_clients (system_state w).

(** The state in which [process_client_message] runs its handler. *)
Definition after_acquire (w : world) : world :=
  set_stats incr_deadlock_preventions
    (set_active_locks (λ s, s ∪ list_to_set ["clients_lock"])
       (set_lock_events (λ l, l ++ [EvAcquire "clients_lock"]) (rlock_acquire w))).

Definition in_unknown : inbound := mk_inbound "A1" {[ "type" := VStr "ping" ]} 7%nat ("10.0.0.1", 5001).

(** The changes that the lock helper makes to the state. *)
Definition raise_lock (k : nat) (w : world) : world :=
  set_clients_lock (λ n, n + k)%nat w.
Definition lower_lock (k : nat) (w : world) : world :=
  set_clients_lock (λ n, n - k)%nat w.
Definition log_events (l : list lock_event) (w : world) : world :=
  set_lock_events (λ e, e ++ l) w.
Definition drop_active (s : gset string) (w : world) : world :=
  set_active_locks (λ a, a ∖ s) w.

(** Every session has a stored connection handle, and only sessions do. *)
Definition handles_ok (w : world) : Prop :=
  dom (client_sockets w) = dom (clients w).

(** The registry and the derived counter agree. *)
Definition total_clients_ok (w : world) : Prop :=
  total_clients (system_state w) = size (clients w).

(** *** Concrete inputs *)

Definition clock0 (n : nat) : Z := 1000 + 2 * Z.of_nat n.

(** A clock that advances 35 seconds between two readings. *)
Definition clock35 (n : nat) : Z := 35 * Z.of_nat n.

(** A clock that advances 100 seconds between two readings. *)
Definition clock100 (n : nat) : Z := 100 * Z.of_nat n.

Definition register_msg (intersection : string) : message :=
  {[ "type" := VStr "register"; "intersection" := VStr intersection;
     "position" := VPos 1 2; "state" := VStr "GREEN" ]}.

Definition bare_register_msg : message := {[ "type" := VStr "register" ]}.

Definition state_update_msg (state : string) : message :=
  {[ "type" := VStr "state_update"; "state" := VStr state ]}.

Definition bare_state_update_msg : message := {[ "type" := VStr "state_update" ]}.

Definition unknown_msg : message := {[ "type" := VStr "ping" ]}.

Definition in_A1 : inbound := mk_inbound "A1" (register_msg "Centro") 7%nat ("10.0.0.1", 5001).
Definition in_A2 : inbound := mk_inbound "A2" (register_msg "Sur") 8%nat ("10.0.0.2", 5002).

(** Two registered agents: A1 at Centro on socket 7, A2 at Sur on socket 8. *)
Definition two_clients (clock : nat → Z) : world :=
  run clock [op_message in_A1; op_message in_A2].

(** ** The rest of [TrafficServer]: connection loop, status, shutdown *)

(** The server object with its [running] flag. *)
Record node : Type := mk_node {
  nd_world : world;
  running : bool
}.

(** One entry of ['clients'] in the status. *)
Record client_status : Type := mk_client_status {
  cs_intersection : value;
  cs_state : value;
  cs_last_heartbeat : Z;
  cs_state_changes : nat
}.

(** The dictionary returned by [get_system_status]. *)
Record status : Type := mk_status {
  st_running : bool;
  st_total_clients : nat;
  st_clients : gmap string client_status;
  st_system_state : system_state_t;
  st_stats : stats_t;
  st_active_locks : list string
}.

Definition client_status_of (info : client_info) : client_status :=
  mk_client_status (ci_intersection info) (ci_state info) (ci_last_heartbeat info)
    (ci_state_changes info).

(** [get_system_status] (lines 419-434): the snapshot is built under the
    lock; the copies are values here. *)
Definition get_system_status (n : node) : status * node :=
  let w1 := rlock_acquire (nd_world n) in
  let st :=
    mk_status (running n) (size (clients w1)) (client_status_of <$> clients w1)
      (system_state w1) (stats w1) (elements (active_locks w1)) in
  (st, mk_node (default w1 (rlock_release w1)) (running n)).

(** [stop_server] (lines 443-466): the flag, then [close] on every stored
    socket.  The listening socket and the joins of the threads are not part
    of the state. *)
Definition stop_server (n : node) : node :=
  mk_node
    (with_clients_lock
       (λ w, foldl (λ w client_socket, sock_close client_socket w) w
               (map_to_list (client_sockets w)).*2)
       (nd_world n))
    false.

Section Connection.

Variable clock : nat → Z.

(** [handle_client] (lines 170-194) for a connection whose messages each
    carry a string [light_id], given with the message: the messages are
    dispatched in order and the cleanup uses the id of the last one.  The
    end of the list stands for the end of the stream, for data that
    cannot be decoded or for [running] turned false, which all lead to the
    [finally] block. *)
Definition handle_client (client_socket : sock) (address : addr)
    (msgs : list (string * message)) (w : world) : world :=
  let w :=
    foldl (λ w im, (process_client_message clock im.1 im.2 client_socket address w).2)
      w msgs in
  handle_client_finally (fst <$> last msgs) client_socket w.

(** What can happen to the server object: the operations above, a manual
    synchronisation (the caller is the button of the interface), a status
    request and a shutdown. *)
Inductive action : Type :=
  | act_op (o : op)
  | act_trigger
  | act_status
  | act_stop.

Definition run_action (n : node) (a : action) : node :=
  match a with
  | act_op o => mk_node (run_op clock (nd_world n) o) (running n)
  | act_trigger => mk_node (trigger_synchronization clock (nd_world n)) (running n)
  | act_status => (get_system_status n).2
  | act_stop => stop_server n
  end.

(** The handler that the dispatcher picks for a message. *)
Definition handler (client_id : string) (m : message) (client_socket : sock)
    (address : addr) (w : world) : world :=
  if decide (get "type" VNone m = VStr "register") then
    register_client clock client_id m client_socket address w
  else if decide (get "type" VNone m = VStr "state_update") then
    update_client_state clock client_id m w
  else if decide (get "type" VNone m = VStr "heartbeat") then
    update_client_heartbeat clock client_id w
  else w.

(** The server after [__init__] and [start_server]. *)
Definition started : node := mk_node (init clock) true.

Definition run_actions (acts : list action) : node := foldl run_action started acts.

(** The same with the calls of the dispatcher on a message whose id cannot
    be hashed.  What [handle_client] does after such a call touches no
    counter and no session. *)
Inductive step : Type :=
  | st_action (a : action)
  | st_unhashable (m : message) (client_socket : sock) (address : addr).

Definition run_step (n : node) (s : step) : node :=
  match s with
  | st_action a => run_action n a
  | st_unhashable m client_socket address =>
      mk_node
        (process_client_message_json clock id_unhashable m client_socket address
           (nd_world n)).2
        (running n)
  end.

Definition run_steps (steps : list step) : node := foldl run_step started steps.

End Connection.

(** *** Auxiliary definitions for the statements *)

Definition is_message (a : action) : bool :=
  match a with act_op (op_message _) => true | _ => false end.

Definition is_emergency_action (a : action) : bool :=
  match a with act_op (op_emergency _ _) => true | _ => false end.

(** A message that is counted: its id is a string, whatever its type, or
    its type is none of the three. *)
Definition counted (i : arrival) : bool :=
  match ar_id i with
  | id_str _ => true
  | id_unhashable => negb (classified (ar_message i))
  end.

(** A step that dispatches a message, and one whose message is counted. *)
Definition is_dispatch (s : step) : bool :=
  match s with
  | st_action a => is_message a
  | st_unhashable _ _ _ => true
  end.

Definition is_counted (s : step) : bool :=
  match s with
  | st_action a => is_message a
  | st_unhashable m _ _ => negb (classified m)
  end.

Definition is_emergency_step (s : step) : bool :=
  match s with
  | st_action a => is_emergency_action a
  | st_unhashable _ _ _ => false
  end.

Definition is_register_action (a : action) : bool :=
  match a with
  | act_op (op_message i) =>
      bool_decide (get "type" VNone (in_message i) = VStr "register")
  | _ => false
  end.

(** Nobody is registered and nothing was sent. *)
Definition unvisited (w : world) : Prop :=
  clients w = ∅ ∧ client_sockets w = ∅ ∧ client_locks w = ∅ ∧ sent w = [] ∧
  total_clients (system_state w) = 0%nat.

(** Every stored time is a reading of the clock that was taken before. *)
Definition stamps_ok (clock : nat → Z) (w : world) : Prop :=
  (∃ k, (k < time_reads w)%nat ∧ last_sync (system_state w) = clock k) ∧
  ∀ client_id info, clients w !! client_id = Some info →
    ∃ k, (k < time_reads w)%nat ∧ ci_last_heartbeat info = clock k.

(** A session is older than 60 seconds at [current_time]. *)
Definition stale (current_time : Z) (info : client_info) : bool :=
  bool_decide (current_time - ci_last_heartbeat info > 60).

(** Every session is stored under its own id, together with its socket
    and a lock, and nothing else is stored. *)
Definition registry_wf (w : world) : Prop :=
  dom (client_sockets w) = dom (clients w) ∧
  client_locks w = dom (clients w) ∧
  ∀ client_id info, clients w !! client_id = Some info →
    ci_id info = client_id ∧ client_sockets w !! client_id = Some (ci_socket info).

(** The sockets stored in [client_sockets]. *)
Definition stored_sockets (w : world) : gset sock :=
  list_to_set (map_to_list (client_sockets w)).*2.

(** [close] on each socket of a set. *)
Definition close_all (s : gset sock) (w : world) : world :=
  set_closed (λ c, s ∪ c) w.

(** Two states that differ at most in the lock, the log of the helper
    and the counters. *)
Definition same_core (w w' : world) : Prop :=
  clients w' = clients w ∧ client_sockets w' = client_sockets w ∧
  client_locks w' = client_locks w ∧ system_state w' = system_state w ∧
  timers w' = timers w ∧ sent w' = sent w ∧ closed w' = closed w ∧
  broken w' = broken w ∧ time_reads w' = time_reads w.

(** The lock and the counters of messages and overrides are as before. *)
Definition books_frame (w w' : world) : Prop :=
  clients_lock w' = clients_lock w ∧ active_locks w' = active_locks w ∧
  lock_events w' = lock_events w ∧
  messages_processed (stats w') = messages_processed (stats w) ∧
  deadlock_preventions (stats w') = deadlock_preventions (stats w) ∧
  emergency_overrides (stats w') = emergency_overrides (stats w).

(** A synchronisation is in progress exactly when one timer is pending. *)
Definition sync_window_ok (w : world) : Prop :=
  length (timers w) = if sync_in_progress (system_state w) then 1%nat else 0%nat.

End Server.

Module Light.

(** ** State of a [TrafficLight] agent *)

Inductive TrafficLightState : Type := RED | YELLOW | GREEN.

#[global] Instance TrafficLightState_eq_dec : EqDecision TrafficLightState.
Proof. solve_decision. Defined.

(** [state.name] *)
Definition name (s : TrafficLightState) : string :=
  match s with
  | RED => "RED"
  | YELLOW => "YELLOW"
  | GREEN => "GREEN"
  end.

(** [TrafficLightState[key]]; [None] is [KeyError]. *)
Definition state_of_name (key : string) : option TrafficLightState :=
  if String.eqb key "RED" then Some RED
  else if String.eqb key "YELLOW" then Some YELLOW
  else if String.eqb key "GREEN" then Some GREEN
  else None.

(** [str.upper()] on ASCII letters.  The characters outside ASCII that
    Python maps to an ASCII capital give I, K or S, none of which occurs in
    a state name, so the lookup that follows decides the same way. *)
Definition upper_ascii (c : ascii) : ascii :=
  let n := nat_of_ascii c in
  if ((97 <=? n) && (n <=? 122))%nat then ascii_of_nat (n - 32) else c.

Fixpoint upper (s : string) : string :=
  match s with
  | EmptyString => EmptyString
  | String c s' => String (upper_ascii c) (upper s')
  end.

(** [STATE_DURATIONS.get(state.name, 5)] with the table of [config.py]. *)
Definition STATE_DURATIONS : gmap string Z :=
  {[ "RED" := 8; "YELLOW" := 3; "GREEN" := 10 ]}.

Definition get_state_duration (state : TrafficLightState) : Z :=
  default 5 (STATE_DURATIONS !! name state).

Record light : Type := mk_light {
  light_id : string;
  intersection_name : string;
  position_x : Z;
  position_y : Z;
  current_state : TrafficLightState;
  previous_state : TrafficLightState;
  state_changes : nat;
  connected : bool;
  (* environment *)
  send_raises : bool;               (* socket.send raises *)
  outbox : list message;            (* data written by send calls that returned *)
  time_reads : nat;                 (* number of calls of time.time() so far *)
  held : list (TrafficLightState * Z)   (* sleeps: state shown, seconds *)
}.

Section Methods.

Variable clock : nat → Z.

(** The agent right after [__init__] (not connected yet). *)
Definition init (id intersection : string) (x y : Z) (raises : bool) : light :=
  mk_light id intersection x y RED RED 0 false raises [] 1 [].

Definition state_update_message (a : light) (state : TrafficLightState)
    (timestamp : Z) : message :=
  {[ "type" := VStr "state_update";
     "light_id" := VStr (light_id a);
     "intersection" := VStr (intersection_name a);
     "state" := VStr (name state);
     "timestamp" := VNum timestamp;
     "position" := VPos (position_x a) (position_y a) ]}.

Definition send_state_to_server (state : TrafficLightState) (timestamp : Z)
    (a : light) : bool * light :=
  if negb (connected a) then (false, a)
  else if send_raises a then (false, a)      (* except: log, return False *)
  else
    (true,
     mk_light (light_id a) (intersection_name a) (position_x a) (position_y a)
       (current_state a) (previous_state a) (state_changes a) (connected a)
       (send_raises a) (outbox a ++ [state_update_message a state timestamp])
       (time_reads a) (held a)).

Definition change_state (new_state : TrafficLightState) (a : light) : bool * light :=
  if decide (current_state a ≠ new_state) then
    let timestamp := clock (time_reads a) in
    let a :=
      mk_light (light_id a) (intersection_name a) (position_x a) (position_y a)
        new_state (current_state a) (S (state_changes a)) (connected a)
        (send_raises a) (outbox a) (S (time_reads a)) (held a) in
    (true, (send_state_to_server new_state timestamp a).2)
  else (false, a).

(** [time.sleep(seconds)] while the light shows [current_state]. *)
Definition sleep (seconds : Z) (a : light) : light :=
  mk_light (light_id a) (intersection_name a) (position_x a) (position_y a)
    (current_state a) (previous_state a) (state_changes a) (connected a)
    (send_raises a) (outbox a) (time_reads a)
    (held a ++ [(current_state a, seconds)]).

(** [handle_emergency_override]: [KeyError] is caught inside; calling
    [upper] on a value that is no string raises [AttributeError]. *)
Definition handle_emergency_override (command : message) (a : light) : exc unit * light :=
  match get "state" (VStr "RED") command with
  | VStr emergency_state =>
      match state_of_name (upper emergency_state) with
      | Some new_state => (Ok (), sleep 5 (change_state new_state a).2)
      | None => (Ok (), a)
      end
  | _ => (Raise "AttributeError", a)
  end.

(** [command and command.get('type') == 'emergency_override'] *)
Definition is_emergency (command : option message) : bool :=
  match command with
  | Some c =>
      bool_decide (c ≠ ∅) && bool_decide (get "type" VNone c = VStr "emergency_override")
  | None => false
  end.

(** The [for state in [RED, GREEN, YELLOW]] loop while [running] stays
    true: the state is applied, then held for its duration in slices of
    100 ms. *)
Definition normal_cycle (a : light) : light :=
  foldl (λ a state, sleep (get_state_duration state) (change_state state a).2)
    a [RED; GREEN; YELLOW].

(** One round of the [while self.running] loop of [traffic_light_cycle];
    [command] is what [receive_command_from_server] returned. *)
Definition cycle_round (a : light) (command : option message) : light :=
  if is_emergency command then
    match handle_emergency_override (default ∅ command) a with
    | (Ok _, a') => a'                (* continue *)
    | (Raise _, a') => sleep 1 a'     (* except Exception: log, sleep(1) *)
    end
  else normal_cycle a.

Definition traffic_light_cycle (commands : list (option message)) (a : light) : light :=
  foldl cycle_round a commands.

End Methods.

(** ** The rest of [TrafficLight]: commands, connection, start and stop *)

Section Agent.

Variable clock : nat → Z.

(** [time.time()] *)
Definition tick (a : light) : light :=
  mk_light (light_id a) (intersection_name a) (position_x a) (position_y a)
    (current_state a) (previous_state a) (state_changes a) (connected a)
    (send_raises a) (outbox a) (S (time_reads a)) (held a).

(** [receive_command_from_server] (lines 107-124): [incoming] is the JSON
    object that [recv] delivers, [None] for a timeout, an empty read or an
    error, which are all answered with [None]. *)
Definition receive_command_from_server (incoming : option message) (a : light)
    : option message :=
  if negb (connected a) then None else incoming.

(** [handle_server_command] (lines 202-217).  [KeyError] is caught inside;
    [upper] on a state that is no string raises [AttributeError]. *)
Definition handle_server_command (command : message) (a : light) : exc unit * light :=
  let command_type := get "type" VNone command in
  if decide (command_type = VStr "sync_request") then
    let timestamp := clock (time_reads a) in
    (Ok (), (send_state_to_server (current_state a) timestamp (tick a)).2)
  else if decide (command_type = VStr "state_change") then
    match get "state" VNone command with
    | VStr new_state =>
        match state_of_name (upper new_state) with
        | Some state => (Ok (), (change_state clock state a).2)
        | None => (Ok (), a)
        end
    | _ => (Raise "AttributeError", a)
    end
  else (Ok (), a).

(** One round of [communication_thread] (lines 190-200); an exception of
    the handler is caught and logged.  The sleeps of this thread are not
    recorded in [held], which is the log of the cycle. *)
Definition communication_round (a : light) (incoming : option message) : light :=
  match receive_command_from_server incoming a with
  | Some command =>
      if bool_decide (command ≠ ∅) then (handle_server_command command a).2 else a
  | None => a
  end.

(** What the two threads of an agent do, in the order in which it happens:
    a round of the cycle with the command it received, or a round of the
    communication thread with what [recv] delivered. *)
Inductive event : Type :=
  | ev_cycle (command : option message)
  | ev_comm (incoming : option message).

Definition agent_round (a : light) (e : event) : light :=
  match e with
  | ev_cycle command => cycle_round clock a command
  | ev_comm incoming => communication_round a incoming
  end.

Definition agent_run (events : list event) (a : light) : light :=
  foldl agent_round a events.

End Agent.

(** The agent object with its [running] flag and its socket attribute. *)
Record agent : Type := mk_agent {
  ag_light : light;
  ag_running : bool;
  ag_socket : bool                  (* [self.socket] is not [None] *)
}.

Definition set_connected (b : bool) (a : light) : light :=
  mk_light (light_id a) (intersection_name a) (position_x a) (position_y a)
    (current_state a) (previous_state a) (state_changes a) b
    (send_raises a) (outbox a) (time_reads a) (held a).

(** [connect_to_server] (lines 58-70): the socket object is created, then
    [connect] raises when the server is not [reachable]. *)
Definition connect_to_server (reachable : bool) (g : agent) : bool * agent :=
  if reachable
  then (true, mk_agent (set_connected true (ag_light g)) (ag_running g) true)
  else (false, mk_agent (ag_light g) (ag_running g) true).

(** [disconnect_from_server] (lines 72-81) *)
Definition disconnect_from_server (g : agent) : agent :=
  if ag_socket g
  then mk_agent (set_connected false (ag_light g)) (ag_running g) (ag_socket g)
  else g.

(** The three results of [start]: a bare [return], [False] and [True]. *)
Inductive start_result : Type := start_none | start_false | start_true.

(** [start] (lines 219-241); the threads it starts run the rounds above. *)
Definition start (reachable : bool) (g : agent) : start_result * agent :=
  if ag_running g then (start_none, g)
  else
    let g := mk_agent (ag_light g) true (ag_socket g) in
    let '(ok, g) := connect_to_server reachable g in
    if ok then (start_true, g) else (start_false, g).

(** [stop] (lines 243-255) *)
Definition stop (g : agent) : agent :=
  disconnect_from_server (mk_agent (ag_light g) false (ag_socket g)).

(** The agent object right after [__init__]. *)
Definition new_agent (id intersection : string) (x y : Z) (raises : bool) : agent :=
  mk_agent (init id intersection x y raises) false false.

(** ** Auxiliary definitions for the statements *)

(** States applied one after the other, as successive calls of [change_state]. *)
Definition apply_states (clock : nat → Z) (l : list TrafficLightState) (a : light) : light :=
  foldl (λ a s, (change_state clock s a).2) a l.

(** Number of positions of [l] at which the state differs from the one
    before it, [cur] being the state before the first. *)
Fixpoint transitions (cur : TrafficLightState) (l : list TrafficLightState) : nat :=
  match l with
  | [] => 0
  | s :: l' => (if decide (cur = s) then 0 else 1) + transitions s l'
  end.

(** The states of [l] that differ from the one before, [cur] being the
    state before the first: the actual changes. *)
Fixpoint changes (cur : TrafficLightState) (l : list TrafficLightState)
    : list TrafficLightState :=
  match l with
  | [] => []
  | s :: l' => if decide (cur = s) then changes s l' else s :: changes s l'
  end.

(** The messages of an agent that reports the states [l] one after the
    other, the first with the [t]-th reading of the clock. *)
Fixpoint reports (clock : nat → Z) (a : light) (t : nat) (l : list TrafficLightState)
    : list message :=
  match l with
  | [] => []
  | s :: l' => state_update_message a s (clock t) :: reports clock a (S t) l'
  end.

(** A socket that is connected and on which [send] returns. *)
Definition delivers (a : light) : bool := connected a && negb (send_raises a).

(** The agent without the log of its sleeps. *)
Definition unheld (a : light) : light :=
  mk_light (light_id a) (intersection_name a) (position_x a) (position_y a)
    (current_state a) (previous_state a) (state_changes a) (connected a)
    (send_raises a) (outbox a) (time_reads a) [].

(** A state update of the agent [id], as [send_state_to_server] builds it. *)
Definition is_state_update_of (id : string) (m : message) : Prop :=
  get "type" VNone m = VStr "state_update" ∧ get "light_id" VNone m = VStr id.

(** The agent [id] has sent nothing but its own state updates. *)
Definition reports_only (id : string) (a : light) : Prop :=
  light_id a = id ∧ Forall (is_state_update_of id) (outbox a).

(** What one normal round adds to the log of sleeps. *)
Definition RGY : list (TrafficLightState * Z) :=
  [(RED, 8); (GREEN, 10); (YELLOW, 3)].

(** *** Concrete inputs *)

Definition clock0 (n : nat) : Z := 1000 + 2 * Z.of_nat n.

(** A connected agent on a working socket, showing RED. *)
Definition light0 : light :=
  mk_light "L1" "Centro" 10 20 RED RED 0 true false [] 1 [].

Definition emergency_green : message :=
  {[ "type" := VStr "emergency_override"; "state" := VStr "green";
     "timestamp" := VNum 1000; "target_intersection" := VNone ]}.

End Light.

Module Logger.

(** ** [ConcurrentLogger] of [logger.py] *)

Inductive level : Type := DEBUG | INFO | WARNING | ERROR.

#[global] Instance level_eq_dec : EqDecision level.
Proof. solve_decision. Defined.

(** The numeric levels of [logging]. *)
Definition level_no (l : level) : nat :=
  match l with
  | DEBUG => 10
  | INFO => 20
  | WARNING => 30
  | ERROR => 40
  end.

(** [LOG_LEVEL] of [config.py] *)
Definition LOG_LEVEL : level := INFO.

(** [self.stats] *)
Record stats_t : Type := mk_stats {
  total_logs : nat;
  error_count : nat;
  warning_count : nat;
  info_count : nat;
  debug_count : nat
}.

Record logger : Type := mk_logger {
  stats : stats_t;
  emitted : list level              (* records that the logger passed on *)
}.

(** The logger after [__init__]. *)
Definition init : logger := mk_logger (mk_stats 0 0 0 0 0) [].

(** [self.logger.debug/info/warning/error(message)]: a record below the
    level of the logger is dropped. *)
Definition emit (l : level) (lg : logger) : logger :=
  if (level_no LOG_LEVEL <=? level_no l)%nat
  then mk_logger (stats lg) (emitted lg ++ [l])
  else lg.

(** The two increments that end every [log_*] method. *)
Definition count (l : level) (lg : logger) : logger :=
  let s := stats lg in
  let s' :=
    match l with
    | DEBUG => mk_stats (S (total_logs s)) (error_count s) (warning_count s)
                 (info_count s) (S (debug_count s))
    | INFO => mk_stats (S (total_logs s)) (error_count s) (warning_count s)
                (S (info_count s)) (debug_count s)
    | WARNING => mk_stats (S (total_logs s)) (error_count s) (S (warning_count s))
                   (info_count s) (debug_count s)
    | ERROR => mk_stats (S (total_logs s)) (S (error_count s)) (warning_count s)
                 (info_count s) (debug_count s)
    end in
  mk_logger s' (emitted lg).

Definition log_at (l : level) (lg : logger) : exc unit * logger :=
  (Ok (), count l (emit l lg)).

(** [float(n)] raises [OverflowError] for an [int] that rounds to
    [2**1024], the first power of two that no float holds. *)
Definition float_overflows (n : Z) : bool := (2 ^ 1024 - 2 ^ 970 <=? Z.abs n)%Z.
Arguments float_overflows : simpl never.

(** The methods, with the arguments that decide whether the message can
    be built: [direction.upper()] needs a string, and the format
    [{duration:.3f}] needs a number that a float can hold (a [bool] is
    one). *)
Inductive call : Type :=
  | log_concurrent_operation
  | log_state_change
  | log_synchronization
  | log_communication (direction : value)
  | log_error
  | log_deadlock_prevention
  | log_performance (duration : value)
  | reset_stats.

Definition run_call (lg : logger) (c : call) : exc unit * logger :=
  match c with
  | log_concurrent_operation => log_at INFO lg
  | log_state_change => log_at INFO lg
  | log_synchronization => log_at INFO lg
  | log_communication direction =>
      match direction with
      | VStr _ => log_at INFO lg
      | _ => (Raise "AttributeError", lg)
      end
  | log_error => log_at ERROR lg
  | log_deadlock_prevention => log_at WARNING lg
  | log_performance duration =>
      match duration with
      | VNum n =>
          if float_overflows n then (Raise "OverflowError", lg) else log_at DEBUG lg
      | VBool _ => log_at DEBUG lg
      | VStr _ => (Raise "ValueError", lg)
      | _ => (Raise "TypeError", lg)
      end
  | reset_stats => (Ok (), mk_logger (mk_stats 0 0 0 0 0) (emitted lg))
  end.

(** A caller that goes on after an exception. *)
Definition run_calls (calls : list call) : logger :=
  foldl (λ lg c, (run_call lg c).2) init calls.

(** *** Auxiliary definitions for the statements *)

Definition is_reset (c : call) : bool :=
  match c with reset_stats => true | _ => false end.

(** The level at which a call logs, if it logs. *)
Definition level_of (c : call) : option level :=
  match c with
  | log_concurrent_operation | log_state_change | log_synchronization => Some INFO
  | log_communication (VStr _) => Some INFO
  | log_communication _ => None
  | log_error => Some ERROR
  | log_deadlock_prevention => Some WARNING
  | log_performance (VNum n) => if float_overflows n then None else Some DEBUG
  | log_performance (VBool _) => Some DEBUG
  | log_performance _ => None
  | reset_stats => None
  end.

End Logger.

(** * Properties of the agent *)

Module LightSpec.
Import Light.

Section Facts.

Variable clock : nat → Z.

Lemma send_state_fields st t a :
  let a' := (send_state_to_server st t a).2 in
  current_state a' = current_state a ∧ previous_state a' = previous_state a ∧
  state_changes a' = state_changes a ∧ held a' = held a ∧
  time_reads a' = time_reads a ∧ connected a' = connected a ∧
  send_raises a' = send_raises a.
Proof.
  unfold send_state_to_server.
  destruct (connected a) eqn:Hc; simpl; [|by rewrite Hc].
  destruct (send_raises a) eqn:Hr; simpl; by rewrite ?Hc, ?Hr.
Qed.

Lemma change_state_current s a : current_state (change_state clock s a).2 = s.
Proof.
  unfold change_state. case_decide as Hne; simpl.
  - by rewrite (proj1 (send_state_fields _ _ _)).
  - by destruct (decide (current_state a = s)).
Qed.

Lemma change_state_held s a : held (change_state clock s a).2 = held a.
Proof.
  unfold change_state. case_decide; simpl; [|done].
  by rewrite (proj1 (proj2 (proj2 (proj2 (send_state_fields _ _ _))))).
Qed.

Lemma change_state_same a : change_state clock (current_state a) a = (false, a).
Proof. unfold change_state. by case_decide. Qed.

Lemma change_state_count s a :
  state_changes (change_state clock s a).2 =
  (state_changes a + (if decide (current_state a = s) then 0 else 1))%nat.
Proof.
  unfold change_state. case_decide as Hne; simpl.
  - rewrite (proj1 (proj2 (proj2 (send_state_fields _ _ _)))). simpl.
    destruct (decide (current_state a = s)); [done | lia].
  - destruct (decide (current_state a = s)); [lia | done].
Qed.

Lemma apply_states_count l : ∀ a,
  state_changes (apply_states clock l a) =
  (state_changes a + transitions (current_state a) l)%nat.
Proof.
  induction l as [|s l IH]; intros a; simpl; [lia|].
  unfold apply_states in *. rewrite IH, change_state_count, change_state_current. lia.
Qed.

Lemma sleep_held d a : held (sleep d a) = held a ++ [(current_state a, d)].
Proof. done. Qed.

Lemma get_state_duration_values :
  get_state_duration RED = 8 ∧ get_state_duration GREEN = 10 ∧
  get_state_duration YELLOW = 3.
Proof. by vm_compute. Qed.

Lemma normal_cycle_held a : held (normal_cycle clock a) = held a ++ RGY.
Proof.
  unfold normal_cycle. cbn [foldl].
  destruct get_state_duration_values as (-> & -> & ->).
  repeat rewrite ?sleep_held, ?change_state_held, ?change_state_current.
  by rewrite <- !app_assoc.
Qed.

Lemma sleep_current d a : current_state (sleep d a) = current_state a.
Proof. done. Qed.

Lemma normal_cycle_current a : current_state (normal_cycle clock a) = YELLOW.
Proof.
  unfold normal_cycle. cbn [foldl]. by rewrite sleep_current, change_state_current.
Qed.

Lemma traffic_light_cycle_cons c l a :
  traffic_light_cycle clock (c :: l) a =
  traffic_light_cycle clock l (cycle_round clock a c).
Proof. done. Qed.

Lemma cycle_round_quiet a : cycle_round clock a None = normal_cycle clock a.
Proof. done. Qed.

Lemma quiet_rounds_held n : ∀ a,
  held (traffic_light_cycle clock (replicate n None) a) =
  held a ++ mjoin (replicate n RGY).
Proof.
  induction n as [|n IH]; intros a.
  - simpl. by rewrite app_nil_r.
  - cbn [replicate mjoin]. rewrite traffic_light_cycle_cons, IH, cycle_round_quiet.
    by rewrite normal_cycle_held, <- app_assoc.
Qed.

(** An emergency round adds at most one sleep, whatever the command holds. *)
Lemma emergency_round_held a c :
  is_emergency (Some c) = true →
  ∃ pre, held (cycle_round clock a (Some c)) = held a ++ pre ∧ (length pre ≤ 1)%nat.
Proof.
  intros He. unfold cycle_round. rewrite He. simpl.
  unfold handle_emergency_override.
  destruct (get "state" (VStr "RED") c) as [| | |es|];
    try (exists [(current_state a, 1)]; split; [done | simpl; lia]).
  destruct (state_of_name (upper es)) as [s|].
  - exists [(s, 5)]. split; [|simpl; lia].
    by rewrite sleep_held, change_state_held, change_state_current.
  - exists []. split; [by rewrite app_nil_r | simpl; lia].
Qed.

Lemma traffic_light_cycle_app l1 l2 a :
  traffic_light_cycle clock (l1 ++ l2) a =
  traffic_light_cycle clock l2 (traffic_light_cycle clock l1 a).
Proof. unfold traffic_light_cycle. apply foldl_app. Qed.

(** *** What the cycle sends *)

Lemma state_update_message_change s a st t :
  state_update_message (change_state clock s a).2 st t = state_update_message a st t.
Proof.
  unfold change_state. case_decide; [|done]. unfold send_state_to_server. cbn.
  by destruct (connected a), (send_raises a).
Qed.

Lemma reports_ext a a' l : ∀ t,
  (∀ st t', state_update_message a' st t' = state_update_message a st t') →
  reports clock a' t l = reports clock a t l.
Proof.
  intros t H. revert t. induction l as [|s l IH]; intros t; [done|].
  cbn [reports]. by rewrite H, IH.
Qed.

Lemma change_state_outbox s a :
  outbox (change_state clock s a).2 =
  outbox a ++
  (if decide (current_state a = s) then []
   else if delivers a then [state_update_message a s (clock (time_reads a))] else []).
Proof.
  unfold change_state, delivers. destruct (decide (current_state a = s)) as [He|Hne].
  - rewrite decide_False by (by intros []). cbn. by rewrite app_nil_r.
  - rewrite decide_True by done. unfold send_state_to_server. cbn.
    destruct (connected a), (send_raises a); cbn; by rewrite ?app_nil_r.
Qed.

Lemma change_state_env s a :
  let a' := (change_state clock s a).2 in
  delivers a' = delivers a ∧ light_id a' = light_id a ∧
  time_reads a' =
    (if decide (current_state a = s) then time_reads a else S (time_reads a)).
Proof.
  cbn zeta. unfold change_state, delivers.
  destruct (decide (current_state a = s)) as [He|Hne].
  - by rewrite decide_False by (by intros []).
  - rewrite decide_True by done. unfold send_state_to_server. cbn.
    by destruct (connected a), (send_raises a).
Qed.

Lemma apply_states_outbox l : ∀ a,
  outbox (apply_states clock l a) =
  outbox a ++
  (if delivers a
   then reports clock a (time_reads a) (changes (current_state a) l) else []).
Proof.
  induction l as [|s l IH]; intros a.
  - cbn. by destruct (delivers a); rewrite app_nil_r.
  - unfold apply_states in *. cbn [foldl changes]. rewrite IH.
    destruct (change_state_env s a) as (-> & _ & ->).
    rewrite change_state_outbox, change_state_current, <- app_assoc. f_equal.
    rewrite (reports_ext a) by apply state_update_message_change.
    destruct (decide (current_state a = s)) as [He|Hne]; [done|].
    by destruct (delivers a).
Qed.

Lemma changes_length l : ∀ cur, length (changes cur l) = transitions cur l.
Proof.
  induction l as [|s l IH]; intros cur; [done|]. cbn [changes transitions].
  destruct (decide (cur = s)); cbn [length]; by rewrite IH.
Qed.

Lemma unheld_sleep d a : unheld (sleep d a) = unheld a.
Proof. done. Qed.

Lemma unheld_change_state s a :
  unheld (change_state clock s a).2 = (change_state clock s (unheld a)).2.
Proof.
  unfold change_state. cbn [unheld current_state].
  case_decide; [|done]. unfold send_state_to_server. cbn.
  by destruct (connected a), (send_raises a).
Qed.

Lemma apply_states_app l1 l2 a :
  apply_states clock (l1 ++ l2) a = apply_states clock l2 (apply_states clock l1 a).
Proof. unfold apply_states. apply foldl_app. Qed.

Lemma unheld_quiet_rounds n : ∀ a,
  unheld (traffic_light_cycle clock (replicate n None) a) =
  apply_states clock (mjoin (replicate n [RED; GREEN; YELLOW])) (unheld a).
Proof.
  induction n as [|n IH]; intros a; [done|].
  cbn [replicate mjoin list_join]. rewrite traffic_light_cycle_cons, IH, cycle_round_quiet.
  rewrite apply_states_app. f_equal.
  unfold normal_cycle, apply_states. cbn [foldl].
  by rewrite !unheld_sleep, !unheld_change_state, !unheld_sleep, !unheld_change_state,
    !unheld_sleep, !unheld_change_state.
Qed.

Lemma apply_states_delivers l : ∀ a, delivers (apply_states clock l a) = delivers a.
Proof.
  induction l as [|s l IH]; intros a; [done|].
  unfold apply_states in *. cbn [foldl]. rewrite IH.
  by destruct (change_state_env s a) as (-> & _).
Qed.

Lemma reports_imap a l : ∀ t,
  reports clock a t l = imap (λ i st, state_update_message a st (clock (t + i))) l.
Proof.
  induction l as [|s l IH]; intros t; [done|].
  cbn [reports imap]. rewrite Nat.add_0_r, IH. f_equal.
  apply imap_ext. intros i st _. cbn. by rewrite Nat.add_succ_r.
Qed.

(** A run of the cycle that applies the states [l] and sleeps in between. *)
Lemma cycle_outbox commands l b :
  unheld (traffic_light_cycle clock commands b) = apply_states clock l (unheld b) →
  delivers b = true →
  delivers (traffic_light_cycle clock commands b) = true ∧
  outbox (traffic_light_cycle clock commands b) =
    outbox b ++
    imap (λ i st, state_update_message b st (clock (time_reads b + i)))
      (changes (current_state b) l).
Proof.
  intros Hun Hd. split.
  - change (delivers (unheld (traffic_light_cycle clock commands b)) = true).
    by rewrite Hun, apply_states_delivers.
  - change (outbox (unheld (traffic_light_cycle clock commands b)) =
            outbox b ++
            imap (λ i st, state_update_message b st (clock (time_reads b + i)))
              (changes (current_state b) l)).
    rewrite Hun, apply_states_outbox.
    change (delivers (unheld b)) with (delivers b). rewrite Hd.
    by rewrite (reports_ext b (unheld b)), reports_imap.
Qed.

Lemma unheld_override_round a c str s :
  is_emergency (Some c) = true →
  get "state" (VStr "RED") c = VStr str →
  state_of_name (upper str) = Some s →
  unheld (cycle_round clock a (Some c)) = (change_state clock s (unheld a)).2.
Proof.
  intros He Hst Hs. unfold cycle_round. rewrite He.
  change (default ∅ (Some c)) with c.
  unfold handle_emergency_override. rewrite Hst, Hs.
  by rewrite unheld_sleep, unheld_change_state.
Qed.

Lemma changes_quiet k :
  changes YELLOW (mjoin (replicate k [RED; GREEN; YELLOW])) =
  mjoin (replicate k [RED; GREEN; YELLOW]).
Proof.
  induction k as [|k IH]; [done|].
  change (mjoin (replicate (S k) [RED; GREEN; YELLOW]))
    with (RED :: GREEN :: YELLOW :: mjoin (replicate k [RED; GREEN; YELLOW])).
  cbn [changes]. rewrite !decide_False by done. by rewrite IH.
Qed.

(** C7: while no command arrives the agent shows RED, GREEN, YELLOW over
    and over, each for its duration, and after a round that handled an
    emergency override forcing the state [s] (held 5 seconds) the rounds
    that follow start again at RED.  What a connected agent reports is one
    state update for each state that differs from the one shown before:
    starting at RED the reported sequence is GREEN, YELLOW, RED, GREEN,
    YELLOW, ..., the first RED not being reported; after the override it
    reports [s] (unless it showed [s] already), then RED (unless [s] is
    RED), then GREEN, YELLOW, ... *)
Theorem cycle_order_resumes_from_red (a : light) (n n' : nat) (c : message)
    (str : string) (s : TrafficLightState) :
  let label := λ st : TrafficLightState,
    match st with RED => "RED" | YELLOW => "YELLOW" | GREEN => "GREEN" end in
  let update := λ (b : light) (i : nat) (st : TrafficLightState),
    ({[ "type" := VStr "state_update";
        "light_id" := VStr (light_id b);
        "intersection" := VStr (intersection_name b);
        "state" := VStr (label st);
        "timestamp" := VNum (clock (time_reads b + i));
        "position" := VPos (position_x b) (position_y b) ]} : message) in
  let dwell := [(RED, 8); (GREEN, 10); (YELLOW, 3)] in
  let quiet := λ k : nat, mjoin (replicate k [RED; GREEN; YELLOW]) in
  let a1 := traffic_light_cycle clock (replicate n None) a in
  let a2 :=
    traffic_light_cycle clock (replicate n None ++ Some c :: replicate n' None) a in
  c !! "type" = Some (VStr "emergency_override") →
  c !! "state" = Some (VStr str) ∨ c !! "state" = None ∧ str = "RED" →
  upper str = label s →
  connected a = true →
  send_raises a = false →
  held a1 = held a ++ mjoin (replicate n dwell) ∧
  outbox a1 = outbox a ++ imap (update a) (changes (current_state a) (quiet n)) ∧
  (∀ k, current_state a = RED → n = S k →
     outbox a1 = outbox a ++ imap (update a) (GREEN :: YELLOW :: quiet k)) ∧
  held a2 =
    held a ++ mjoin (replicate n dwell) ++ [(s, 5)] ++ mjoin (replicate n' dwell) ∧
  outbox a2 =
    outbox a ++
    imap (update a) (changes (current_state a) (quiet n ++ s :: quiet n')) ∧
  (∀ k', n' = S k' →
     outbox a2 =
       outbox a1 ++
       imap (update a1)
         ((if decide (current_state a1 = s) then [] else [s]) ++
          (if decide (s = RED) then [] else [RED]) ++
          GREEN :: YELLOW :: quiet k')).
Proof.
  intros label update dwell quiet a1 a2 Hty Hstate Hup Hconn Hsend.
  assert (is_emergency (Some c) = true) as He.
  { unfold is_emergency, get. rewrite Hty.
    change (default VNone (Some (VStr "emergency_override")))
      with (VStr "emergency_override").
    rewrite (bool_decide_true (VStr _ = VStr _)) by done.
    rewrite bool_decide_true; [done|]. intros ->. by rewrite lookup_empty in Hty. }
  assert (get "state" (VStr "RED") c = VStr str) as Hst.
  { unfold get. by destruct Hstate as [->|[-> ->]]. }
  assert (state_of_name (upper str) = Some s) as Hs.
  { rewrite Hup. by destruct s. }
  assert (delivers a = true) as Hd by (unfold delivers; by rewrite Hconn, Hsend).
  assert (∀ b i st, state_update_message b st (clock (time_reads b + i)) = update b i st)
    as Hupd by (intros b i st; by destruct st).
  assert (∀ b l, imap (λ i st, state_update_message b st (clock (time_reads b + i))) l =
                 imap (update b) l) as Himap.
  { intros b l. apply imap_ext. intros i st _. apply Hupd. }
  assert (unheld a1 = apply_states clock (quiet n) (unheld a)) as Hun1
    by apply unheld_quiet_rounds.
  assert (unheld (traffic_light_cycle clock (Some c :: replicate n' None) a1) =
          apply_states clock (s :: quiet n') (unheld a1)) as Hun2.
  { rewrite traffic_light_cycle_cons, unheld_quiet_rounds.
    by rewrite (unheld_override_round a1 c str s He Hst Hs). }
  assert (a2 = traffic_light_cycle clock (Some c :: replicate n' None) a1) as Ha2
    by apply traffic_light_cycle_app.
  assert (unheld a2 = apply_states clock (quiet n ++ s :: quiet n') (unheld a)) as Hun.
  { by rewrite Ha2, Hun2, Hun1, apply_states_app. }
  destruct (cycle_outbox _ _ a Hun1 Hd) as [Hd1 Hout1].
  destruct (cycle_outbox _ _ a Hun Hd) as [_ Hout].
  destruct (cycle_outbox _ _ a1 Hun2 Hd1) as [_ Hout2].
  fold a1 in Hout1. fold a2 in Hout. rewrite <- Ha2 in Hout2.
  rewrite Himap in Hout1, Hout, Hout2.
  split; [apply quiet_rounds_held|]. split; [exact Hout1|]. split.
  { intros k Hred ->. rewrite Hout1, Hred. do 2 f_equal.
    unfold quiet.
    change (mjoin (replicate (S k) [RED; GREEN; YELLOW]))
      with (RED :: GREEN :: YELLOW :: mjoin (replicate k [RED; GREEN; YELLOW])).
    cbn [changes]. rewrite decide_True by done. rewrite !decide_False by done.
    by rewrite changes_quiet. }
  split.
  { unfold a2. rewrite traffic_light_cycle_app, traffic_light_cycle_cons, quiet_rounds_held.
    fold a1.
    assert (held (cycle_round clock a1 (Some c)) = held a1 ++ [(s, 5)]) as ->.
    { unfold cycle_round. rewrite He. change (default ∅ (Some c)) with c.
      unfold handle_emergency_override. rewrite Hst, Hs. by rewrite sleep_held, change_state_held, change_state_current. }
    unfold a1. rewrite quiet_rounds_held. by rewrite <- !app_assoc. }
  split; [exact Hout|].
  intros k' ->. rewrite Hout2. do 2 f_equal.
  unfold quiet.
  change (mjoin (replicate (S k') [RED; GREEN; YELLOW]))
    with (RED :: GREEN :: YELLOW :: mjoin (replicate k' [RED; GREEN; YELLOW])).
  cbn [changes].
  rewrite !(decide_False (P := RED = GREEN)) by done.
  rewrite !(decide_False (P := GREEN = YELLOW)) by done.
  rewrite changes_quiet.
  by destruct (decide (current_state a1 = s)), (decide (s = RED)).
Qed.

(** C9: [change_state] with the state the agent already shows returns
    False and changes nothing (no field, no message, no clock reading);
    applying the same state twice is applying it once; and
    [state_changes] grows by the number of actual transitions. *)
Theorem change_state_same_state_noop (s : TrafficLightState) (a : light)
    (l : list TrafficLightState) :
  change_state clock (current_state a) a = (false, a) ∧
  change_state clock s (change_state clock s a).2 =
    (false, (change_state clock s a).2) ∧
  (change_state clock s a).1 = bool_decide (current_state a ≠ s) ∧
  state_changes (apply_states clock l a) =
    (state_changes a + transitions (current_state a) l)%nat.
Proof.
  split; [apply change_state_same|]. split.
  - pose proof (change_state_same (change_state clock s a).2) as Hsame.
    by rewrite change_state_current in Hsame.
  - split; [|apply apply_states_count].
    unfold change_state. case_bool_decide; case_decide; simpl; done.
Qed.

End Facts.

Lemma cycle_order_witness :
  held (traffic_light_cycle clock0
          (replicate 1 None ++ Some emergency_green :: replicate 2 None) light0) =
  [(RED, 8); (GREEN, 10); (YELLOW, 3); (GREEN, 5);
   (RED, 8); (GREEN, 10); (YELLOW, 3); (RED, 8); (GREEN, 10); (YELLOW, 3)] ∧
  (λ msg : message, msg !! "state") <$>
    outbox (traffic_light_cycle clock0
              (replicate 1 None ++ Some emergency_green :: replicate 2 None) light0) =
  [Some (VStr "GREEN"); Some (VStr "YELLOW"); Some (VStr "GREEN");
   Some (VStr "RED"); Some (VStr "GREEN"); Some (VStr "YELLOW");
   Some (VStr "RED"); Some (VStr "GREEN"); Some (VStr "YELLOW")].
Proof.
  destruct (cycle_order_resumes_from_red clock0 light0 1 2 emergency_green
              "green" GREEN eq_refl (or_introl eq_refl) eq_refl eq_refl eq_refl)
    as (_ & _ & _ & Hheld & Hout & _).
  split; [exact Hheld|]. rewrite Hout. reflexivity.
Defined.

(** What a connected agent that shows RED reports: over two quiet rounds
    the first message is GREEN, the first RED being the state it already
    shows; and after an override to RED the RED of the next round is not
    reported either. *)
Example reported_states_two_rounds :
  (λ msg : message, msg !! "state") <$>
    outbox (traffic_light_cycle clock0 [None; None] light0) =
  [Some (VStr "GREEN"); Some (VStr "YELLOW"); Some (VStr "RED");
   Some (VStr "GREEN"); Some (VStr "YELLOW")] ∧
  (λ msg : message, msg !! "state") <$>
    outbox (traffic_light_cycle clock0
              [None;
               Some {[ "type" := VStr "emergency_override"; "state" := VStr "RED" ]};
               None] light0) =
  [Some (VStr "GREEN"); Some (VStr "YELLOW"); Some (VStr "RED");
   Some (VStr "GREEN"); Some (VStr "YELLOW")].
Proof. by vm_compute. Qed.

(** An override with a state that is no state name changes nothing, and
    one whose state is no string ends in the handler of the loop, which
    sleeps one second. *)
Example invalid_override_ignored :
  cycle_round clock0 light0
    (Some {[ "type" := VStr "emergency_override"; "state" := VStr "BLUE" ]}) = light0 ∧
  held (cycle_round clock0 light0
    (Some {[ "type" := VStr "emergency_override"; "state" := VNum 1 ]})) = [(RED, 1)].
Proof. by vm_compute. Qed.

End LightSpec.

(** * Properties of the coordinator *)

Module ServerSpec.
Import Server.

(** Reduces setters and projections of [world] where a projection meets a
    setter, and leaves the rest folded. *)
Ltac world_cbn :=
  cbn [set_clients set_client_sockets set_client_locks set_system_state set_stats
       set_active_locks set_clients_lock set_time_reads set_sent set_closed
       set_broken set_timers set_lock_events
       clients client_sockets client_locks system_state stats active_locks
       clients_lock time_reads sent closed broken timers lock_events
       raise_lock lower_lock log_events drop_active add_sent rlock_acquire
       after_acquire fst snd
       emergency_mode sync_in_progress last_sync total_clients
       messages_processed sync_operations emergency_overrides deadlock_preventions
       with_emergency_mode with_sync_in_progress with_last_sync with_total_clients
       incr_messages_processed incr_sync_operations incr_emergency_overrides
       incr_deadlock_preventions].

(** Reduces setters and projections of [world], and nothing else. *)
Ltac world_simpl :=
  lazy beta iota zeta delta
    [set_clients set_client_sockets set_client_locks set_system_state set_stats
     set_active_locks set_clients_lock set_time_reads set_sent set_closed
     set_broken set_timers set_lock_events
     clients client_sockets client_locks system_state stats active_locks
     clients_lock time_reads sent closed broken timers lock_events
     raise_lock lower_lock log_events drop_active add_sent rlock_acquire].

(** ** Sending *)

Lemma add_sent_nil w : add_sent [] w = w.
Proof. destruct w. world_simpl. by rewrite app_nil_r. Qed.

Lemma add_sent_app a b w : add_sent b (add_sent a w) = add_sent (a ++ b) w.
Proof. world_simpl. by rewrite app_assoc. Qed.

Lemma send_to_client_eq client_id msg w :
  (send_to_client client_id msg w).2 = add_sent (send_call client_id msg w) w.
Proof.
  unfold send_to_client, send_call.
  destruct (client_sockets w !! client_id); simpl; [done|].
  by rewrite add_sent_nil.
Qed.

Lemma send_call_add_sent client_id msg new w :
  send_call client_id msg (add_sent new w) = send_call client_id msg w.
Proof. done. Qed.

Lemma foldl_send_to_client msg ids : ∀ w,
  foldl (λ w client_id, (send_to_client client_id msg w).2) w ids =
  add_sent (flat_map (λ client_id, send_call client_id msg w) ids) w.
Proof.
  induction ids as [|i ids IH]; intros w; simpl.
  - by rewrite add_sent_nil.
  - rewrite IH, send_to_client_eq, add_sent_app. f_equal.
Qed.

Lemma rlock_release_acquire w : rlock_release (rlock_acquire w) = Some w.
Proof. by destruct w. Qed.

Lemma with_clients_lock_eq body w :
  body (rlock_acquire w) = rlock_acquire (body w) →
  with_clients_lock body w = body w.
Proof.
  intros H. unfold with_clients_lock. by rewrite H, rlock_release_acquire.
Qed.

Lemma send_calls_of_keys msg w (l : list (string * sock)) :
  (∀ kv, kv ∈ l → client_sockets w !! kv.1 = Some kv.2) →
  flat_map (λ client_id, send_call client_id msg w) l.*1 =
  (λ kv, (kv.2, msg, send_ok kv.2 w)) <$> l.
Proof.
  induction l as [|kv l IH]; intros H; [done|].
  rewrite !fmap_cons. cbn [flat_map].
  rewrite IH by (intros; apply H; by right).
  unfold send_call at 1. by rewrite (H kv) by left.
Qed.

Lemma broadcast_message_eq msg w :
  broadcast_message msg w = add_sent (broadcast_calls msg w) w.
Proof.
  unfold broadcast_message. rewrite with_clients_lock_eq.
  - rewrite foldl_send_to_client. f_equal. apply send_calls_of_keys.
    intros [k v] Hin. by apply elem_of_map_to_list.
  - by rewrite !foldl_send_to_client.
Qed.

(** ** Lock helper *)

Lemma insert_by_key_perm x l : insert_by_key x l ≡ₚ x :: l.
Proof.
  induction l as [|y l IH]; simpl; [done|].
  destruct (lock_key x <=? lock_key y)%nat; [done|].
  rewrite IH. apply Permutation_swap.
Qed.

Lemma sorted_locks_perm l : sorted_locks l ≡ₚ l.
Proof.
  induction l as [|x l IH]; simpl; [done|].
  by rewrite insert_by_key_perm, IH.
Qed.

Lemma insert_by_key_hdrel a x l :
  HdRel key_le a l → key_le a x → HdRel key_le a (insert_by_key x l).
Proof.
  intros Hl Hx. destruct l as [|y l]; simpl; [by constructor|].
  destruct (lock_key x <=? lock_key y)%nat; constructor; [done|].
  by inversion Hl.
Qed.

Lemma insert_by_key_sorted x l :
  Sorted key_le l → Sorted key_le (insert_by_key x l).
Proof.
  induction 1 as [|y l Hs IH Hhd]; simpl; [by repeat constructor|].
  destruct (lock_key x <=? lock_key y)%nat eqn:Hle.
  - apply Nat.leb_le in Hle. by repeat constructor.
  - apply Nat.leb_gt in Hle. constructor; [done|].
    apply insert_by_key_hdrel; [done|]. unfold key_le. lia.
Qed.

Lemma sorted_locks_sorted l : Sorted key_le (sorted_locks l).
Proof.
  induction l as [|x l IH]; simpl; [constructor|].
  by apply insert_by_key_sorted.
Qed.

Lemma log_raise_nil w : log_events [] (raise_lock 0 w) = w.
Proof. destruct w. world_simpl. by rewrite Nat.add_0_r, app_nil_r. Qed.

Lemma log_raise_cons ev (l : list lock_event) (k : nat) w :
  log_events l (raise_lock k (set_lock_events (λ e, e ++ [ev]) (rlock_acquire w))) =
  log_events (ev :: l) (raise_lock (S k) w).
Proof. destruct w. world_simpl. rewrite <- app_assoc. f_equal. lia. Qed.

Lemma release_compose (a b : nat) (s1 s2 : gset string) (e1 e2 : list lock_event) w :
  log_events e2 (drop_active s2 (lower_lock b
    (log_events e1 (drop_active s1 (lower_lock a w))))) =
  log_events (e1 ++ e2) (drop_active (s1 ∪ s2) (lower_lock (a + b) w)).
Proof.
  destruct w. world_simpl.
  f_equal; [apply difference_difference_l_L | lia | by rewrite app_assoc].
Qed.

Lemma release_nothing w : log_events [] (drop_active ∅ (lower_lock 0 w)) = w.
Proof.
  destruct w. world_simpl.
  f_equal; [by rewrite difference_empty_L | lia | apply app_nil_r].
Qed.

Lemma acquired_of_cons fail_at x names :
  acquired_of (Some (S fail_at)) (x :: names) =
    (if decide (x = "clients_lock") then [x] else []) ++ acquired_of (Some fail_at) names ∧
  acquired_of None (x :: names) =
    (if decide (x = "clients_lock") then [x] else []) ++ acquired_of None names.
Proof.
  unfold acquired_of. cbn [visited take]. rewrite !filter_cons.
  by case_decide.
Qed.

(** The acquisition loop in closed form. *)
Lemma acquire_loop_eq names : ∀ fail_at acquired w,
  acquire_loop fail_at names acquired w =
  (completes fail_at names, acquired ++ acquired_of fail_at names,
   log_events (EvAcquire <$> acquired_of fail_at names)
     (raise_lock (length (acquired_of fail_at names)) w)).
Proof.
  assert (∀ fail_at, acquired_of fail_at [] = []) as Hnil.
  { by intros [[|k]|]. }
  assert (∀ names, acquired_of (Some O) names = []) as Hzero.
  { done. }
  induction names as [|x names IH]; intros fail_at acquired w.
  - rewrite Hnil. cbn [fmap list_fmap length]. rewrite app_nil_r, log_raise_nil.
    by destruct fail_at as [[|k]|].
  - destruct fail_at as [[|k]|]; cbn [acquire_loop fmap option_fmap option_map Nat.pred].
    + rewrite Hzero. cbn [fmap list_fmap length]. by rewrite app_nil_r, log_raise_nil.
    + rewrite (proj1 (acquired_of_cons k x names)).
      destruct (String.eqb_spec x "system_lock") as [->|Hs].
      { rewrite decide_False by done. apply (IH (Some k)). }
      destruct (String.eqb_spec x "clients_lock") as [->|Hc].
      { rewrite decide_True by done. rewrite (IH (Some k)), log_raise_cons.
        by rewrite <- app_assoc. }
      rewrite decide_False by done.
      destruct (String.eqb x "message_lock"); apply (IH (Some k)).
    + rewrite (proj2 (acquired_of_cons 0 x names)).
      destruct (String.eqb_spec x "system_lock") as [->|Hs].
      { rewrite decide_False by done. apply (IH None). }
      destruct (String.eqb_spec x "clients_lock") as [->|Hc].
      { rewrite decide_True by done. rewrite (IH None), log_raise_cons.
        by rewrite <- app_assoc. }
      rewrite decide_False by done.
      destruct (String.eqb x "message_lock"); apply (IH None).
Qed.

Lemma release_one_eq x w :
  release_one x w =
  let b := if decide (x = "clients_lock" ∧ clients_lock w ≠ 0%nat) then 1%nat else 0%nat in
  log_events (replicate b (EvRelease "clients_lock"))
    (drop_active {[x]} (lower_lock b w)).
Proof.
  unfold release_one. cbn zeta.
  destruct (String.eqb_spec x "clients_lock") as [->|Hc].
  - unfold rlock_release.
    destruct w as [? ? ? ? ? ? [|n] ? ? ? ? ? ?]; world_simpl.
    + rewrite decide_False by (by intros [_ ?]). cbn [replicate]. world_simpl.
      by rewrite app_nil_r.
    + rewrite decide_True by done. cbn [replicate]. world_simpl. f_equal. lia.
  - rewrite decide_False by (by intros [? _]). destruct w. cbn [replicate].
    world_simpl. rewrite app_nil_r. f_equal. lia.
Qed.

(** Releasing while the lock is held. *)
Lemma release_one_held w :
  clients_lock w ≠ 0%nat →
  release_one "clients_lock" w =
  log_events [EvRelease "clients_lock"]
    (drop_active {["clients_lock"]} (lower_lock 1 w)).
Proof. intros Hl. rewrite release_one_eq. cbn zeta. by rewrite decide_True. Qed.

(** The releases that succeed: as many as the lock is held, at most. *)
Lemma release_each_eq l : ∀ w,
  let j := (length (filter (λ x, x = "clients_lock") l) `min` clients_lock w)%nat in
  foldl (λ w lock_name, release_one lock_name w) w l =
  log_events (replicate j (EvRelease "clients_lock"))
    (drop_active (list_to_set l) (lower_lock j w)).
Proof.
  induction l as [|x l IH]; intros w; cbn zeta.
  - cbn [foldl]. rewrite filter_nil. cbn [length Nat.min replicate].
    by rewrite list_to_set_nil, release_nothing.
  - cbn [foldl]. rewrite IH, release_one_eq. cbn zeta. rewrite release_compose.
    rewrite <- replicate_add, list_to_set_cons, filter_cons.
    assert (∀ b, clients_lock
                   (log_events (replicate b (EvRelease "clients_lock"))
                      (drop_active {[x]} (lower_lock b w))) =
                 (clients_lock w - b)%nat) as Hlevel by done.
    rewrite Hlevel.
    assert (∀ a b : nat, a = b →
      log_events (replicate a (EvRelease "clients_lock"))
        (drop_active ({[x]} ∪ list_to_set l) (lower_lock a w)) =
      log_events (replicate b (EvRelease "clients_lock"))
        (drop_active ({[x]} ∪ list_to_set l) (lower_lock b w))) as Heq by (by intros ? ? ->).
    apply Heq.
    destruct (decide (x = "clients_lock")) as [->|Hx].
    + destruct (decide (clients_lock w = 0%nat)) as [Hz|Hz].
      * rewrite decide_False by (by intros [_ ?]). cbn [length]. lia.
      * rewrite decide_True by done. cbn [length]. lia.
    + rewrite decide_False by (by intros [? _]). lia.
Qed.

Lemma acquired_of_all_clients_lock fail_at names :
  Forall (λ x, x = "clients_lock") (acquired_of fail_at names).
Proof.
  unfold acquired_of. apply Forall_forall. intros x Hx.
  by apply list_elem_of_filter in Hx as [? _].
Qed.

Lemma acquired_of_replicate fail_at names :
  acquired_of fail_at names =
  replicate (length (acquired_of fail_at names)) "clients_lock".
Proof.
  symmetry. apply replicate_as_Forall. split; [done|].
  eapply Forall_impl; [apply acquired_of_all_clients_lock|]. by intros x ->.
Qed.

Lemma filter_all {A} (P : A → Prop) `{∀ x, Decision (P x)} (l : list A) :
  Forall P l → filter P l = l.
Proof.
  induction 1 as [|x l Hx _ IH]; [done|].
  by rewrite filter_cons, decide_True, IH.
Qed.

Lemma release_locks_eq names w :
  let j := (length (filter (λ x, x = "clients_lock") names) `min` clients_lock w)%nat in
  release_locks names w =
  log_events (replicate j (EvRelease "clients_lock"))
    (drop_active (list_to_set (rev names)) (lower_lock j w)).
Proof.
  cbn zeta. unfold release_locks. rewrite release_each_eq. cbn zeta.
  assert (length (filter (λ x, x = "clients_lock") (rev names)) =
          length (filter (λ x, x = "clients_lock") names)) as ->; [|done].
  apply Permutation_length, filter_Permutation. symmetry. apply Permutation_rev.
Qed.

(** Releasing [k] times a lock that is held [k] times at least. *)
Lemma release_locks_replicate (k : nat) w :
  (k ≤ clients_lock w)%nat →
  release_locks (replicate k "clients_lock") w =
  log_events (replicate k (EvRelease "clients_lock"))
    (drop_active (list_to_set (replicate k "clients_lock")) (lower_lock k w)).
Proof.
  intros Hk. rewrite release_locks_eq. cbn zeta.
  rewrite filter_all by (by apply Forall_replicate).
  rewrite length_replicate, Nat.min_l by done.
  assert (rev (replicate k "clients_lock") = replicate k "clients_lock") as ->; [|done].
  symmetry. apply replicate_as_Forall.
  split; [by rewrite length_rev, length_replicate|].
  apply Forall_rev, Forall_replicate_eq.
Qed.

(** ** The order of the names *)

Lemma lock_key_other x :
  x ≠ "system_lock" → x ≠ "clients_lock" → x ≠ "message_lock" → lock_key x = 999%nat.
Proof.
  intros Hs Hc Hm. unfold lock_key, resource_order. cbn [index].
  destruct (String.eqb_spec x "system_lock"); [done|].
  destruct (String.eqb_spec x "clients_lock"); [done|].
  by destruct (String.eqb_spec x "message_lock").
Qed.

Lemma insert_by_key_skip x G R :
  Forall (λ y, (lock_key y < lock_key x)%nat) G →
  insert_by_key x (G ++ R) = G ++ insert_by_key x R.
Proof.
  induction 1 as [|y G Hy _ IH]; [done|]. cbn [app insert_by_key].
  destruct (Nat.leb_spec (lock_key x) (lock_key y)); [lia|]. by rewrite IH.
Qed.

Lemma insert_by_key_here x R :
  Forall (λ y, (lock_key x ≤ lock_key y)%nat) R → insert_by_key x R = x :: R.
Proof.
  intros HR. destruct R as [|y R]; [done|]. apply Forall_inv in HR.
  cbn [insert_by_key]. by destruct (Nat.leb_spec (lock_key x) (lock_key y)); [|lia].
Qed.

Lemma key_of_filter (P : string → Prop) `{∀ x, Decision (P x)} (Q : string → Prop)
    (l : list string) :
  (∀ y, P y → Q y) → Forall Q (filter P l).
Proof.
  intros HPQ. apply Forall_forall. intros y Hy.
  apply list_elem_of_filter in Hy as [Hy _]. by apply HPQ.
Qed.

(** The sort of [acquire_locks_in_order] written out: the occurrences of
    ['system_lock'], then those of ['clients_lock'], then those of
    ['message_lock'], then the other names in the order of the request. *)
Lemma sorted_locks_grouped l :
  sorted_locks l =
  filter (λ x, x = "system_lock") l ++
  filter (λ x, x = "clients_lock") l ++
  filter (λ x, x = "message_lock") l ++
  filter (λ x, x ≠ "system_lock" ∧ x ≠ "clients_lock" ∧ x ≠ "message_lock") l.
Proof.
  induction l as [|x l IH]; [done|].
  cbn [sorted_locks foldr]. fold (sorted_locks l). rewrite IH. clear IH.
  rewrite !filter_cons.
  set (F0 := filter (λ x, x = "system_lock") l).
  set (F1 := filter (λ x, x = "clients_lock") l).
  set (F2 := filter (λ x, x = "message_lock") l).
  set (F3 := filter (λ x, x ≠ "system_lock" ∧ x ≠ "clients_lock" ∧ x ≠ "message_lock") l).
  assert (Forall (λ y, lock_key y = 0%nat) F0) as H0.
  { apply key_of_filter. by intros y ->. }
  assert (Forall (λ y, lock_key y = 1%nat) F1) as H1.
  { apply key_of_filter. by intros y ->. }
  assert (Forall (λ y, lock_key y = 2%nat) F2) as H2.
  { apply key_of_filter. by intros y ->. }
  assert (Forall (λ y, lock_key y = 999%nat) F3) as H3.
  { apply key_of_filter. intros y (?&?&?). by apply lock_key_other. }
  assert (∃ kx, lock_key x = kx) as [kx Hx] by (by eexists).
  assert (∀ (G : list string) (n : nat), Forall (λ y, lock_key y = n) G →
            (n < kx)%nat → Forall (λ y, (lock_key y < lock_key x)%nat) G) as Hlt.
  { intros G n HG Hn. eapply Forall_impl; [exact HG|]. intros y Hy.
    change (lock_key y = n) in Hy. change (lock_key y < lock_key x)%nat. lia. }
  assert (∀ (G : list string) (n : nat), Forall (λ y, lock_key y = n) G →
            (kx ≤ n)%nat → Forall (λ y, (lock_key x ≤ lock_key y)%nat) G) as Hle.
  { intros G n HG Hn. eapply Forall_impl; [exact HG|]. intros y Hy.
    change (lock_key y = n) in Hy. change (lock_key x ≤ lock_key y)%nat. lia. }
  destruct (decide (x = "system_lock")) as [Hs|Hs].
  { assert (kx = 0%nat) as -> by (by rewrite <- Hx, Hs).
    rewrite (decide_False (P := x = "clients_lock")) by (by rewrite Hs).
    rewrite (decide_False (P := x = "message_lock")) by (by rewrite Hs).
    rewrite decide_False by (by intros (?&?&?)).
    apply insert_by_key_here.
    repeat (apply Forall_app; split);
      [by apply (Hle _ 0%nat) | by apply (Hle _ 1%nat); [|lia]
      | by apply (Hle _ 2%nat); [|lia] | by apply (Hle _ 999%nat); [|lia]]. }
  destruct (decide (x = "clients_lock")) as [Hc|Hc].
  { assert (kx = 1%nat) as -> by (by rewrite <- Hx, Hc).
    rewrite (decide_False (P := x = "message_lock")) by (by rewrite Hc).
    rewrite decide_False by (by intros (?&?&?)).
    rewrite insert_by_key_skip by (by apply (Hlt _ 0%nat); [|lia]).
    rewrite insert_by_key_here; [done|].
    repeat (apply Forall_app; split);
      [by apply (Hle _ 1%nat) | by apply (Hle _ 2%nat); [|lia]
      | by apply (Hle _ 999%nat); [|lia]]. }
  destruct (decide (x = "message_lock")) as [Hm|Hm].
  { assert (kx = 2%nat) as -> by (by rewrite <- Hx, Hm).
    rewrite decide_False by (by intros (?&?&?)).
    rewrite insert_by_key_skip by (by apply (Hlt _ 0%nat); [|lia]).
    rewrite insert_by_key_skip by (by apply (Hlt _ 1%nat); [|lia]).
    rewrite insert_by_key_here; [done|].
    repeat (apply Forall_app; split);
      [by apply (Hle _ 2%nat) | by apply (Hle _ 999%nat); [|lia]]. }
  assert (kx = 999%nat) as -> by (by rewrite <- Hx, lock_key_other).
  rewrite decide_True by done.
  rewrite insert_by_key_skip by (by apply (Hlt _ 0%nat); [|lia]).
  rewrite insert_by_key_skip by (by apply (Hlt _ 1%nat); [|lia]).
  rewrite insert_by_key_skip by (by apply (Hlt _ 2%nat); [|lia]).
  rewrite insert_by_key_here; [done|]. by apply (Hle _ 999%nat).
Qed.

Lemma acquired_of_sublist fail_at names : acquired_of fail_at names `sublist_of` names.
Proof.
  unfold acquired_of. etrans; [apply sublist_filter|].
  destruct fail_at; simpl; [apply sublist_take | done].
Qed.

(** C3: the helper goes through the requested names in the fixed global
    order, written out here: the occurrences of system_lock, then those of
    clients_lock, then those of message_lock, then the names outside the
    order.  Only clients_lock is a lock: the acquisition that runs to its
    end has taken it once for each occurrence, [k] times, and the body runs
    with the lock held [k] times more than before; an acquisition that
    raises at some iteration has released what it had taken.  Whichever way
    the scoped section ends (the acquisition raises, the body raises, or all
    goes well) the lock is back at the level it had before, after [k]
    acquisitions followed by [k] releases, for every body that does not
    itself touch the lock.  [release_locks] releases the lock once for each
    occurrence of clients_lock, as far as it is held, and drops every name
    it is given from [active_locks]. *)
Theorem locks_ordered_and_released_on_all_paths {A : Type} (fail_at : option nat)
    (lock_names : list string) (body : world → exc A * world) (w : world) :
  (∀ w0, clients_lock (body w0).2 = clients_lock w0 ∧
         lock_events (body w0).2 = lock_events w0) →
  let names := sorted_locks lock_names in
  let k := length (filter (λ x, x = "clients_lock") (visited fail_at names)) in
  let a := acquire_locks_in_order fail_at lock_names w in
  let r := locked fail_at lock_names body w in
  names =
    filter (λ x, x = "system_lock") lock_names ++
    filter (λ x, x = "clients_lock") lock_names ++
    filter (λ x, x = "message_lock") lock_names ++
    filter (λ x, x ≠ "system_lock" ∧ x ≠ "clients_lock" ∧ x ≠ "message_lock")
      lock_names ∧
  (fail_at = None →
     k = length (filter (λ x, x = "clients_lock") lock_names) ∧
     completes fail_at names = true) ∧
  (completes fail_at names = true →
     a.1 = Ok (replicate k "clients_lock") ∧
     clients_lock a.2 = (clients_lock w + k)%nat ∧
     lock_events a.2 = lock_events w ++ replicate k (EvAcquire "clients_lock") ∧
     r = ((body a.2).1, release_locks (replicate k "clients_lock") (body a.2).2)) ∧
  (completes fail_at names = false →
     a.1 = Raise "Exception" ∧ r = (Raise "Exception", a.2)) ∧
  lock_events r.2 =
    lock_events w ++ replicate k (EvAcquire "clients_lock") ++
    replicate k (EvRelease "clients_lock") ∧
  clients_lock r.2 = clients_lock w ∧
  (∀ l w0,
     let j := (length (filter (λ x, x = "clients_lock") l) `min` clients_lock w0)%nat in
     clients_lock (release_locks l w0) = (clients_lock w0 - j)%nat ∧
     lock_events (release_locks l w0) =
       lock_events w0 ++ replicate j (EvRelease "clients_lock") ∧
     active_locks (release_locks l w0) = active_locks w0 ∖ list_to_set (rev l)).
Proof.
  intros Hbody names k a r.
  split; [apply sorted_locks_grouped|].
  split.
  { intros ->. split; [|done]. subst k. cbn [visited]. subst names.
    apply Permutation_length, filter_Permutation, sorted_locks_perm. }
  assert (acquired_of fail_at names = replicate k "clients_lock") as Hacq.
  { rewrite acquired_of_replicate. done. }
  assert (∀ l w0,
     let j := (length (filter (λ x, x = "clients_lock") l) `min` clients_lock w0)%nat in
     clients_lock (release_locks l w0) = (clients_lock w0 - j)%nat ∧
     lock_events (release_locks l w0) =
       lock_events w0 ++ replicate j (EvRelease "clients_lock") ∧
     active_locks (release_locks l w0) = active_locks w0 ∖ list_to_set (rev l)) as Hrel.
  { intros l w0. cbn zeta. by rewrite release_locks_eq. }
  subst a r. unfold locked, acquire_locks_in_order. fold names.
  rewrite acquire_loop_eq, app_nil_l, Hacq, fmap_replicate, length_replicate.
  destruct (completes fail_at names) eqn:Hok.
  - cbn [fst snd].
    set (w1 := set_stats incr_deadlock_preventions _).
    assert (clients_lock w1 = (clients_lock w + k)%nat ∧
            lock_events w1 = lock_events w ++ replicate k (EvAcquire "clients_lock"))
      as [Hl1 He1] by done.
    destruct (Hbody w1) as [Hl He].
    destruct (body w1) as [res w2] eqn:Hb. cbn [fst snd] in *.
    split; [done|]. split; [done|].
    rewrite release_locks_replicate by lia. world_cbn.
    rewrite Hl, He, Hl1, He1, <- app_assoc.
    split; [done|]. split; [lia|exact Hrel].
  - cbn [fst snd]. split; [done|]. split; [done|].
    rewrite release_locks_replicate by (world_cbn; lia). world_cbn.
    rewrite <- app_assoc. split; [done|]. split; [lia|exact Hrel].
Qed.

(** ** Synchronisation *)

Section Sync.

Variable clock : nat → Z.

Lemma trigger_busy w :
  sync_in_progress (system_state w) = true → trigger_synchronization clock w = w.
Proof. intros H. unfold trigger_synchronization. by rewrite H. Qed.

Lemma trigger_idle w :
  sync_in_progress (system_state w) = false →
  trigger_synchronization clock w =
  mk_world (clients w) (client_sockets w) (client_locks w)
    (mk_system_state (emergency_mode (system_state w)) true (clock (time_reads w))
       (total_clients (system_state w)))
    (incr_sync_operations (stats w)) (active_locks w) (clients_lock w)
    (S (S (time_reads w)))
    (sent w ++ broadcast_calls (sync_message (clock (S (time_reads w)))) w)
    (closed w) (broken w) (timers w ++ [(5, cb_complete_synchronization)])
    (lock_events w).
Proof.
  intros H. unfold trigger_synchronization. rewrite H.
  destruct w. simpl. by rewrite broadcast_message_eq.
Qed.

Lemma periodic_sync_round_busy w :
  sync_in_progress (system_state w) = true → periodic_sync_round clock w = w.
Proof. intros H. unfold periodic_sync_round, should_sync_clients. by rewrite H. Qed.

Lemma periodic_sync_round_idle w :
  sync_in_progress (system_state w) = false →
  periodic_sync_round clock w =
  if bool_decide (clock (time_reads w) - last_sync (system_state w) > 30)
  then trigger_synchronization clock (set_time_reads S w)
  else set_time_reads S w.
Proof. intros H. unfold periodic_sync_round, should_sync_clients. by rewrite H. Qed.

(** ** Registry *)

Lemma register_client_eq client_id m client_socket address w :
  register_client clock client_id m client_socket address w =
  let info := registered_info client_id m client_socket address (clock (time_reads w)) in
  mk_world (<[client_id := info]> (clients w))
    (<[client_id := client_socket]> (client_sockets w))
    ({[client_id]} ∪ client_locks w)
    (with_total_clients (size (<[client_id := info]> (clients w))) (system_state w))
    (stats w) (active_locks w) (clients_lock w) (S (S (time_reads w)))
    (sent w ++ [(client_socket,
                 registration_confirmed client_id (clock (S (time_reads w))),
                 send_ok client_socket w)])
    (closed w) (broken w) (timers w) (lock_events w).
Proof.
  unfold register_client. cbn [time_time].
  rewrite send_to_client_eq. unfold send_call. cbn.
  by rewrite lookup_insert_eq.
Qed.

Lemma update_client_state_none client_id m w :
  clients w !! client_id = None → update_client_state clock client_id m w = w.
Proof. intros H. unfold update_client_state. by rewrite H. Qed.

Lemma update_client_state_some client_id m w info :
  clients w !! client_id = Some info →
  update_client_state clock client_id m w =
  periodic_sync_round clock
    (set_clients (insert client_id (updated_info info m (clock (time_reads w))))
       (set_time_reads S w)).
Proof. intros H. unfold update_client_state. by rewrite H. Qed.

Lemma remove_client_eq client_id w :
  remove_client client_id w =
  match clients w !! client_id with
  | None => w
  | Some _ =>
      mk_world (delete client_id (clients w)) (delete client_id (client_sockets w))
        (client_locks w ∖ {[client_id]})
        (with_total_clients (size (delete client_id (clients w))) (system_state w))
        (stats w) (active_locks w) (clients_lock w) (time_reads w) (sent w)
        (closed w) (broken w) (timers w) (lock_events w)
  end.
Proof.
  unfold remove_client. rewrite with_clients_lock_eq.
  - by destruct (clients w !! client_id).
  - cbn. by destruct (clients w !! client_id).
Qed.

(** ** What the handlers leave alone *)

Lemma handler_frame_refl w : handler_frame w w.
Proof. by repeat split. Qed.

Lemma handler_frame_trans w1 w2 w3 :
  handler_frame w1 w2 → handler_frame w2 w3 → handler_frame w1 w3.
Proof.
  unfold handler_frame. intros H1 H2.
  destruct H1 as (?&?&?&?&?&?&?&?&?), H2 as (?&?&?&?&?&?&?&?&?).
  repeat split; congruence.
Qed.

Lemma trigger_frame w : handler_frame w (trigger_synchronization clock w).
Proof.
  destruct (sync_in_progress (system_state w)) eqn:H.
  - rewrite trigger_busy by done. apply handler_frame_refl.
  - rewrite trigger_idle by done. by repeat split.
Qed.

Lemma periodic_sync_round_frame w : handler_frame w (periodic_sync_round clock w).
Proof.
  destruct (sync_in_progress (system_state w)) eqn:H.
  - rewrite periodic_sync_round_busy by done. apply handler_frame_refl.
  - rewrite periodic_sync_round_idle by done. case_bool_decide.
    + eapply handler_frame_trans; [|apply trigger_frame]. by repeat split.
    + by repeat split.
Qed.

Lemma register_client_frame client_id m client_socket address w :
  handler_frame w (register_client clock client_id m client_socket address w).
Proof. rewrite register_client_eq. by repeat split. Qed.

Lemma update_client_state_frame client_id m w :
  handler_frame w (update_client_state clock client_id m w).
Proof.
  destruct (clients w !! client_id) as [info|] eqn:H.
  - rewrite (update_client_state_some _ _ _ _ H).
    eapply handler_frame_trans; [|apply periodic_sync_round_frame]. by repeat split.
  - rewrite update_client_state_none by done. apply handler_frame_refl.
Qed.

Lemma update_client_heartbeat_frame client_id w :
  handler_frame w (update_client_heartbeat clock client_id w).
Proof.
  unfold update_client_heartbeat.
  destruct (clients w !! client_id); [by repeat split | apply handler_frame_refl].
Qed.

(** ** Emergency override *)

Lemma foldl_scoped_send msg target (l : list (string * client_info)) : ∀ w,
  foldl (λ w kv, if decide (ci_intersection kv.2 = target)
                 then (send_to_client kv.1 msg w).2 else w) w l =
  add_sent (flat_map (λ kv, if decide (ci_intersection kv.2 = target)
                            then send_call kv.1 msg w else []) l) w.
Proof.
  induction l as [|kv l IH]; intros w; cbn [foldl flat_map].
  - by rewrite add_sent_nil.
  - rewrite IH. case_decide.
    + by rewrite send_to_client_eq, add_sent_app.
    + done.
Qed.

Lemma emergency_override_eq target emergency_state w :
  emergency_override clock target emergency_state w =
  let msg := emergency_message target emergency_state (clock (time_reads w)) in
  mk_world (clients w) (client_sockets w) (client_locks w)
    (with_emergency_mode true (system_state w)) (incr_emergency_overrides (stats w))
    (active_locks w) (clients_lock w) (S (time_reads w))
    (sent w ++ (if truthy_target target
                then scoped_calls (target_value target) msg w
                else broadcast_calls msg w))
    (closed w) (broken w) (timers w) (lock_events w).
Proof.
  unfold emergency_override. cbn [time_time]. destruct (truthy_target target).
  - rewrite with_clients_lock_eq.
    + by rewrite foldl_scoped_send.
    + by rewrite !foldl_scoped_send.
  - by rewrite broadcast_message_eq.
Qed.

Lemma scoped_calls_elem target msg w call :
  call ∈ scoped_calls target msg w ↔
  ∃ client_id info s,
    clients w !! client_id = Some info ∧ ci_intersection info = target ∧
    client_sockets w !! client_id = Some s ∧ call = (s, msg, send_ok s w).
Proof.
  unfold scoped_calls. rewrite list_elem_of_In, in_flat_map. split.
  - intros ([k info] & Hin & Hcall). apply list_elem_of_In in Hin.
    apply elem_of_map_to_list in Hin. cbn in Hcall.
    case_decide as Ht; [|by destruct Hcall].
    unfold send_call in Hcall. destruct (client_sockets w !! k) as [s|] eqn:Hs;
      [|by destruct Hcall].
    destruct Hcall as [<-|[]]. by exists k, info, s.
  - intros (k & info & s & Hc & Ht & Hs & ->).
    exists (k, info). split.
    + apply list_elem_of_In. by apply elem_of_map_to_list.
    + cbn. rewrite decide_True by done. unfold send_call. rewrite Hs. by left.
Qed.

Lemma broadcast_calls_elem msg w call :
  call ∈ broadcast_calls msg w ↔
  ∃ client_id s, client_sockets w !! client_id = Some s ∧ call = (s, msg, send_ok s w).
Proof.
  unfold broadcast_calls. rewrite list_elem_of_fmap. split.
  - intros ([k s] & -> & Hin). apply elem_of_map_to_list in Hin. by exists k, s.
  - intros (k & s & Hs & ->). exists (k, s). split; [done|].
    by apply elem_of_map_to_list.
Qed.

Lemma scoped_calls_sent (P : string * client_info → Prop) `{∀ kv, Decision (P kv)}
    (msg : message) w (l : list (string * client_info)) :
  fst <$> flat_map (λ kv, if decide (P kv) then send_call kv.1 msg w else []) l =
  omap (λ kv, if decide (P kv)
              then (λ client_socket, (client_socket, msg)) <$> client_sockets w !! kv.1
              else None) l.
Proof.
  induction l as [|kv l IH]; [done|]. cbn [flat_map omap list_omap].
  rewrite fmap_app, IH. case_decide; [|done].
  unfold send_call. by destruct (client_sockets w !! kv.1).
Qed.

(** C5, as the code has it: an emergency override sets [emergency_mode],
    adds one to the counter, and calls [send] with the emergency_override
    message, which carries the commanded state; when the target is a
    non-empty string the calls are one for each session of that
    intersection and none for any other session; when there is no target,
    or the target is the empty string, they are one for each stored
    connection. *)
Theorem emergency_override_scope (target : option string) (emergency_state : string)
    (w : world) :
  let w' := emergency_override clock target emergency_state w in
  let msg : message :=
    {[ "type" := VStr "emergency_override";
       "state" := VStr emergency_state;
       "timestamp" := VNum (clock (time_reads w));
       "target_intersection" :=
         match target with Some s => VStr s | None => VNone end ]} in
  emergency_mode (system_state w') = true ∧
  emergency_overrides (stats w') = S (emergency_overrides (stats w)) ∧
  ∃ new, sent w' = sent w ++ new ∧
    (∀ s, target = Some s → s ≠ "" →
       fst <$> new ≡ₚ
         omap (λ kv : string * client_info,
                 if decide (ci_intersection kv.2 = VStr s)
                 then (λ client_socket, (client_socket, msg)) <$>
                        client_sockets w !! kv.1
                 else None)
           (map_to_list (clients w)) ∧
       ∀ client_socket m, (client_socket, m) ∈ fst <$> new ↔
         m = msg ∧
         ∃ client_id info,
           clients w !! client_id = Some info ∧ ci_intersection info = VStr s ∧
           client_sockets w !! client_id = Some client_socket) ∧
    (target = None ∨ target = Some "" →
       fst <$> new ≡ₚ
         (λ kv : string * sock, (kv.2, msg)) <$> map_to_list (client_sockets w)).
Proof.
  intros w' msg. subst w'. rewrite emergency_override_eq. cbn zeta.
  change (emergency_message target emergency_state (clock (time_reads w))) with msg.
  generalize msg. clear msg. intros msg. world_cbn.
  split; [done|]. split; [done|]. eexists. split; [done|]. split.
  - intros s -> Hs.
    assert (truthy_target (Some s) = true) as -> by (by destruct s).
    cbn [target_value]. unfold scoped_calls. split.
    + by rewrite (scoped_calls_sent (λ kv, ci_intersection kv.2 = VStr s)).
    + intros client_socket m. rewrite list_elem_of_fmap. split.
      * intros ([[s0 m0] ok] & [= -> ->] & Hin).
        apply (scoped_calls_elem (VStr s) msg w) in Hin
          as (cid & info & s1 & Hc & Hi & Hso & [= -> -> _]).
        split; [done|]. by exists cid, info.
      * intros (-> & cid & info & Hc & Hi & Hso).
        exists (client_socket, msg, send_ok client_socket w). split; [done|].
        apply (scoped_calls_elem (VStr s) msg w). by exists cid, info, client_socket.
  - intros Ht.
    assert (truthy_target target = false) as -> by (by destruct Ht as [->| ->]).
    unfold broadcast_calls. by rewrite <- list_fmap_compose.
Qed.

Lemma trigger_enter_eq w :
  trigger_enter clock w =
  mk_world (clients w) (client_sockets w) (client_locks w)
    (mk_system_state (emergency_mode (system_state w)) true (clock (time_reads w))
       (total_clients (system_state w)))
    (incr_sync_operations (stats w)) (active_locks w) (clients_lock w)
    (S (S (time_reads w)))
    (sent w ++ broadcast_calls (sync_message (clock (S (time_reads w)))) w)
    (closed w) (broken w) (timers w ++ [(5, cb_complete_synchronization)])
    (lock_events w).
Proof.
  unfold trigger_enter. destruct w. simpl. by rewrite broadcast_message_eq.
Qed.

(** The method is its test followed by the rest. *)
Lemma trigger_synchronization_split w :
  trigger_synchronization clock w =
  if trigger_test w then trigger_enter clock w else w.
Proof.
  unfold trigger_synchronization, trigger_test, trigger_enter.
  by destruct (sync_in_progress (system_state w)).
Qed.

Lemma broadcast_calls_sent (msg : message) w :
  fst <$> broadcast_calls msg w =
  (λ kv : string * sock, (kv.2, msg)) <$> map_to_list (client_sockets w).
Proof. unfold broadcast_calls. by rewrite <- list_fmap_compose. Qed.

(** Two callers that both test before either goes on both go on. *)
Lemma trigger_sched_race w :
  trigger_test w = true →
  (trigger_sched clock [tr_test 1; tr_test 2; tr_enter 1; tr_enter 2] w).1 =
  trigger_enter clock (trigger_enter clock w).
Proof.
  intros Htest. unfold trigger_sched. cbn [foldl trigger_sched_step fst snd].
  rewrite Htest. cbn [fst snd]. rewrite Htest. cbn [fst snd].
  generalize (trigger_enter clock w). intros w1.
  destruct (decide (1%nat ∈ ({[2%nat]} ∪ ({[1%nat]} ∪ ∅) : gset nat))) as [_|Hn];
    [|destruct Hn; set_solver].
  cbn [fst snd]. generalize (trigger_enter clock w1). intros w2.
  destruct (decide (2%nat ∈ (({[2%nat]} ∪ ({[1%nat]} ∪ ∅)) ∖ {[1%nat]} : gset nat)))
    as [_|Hn]; [done|destruct Hn; set_solver].
Qed.

(** A caller that tests after the other has gone on returns at once. *)
Lemma trigger_sched_serial w :
  trigger_test w = true →
  trigger_test (trigger_enter clock w) = false →
  trigger_sched clock [tr_test 1; tr_enter 1; tr_test 2; tr_enter 2] w =
  (trigger_enter clock w, ∅).
Proof.
  intros Htest Hbusy. unfold trigger_sched. cbn [foldl trigger_sched_step fst snd].
  rewrite Htest. cbn [fst snd].
  destruct (decide (1%nat ∈ ({[1%nat]} ∪ ∅ : gset nat))) as [_|Hn];
    [|destruct Hn; set_solver].
  cbn [fst snd]. rewrite Hbusy. revert Hbusy. generalize (trigger_enter clock w).
  intros w1 _.
  destruct (decide (2%nat ∈ (({[1%nat]} ∪ ∅) ∖ {[1%nat]} : gset nat))) as [Hin|_];
    [set_solver|].
  f_equal; set_solver.
Qed.

(** C4: a trigger while a synchronisation is in progress changes nothing;
    a trigger from the idle state stamps [last_sync] with the clock, counts
    one operation, calls [send] with one sync_request for every stored
    connection and starts one timer of 5 seconds whose target puts
    [sync_in_progress] back to false; further triggers made one after the
    other before that timer fires send nothing.  But the test and the set
    of [sync_in_progress] are two steps under no lock: when two callers
    both test before either goes on, both broadcast and both start a
    timer, so the window has two sync_request broadcasts. *)
Theorem trigger_synchronization_once_per_window (w : world) (k : nat) :
  sync_in_progress (system_state w) = false →
  let sync_request (t : Z) : message :=
    {[ "type" := VStr "sync_request"; "timestamp" := VNum t;
       "server_id" := VStr "SIGET_CENTRAL" ]} in
  let to_all (m : message) :=
    (λ kv : string * sock, (kv.2, m)) <$> map_to_list (client_sockets w) in
  let w1 := trigger_synchronization clock w in
  let w2 :=
    (trigger_sched clock [tr_test 1; tr_test 2; tr_enter 1; tr_enter 2] w).1 in
  sync_in_progress (system_state w1) = true ∧
  last_sync (system_state w1) = clock (time_reads w) ∧
  sync_operations (stats w1) = S (sync_operations (stats w)) ∧
  (∃ new, sent w1 = sent w ++ new ∧
          fst <$> new ≡ₚ to_all (sync_request (clock (S (time_reads w))))) ∧
  timers w1 = timers w ++ [(5, cb_complete_synchronization)] ∧
  sync_in_progress (system_state (run_callback cb_complete_synchronization w1)) = false ∧
  Nat.iter k (trigger_synchronization clock) w1 = w1 ∧
  periodic_sync_round clock w1 = w1 ∧
  (∀ w0, sync_in_progress (system_state w0) = true →
         trigger_synchronization clock w0 = w0) ∧
  trigger_sched clock [tr_test 1; tr_enter 1; tr_test 2; tr_enter 2] w = (w1, ∅) ∧
  sync_operations (stats w2) = S (S (sync_operations (stats w))) ∧
  timers w2 =
    timers w ++ [(5, cb_complete_synchronization); (5, cb_complete_synchronization)] ∧
  ∃ new1 new2, sent w2 = sent w ++ new1 ++ new2 ∧
    fst <$> new1 ≡ₚ to_all (sync_request (clock (S (time_reads w)))) ∧
    fst <$> new2 ≡ₚ to_all (sync_request (clock (S (S (S (time_reads w)))))).
Proof.
  intros Hidle sync_request to_all w1 w2.
  assert (trigger_test w = true) as Htest by (unfold trigger_test; by rewrite Hidle).
  assert (w1 = trigger_enter clock w) as Hw1.
  { subst w1. by rewrite trigger_synchronization_split, Htest. }
  assert (w2 = trigger_enter clock (trigger_enter clock w)) as Hw2.
  { subst w2. by rewrite trigger_sched_race. }
  assert (sync_in_progress (system_state w1) = true) as Hbusy.
  { by rewrite Hw1, trigger_enter_eq. }
  assert (∀ t, sync_message t = sync_request t) as Hmsg by done.
  split; [done|]. split; [by rewrite Hw1, trigger_enter_eq|].
  split; [by rewrite Hw1, trigger_enter_eq|]. split.
  { eexists. split; [by rewrite Hw1, trigger_enter_eq|].
    by rewrite broadcast_calls_sent, Hmsg. }
  split; [by rewrite Hw1, trigger_enter_eq|]. split; [done|]. split.
  { clear Hw1. induction k as [|k IH]; [done|]. rewrite Nat.iter_succ, IH.
    by apply trigger_busy. }
  split; [by apply periodic_sync_round_busy|].
  split; [intros w0; apply trigger_busy|]. split.
  { rewrite Hw1. apply trigger_sched_serial; [done|].
    unfold trigger_test. by rewrite <- Hw1, Hbusy. }
  rewrite Hw2, !trigger_enter_eq. world_cbn.
  split; [done|]. split; [by rewrite <- app_assoc|].
  eexists _, _. split; [by rewrite <- app_assoc|].
  by rewrite !broadcast_calls_sent, !Hmsg.
Qed.

(** ** Dispatcher *)

Lemma process_client_message_eq client_id m client_socket address w :
  process_client_message clock client_id m client_socket address w =
  (Ok (), release_one "clients_lock"
            (dispatch clock client_id m client_socket address (after_acquire w))).
Proof.
  unfold process_client_message, locked, acquire_locks_in_order, locks_to_acquire.
  by case_decide.
Qed.

Lemma clients_set_stats f w : clients (set_stats f w) = clients w.
Proof. done. Qed.

Lemma dispatch_register client_id m client_socket address w :
  get "type" VNone m = VStr "register" →
  dispatch clock client_id m client_socket address w =
  set_stats incr_messages_processed
    (register_client clock client_id m client_socket address w).
Proof. intros Ht. unfold dispatch. rewrite Ht. by rewrite decide_True. Qed.

Lemma dispatch_state_update client_id m client_socket address w :
  get "type" VNone m = VStr "state_update" →
  dispatch clock client_id m client_socket address w =
  set_stats incr_messages_processed (update_client_state clock client_id m w).
Proof.
  intros Ht. unfold dispatch. rewrite Ht.
  rewrite decide_False by done. by rewrite decide_True.
Qed.

Lemma dispatch_fields client_id m client_socket address w :
  let w' := dispatch clock client_id m client_socket address w in
  clients_lock w' = clients_lock w ∧ active_locks w' = active_locks w ∧
  lock_events w' = lock_events w ∧ closed w' = closed w ∧ broken w' = broken w ∧
  messages_processed (stats w') = S (messages_processed (stats w)) ∧
  deadlock_preventions (stats w') = deadlock_preventions (stats w).
Proof.
  unfold dispatch.
  set (h := if decide (get "type" VNone m = VStr "register") then _ else _).
  assert (handler_frame w h) as (?&?&?&?&?&?&?&_).
  { subst h. repeat case_decide.
    - apply register_client_frame.
    - apply update_client_state_frame.
    - apply update_client_heartbeat_frame.
    - apply handler_frame_refl. }
  cbn. repeat split; congruence.
Qed.

Lemma process_inbound_fields w i :
  let w' := process_inbound clock w i in
  messages_processed (stats w') = S (messages_processed (stats w)) ∧
  clients_lock w' = clients_lock w ∧ closed w' = closed w ∧ broken w' = broken w ∧
  lock_events w' =
    lock_events w ++ [EvAcquire "clients_lock"; EvRelease "clients_lock"].
Proof.
  unfold process_inbound. rewrite process_client_message_eq. cbn [snd].
  destruct (dispatch_fields (in_client_id i) (in_message i) (in_socket i)
    (in_address i) (after_acquire w)) as (Hlk&_&Hev&Hcl&Hbr&Hmp&_).
  rewrite release_one_held by (by rewrite Hlk).
  world_cbn. rewrite Hlk, Hev, Hcl, Hbr, Hmp. world_cbn. rewrite <- app_assoc.
  repeat split; try done. lia.
Qed.

Lemma process_unhashable_eq m client_socket address w :
  process_client_message_json clock id_unhashable m client_socket address w =
  let '(r, w2) := dispatch_unhashable clock m (after_acquire w) in
  (r, release_one "clients_lock" w2).
Proof.
  unfold process_client_message_json, locked, acquire_locks_in_order, locks_to_acquire.
  by case_decide.
Qed.

(** What a message does to the counters and to the lock, whatever its id. *)
Lemma process_arrival_counts w i :
  let r :=
    process_client_message_json clock (ar_id i) (ar_message i) (ar_socket i)
      (ar_address i) w in
  r.1 = (if counted i then Ok () else Raise "TypeError") ∧
  messages_processed (stats r.2) =
    (messages_processed (stats w) + if counted i then 1 else 0)%nat ∧
  deadlock_preventions (stats r.2) = S (deadlock_preventions (stats w)) ∧
  emergency_overrides (stats r.2) = emergency_overrides (stats w) ∧
  clients_lock r.2 = clients_lock w.
Proof.
  cbn zeta. destruct i as [[s|] m client_socket address];
    cbn [ar_id ar_message ar_socket ar_address counted].
  - cbn [process_client_message_json]. rewrite process_client_message_eq. cbn [fst snd].
    destruct (dispatch_fields s m client_socket address (after_acquire w))
      as (Hlk&_&_&_&_&Hmp&Hdp).
    assert (emergency_overrides
              (stats (dispatch clock s m client_socket address (after_acquire w))) =
            emergency_overrides (stats w)) as Heo.
    { unfold dispatch.
      set (h := if decide (get "type" VNone m = VStr "register") then _ else _).
      assert (handler_frame (after_acquire w) h) as (_&_&_&_&_&_&_&Heo&_); [|done].
      subst h. repeat case_decide.
      - apply register_client_frame.
      - apply update_client_state_frame.
      - apply update_client_heartbeat_frame.
      - apply handler_frame_refl. }
    rewrite release_one_held by (by rewrite Hlk). world_cbn.
    rewrite Hmp, Hdp, Heo, Hlk. world_cbn. repeat split; try done; lia.
  - rewrite process_unhashable_eq. unfold dispatch_unhashable, classified.
    cbn [time_time].
    repeat case_decide;
      rewrite ?bool_decide_true, ?bool_decide_false by done;
      cbn [orb negb fst snd];
      (rewrite release_one_held by done); world_cbn; repeat split; try done; lia.
Qed.

(** C2, as the code has it: a message adds one to [messages_processed]
    exactly when its handler returns.  That is the case of every message
    whose id is a string, whatever its type, the unknown types included,
    and of a message of unknown type whose id cannot be hashed; a message
    of type register, state_update or heartbeat whose id cannot be hashed
    raises [TypeError] in its handler, before the increment, and is not
    counted, although the lock helper has counted its call.  The lock is
    released either way. *)
Theorem messages_processed_counts_every_message (msgs : list arrival) (w : world) :
  let w' := foldl (process_arrival clock) w msgs in
  messages_processed (stats w') =
    (messages_processed (stats w) + length (filter (λ i, counted i = true) msgs))%nat ∧
  deadlock_preventions (stats w') = (deadlock_preventions (stats w) + length msgs)%nat ∧
  clients_lock w' = clients_lock w ∧
  Forall (λ i, ∀ w0,
            (process_client_message_json clock (ar_id i) (ar_message i) (ar_socket i)
               (ar_address i) w0).1 =
            match ar_id i with
            | id_str _ => Ok ()
            | id_unhashable =>
                if classified (ar_message i) then Raise "TypeError" else Ok ()
            end) msgs ∧
  (Forall (λ i, ∃ s, ar_id i = id_str s) msgs →
   messages_processed (stats w') = (messages_processed (stats w) + length msgs)%nat).
Proof.
  cbn zeta.
  assert (messages_processed (stats (foldl (process_arrival clock) w msgs)) =
            (messages_processed (stats w) +
             length (filter (λ i, counted i = true) msgs))%nat ∧
          deadlock_preventions (stats (foldl (process_arrival clock) w msgs)) =
            (deadlock_preventions (stats w) + length msgs)%nat ∧
          clients_lock (foldl (process_arrival clock) w msgs) = clients_lock w)
    as (Hm & Hd & Hl).
  { revert w. induction msgs as [|i msgs IH]; intros w.
    - cbn [foldl length]. rewrite filter_nil. cbn [length]. repeat split; lia.
    - cbn [foldl length]. destruct (IH (process_arrival clock w i)) as (-> & -> & ->).
      destruct (process_arrival_counts w i) as (_ & Hm & Hd & _ & Hl).
      unfold process_arrival. rewrite Hm, Hd, Hl, filter_cons.
      destruct (counted i); [rewrite decide_True by done|rewrite decide_False by done];
        cbn [length]; repeat split; lia. }
  split; [exact Hm|]. split; [exact Hd|]. split; [exact Hl|]. split.
  - apply Forall_forall. intros i _ w0.
    destruct (process_arrival_counts w0 i) as (-> & _). unfold counted.
    destruct (ar_id i); [done|]. by destruct (classified (ar_message i)).
  - intros Hall. rewrite Hm. f_equal. f_equal. apply filter_all.
    eapply Forall_impl; [exact Hall|]. intros i [s Hs]. unfold counted. by rewrite Hs.
Qed.

(** ** Registry size *)

Lemma total_clients_ok_frame w w' :
  registry_frame w w' → total_clients_ok w → total_clients_ok w'.
Proof. unfold total_clients_ok. intros (->&_&_&->). done. Qed.

Lemma trigger_registry_frame w : registry_frame w (trigger_synchronization clock w).
Proof.
  destruct (sync_in_progress (system_state w)) eqn:H.
  - by rewrite trigger_busy.
  - by rewrite trigger_idle.
Qed.

Lemma periodic_sync_round_registry_frame w :
  registry_frame w (periodic_sync_round clock w).
Proof.
  destruct (sync_in_progress (system_state w)) eqn:H.
  - by rewrite periodic_sync_round_busy.
  - rewrite periodic_sync_round_idle by done. case_bool_decide; [|done].
    apply (trigger_registry_frame (set_time_reads S w)).
Qed.

Lemma update_client_state_clients client_id m w info :
  clients w !! client_id = Some info →
  clients (update_client_state clock client_id m w) =
    <[client_id := updated_info info m (clock (time_reads w))]> (clients w) ∧
  client_sockets (update_client_state clock client_id m w) = client_sockets w ∧
  client_locks (update_client_state clock client_id m w) = client_locks w ∧
  total_clients (system_state (update_client_state clock client_id m w)) =
    total_clients (system_state w).
Proof.
  intros H. rewrite (update_client_state_some _ _ _ _ H).
  by destruct (periodic_sync_round_registry_frame
    (set_clients (insert client_id (updated_info info m (clock (time_reads w))))
       (set_time_reads S w))) as (->&->&->&->).
Qed.

Lemma dispatch_total_clients_ok client_id m client_socket address w :
  total_clients_ok w →
  total_clients_ok (dispatch clock client_id m client_socket address w).
Proof.
  unfold total_clients_ok, dispatch. intros Hok. world_cbn.
  repeat case_decide.
  - by rewrite register_client_eq.
  - destruct (clients w !! client_id) as [info|] eqn:Hc.
    + destruct (update_client_state_clients client_id m w info Hc) as (->&_&_&->).
      rewrite map_size_insert_Some; [done|by eexists].
    + by rewrite update_client_state_none.
  - unfold update_client_heartbeat.
    destruct (clients w !! client_id) as [info|] eqn:Hc; [|done]. cbn.
    rewrite map_size_insert_Some; [done|by eexists].
  - done.
Qed.

Lemma remove_client_total_clients_ok client_id w :
  total_clients_ok w → total_clients_ok (remove_client client_id w).
Proof.
  intros Hok. rewrite remove_client_eq.
  by destruct (clients w !! client_id).
Qed.

Lemma foldl_remove_client_inv (P : world → Prop) (l : list string) :
  (∀ client_id w, P w → P (remove_client client_id w)) →
  ∀ w, P w → P (foldl (λ w client_id, remove_client client_id w) w l).
Proof.
  intros Hstep. induction l as [|x l IH]; intros w Hw; [done|].
  cbn [foldl]. by apply IH, Hstep.
Qed.

Lemma run_op_total_clients_ok w o :
  total_clients_ok w → total_clients_ok (run_op clock w o).
Proof.
  intros Hok. destruct o as [i|cid s|cid| | | |target st|s]; cbn [run_op].
  - unfold process_inbound. rewrite process_client_message_eq. cbn [snd].
    rewrite release_one_eq. cbn zeta.
    by apply (dispatch_total_clients_ok _ _ _ _ (after_acquire w)).
  - unfold handle_client_finally.
    destruct cid as [cid|]; [destruct (truthy_str cid)|]; try done.
    by apply (remove_client_total_clients_ok cid) in Hok.
  - by apply remove_client_total_clients_ok.
  - unfold system_monitor_round. cbn [time_time].
    apply foldl_remove_client_inv; [apply remove_client_total_clients_ok | done].
  - apply (total_clients_ok_frame w);
      [apply periodic_sync_round_registry_frame | done].
  - unfold timer_fires. destruct (timers w) as [|[d []] rest]; done.
  - by rewrite emergency_override_eq.
  - done.
Qed.

(** C8: [total_clients] is the size of the registry after [__init__] and
    after every sequence of operations; [register_client] and
    [remove_client] set it to the size of the registry they leave; and an
    operation that leaves the set of registered ids as it was leaves
    [total_clients] as it was. *)
Theorem total_clients_is_registry_size (ops : list op) :
  total_clients_ok (init clock) ∧
  total_clients_ok (run clock ops) ∧
  (∀ client_id m client_socket address w,
     let w' := register_client clock client_id m client_socket address w in
     is_Some (clients w' !! client_id) ∧
     total_clients (system_state w') = size (clients w')) ∧
  (∀ client_id w,
     let w' := remove_client client_id w in
     clients w' !! client_id = None ∧
     (is_Some (clients w !! client_id) →
      total_clients (system_state w') = size (clients w'))) ∧
  (∀ w o, total_clients_ok w →
     dom (clients (run_op clock w o)) = dom (clients w) →
     total_clients (system_state (run_op clock w o)) =
       total_clients (system_state w)).
Proof.
  assert (∀ l w, total_clients_ok w → total_clients_ok (foldl (run_op clock) w l))
    as Hrun.
  { induction l as [|o l IH]; intros w Hw; [done|].
    cbn [foldl]. by apply IH, run_op_total_clients_ok. }
  split; [done|]. split; [by apply Hrun|]. split; [|split].
  - intros client_id m client_socket address w. cbn zeta.
    rewrite register_client_eq. cbn. by rewrite lookup_insert_eq.
  - intros client_id w. cbn zeta. rewrite remove_client_eq.
    destruct (clients w !! client_id) as [info|] eqn:H; cbn.
    + by rewrite lookup_delete_eq.
    + split; [done|]. by intros [? ?].
  - intros w o Hok Hdom.
    pose proof (run_op_total_clients_ok w o Hok) as Hok'.
    unfold total_clients_ok in *. rewrite Hok', Hok.
    by rewrite <- !size_dom, Hdom.
Qed.

(** ** Sessions and their connection handles *)

Lemma dispatch_handles_ok client_id m client_socket address w :
  handles_ok w → handles_ok (dispatch clock client_id m client_socket address w).
Proof.
  unfold handles_ok, dispatch. intros Hok. world_cbn.
  repeat case_decide.
  - rewrite register_client_eq. world_cbn. by rewrite !dom_insert_L, Hok.
  - destruct (clients w !! client_id) as [info|] eqn:Hc.
    + destruct (update_client_state_clients client_id m w info Hc) as (->&->&_).
      rewrite dom_insert_lookup_L; [done|by eexists].
    + by rewrite update_client_state_none.
  - unfold update_client_heartbeat.
    destruct (clients w !! client_id) as [info|] eqn:Hc; [|done]. cbn.
    rewrite dom_insert_lookup_L; [done|by eexists].
  - done.
Qed.

Lemma remove_client_handles_ok client_id w :
  handles_ok w → handles_ok (remove_client client_id w).
Proof.
  unfold handles_ok. intros Hok. rewrite remove_client_eq.
  destruct (clients w !! client_id); [|done]. cbn.
  by rewrite !dom_delete_L, Hok.
Qed.

Lemma run_op_handles_ok w o : handles_ok w → handles_ok (run_op clock w o).
Proof.
  intros Hok. destruct o as [i|cid s|cid| | | |target st|s]; cbn [run_op].
  - unfold process_inbound. rewrite process_client_message_eq. cbn [snd].
    rewrite release_one_eq. cbn zeta.
    by apply (dispatch_handles_ok _ _ _ _ (after_acquire w)).
  - unfold handle_client_finally.
    destruct cid as [cid|]; [destruct (truthy_str cid)|]; try done.
    by apply (remove_client_handles_ok cid) in Hok.
  - by apply remove_client_handles_ok.
  - unfold system_monitor_round. cbn [time_time].
    apply foldl_remove_client_inv; [apply remove_client_handles_ok | done].
  - unfold handles_ok.
    by destruct (periodic_sync_round_registry_frame w) as (->&->&_).
  - unfold timer_fires. destruct (timers w) as [|[d []] rest]; done.
  - by rewrite emergency_override_eq.
  - done.
Qed.

(** In every state the server can reach, the sessions and the stored
    connection handles have the same ids: a broadcast reaches every
    session, and a scoped send finds the handle of every session it picks. *)
Lemma sessions_have_handles (ops : list op) : handles_ok (run clock ops).
Proof.
  unfold run. generalize (eq_refl : handles_ok (init clock)).
  generalize (init clock). induction ops as [|o ops IH]; intros w Hw; [done|].
  cbn [foldl]. by apply IH, run_op_handles_ok.
Qed.

(** ** State updates and defaults *)

Lemma process_client_message_registry client_id m client_socket address w :
  let w' := (process_client_message clock client_id m client_socket address w).2 in
  let d := dispatch clock client_id m client_socket address (after_acquire w) in
  clients w' = clients d ∧ client_sockets w' = client_sockets d ∧
  client_locks w' = client_locks d ∧ system_state w' = system_state d ∧
  sent w' = sent d ∧ timers w' = timers d.
Proof.
  cbn zeta. rewrite process_client_message_eq. cbn [snd]. rewrite release_one_eq.
  done.
Qed.

(** C6: a state update for an id that is not registered changes nothing
    (through the dispatcher: neither the registry nor the system state);
    for a registered id it writes the state of the message, the clock
    reading as [last_heartbeat] and one more in [state_changes], and it
    starts a synchronisation exactly when none is in progress and the
    clock is more than 30 seconds past [last_sync]. *)
Theorem state_update_effect (client_id : string) (m : message) (client_socket : sock)
    (address : addr) (w : world) :
  match clients w !! client_id with
  | None =>
      update_client_state clock client_id m w = w ∧
      (get "type" VNone m = VStr "state_update" →
       let w' := (process_client_message clock client_id m client_socket address w).2 in
       clients w' = clients w ∧ client_sockets w' = client_sockets w ∧
       client_locks w' = client_locks w ∧ system_state w' = system_state w ∧
       sent w' = sent w ∧ timers w' = timers w)
  | Some info =>
      let w' := update_client_state clock client_id m w in
      let due :=
        negb (sync_in_progress (system_state w)) &&
        bool_decide (clock (S (time_reads w)) - last_sync (system_state w) > 30) in
      clients w' = <[client_id := updated_info info m (clock (time_reads w))]> (clients w) ∧
      (∀ v, m !! "state" = Some v → ci_state <$> (clients w' !! client_id) = Some v) ∧
      ci_last_heartbeat <$> (clients w' !! client_id) = Some (clock (time_reads w)) ∧
      ci_state_changes <$> (clients w' !! client_id) = Some (S (ci_state_changes info)) ∧
      sync_operations (stats w') =
        (sync_operations (stats w) + (if due then 1 else 0))%nat ∧
      sync_in_progress (system_state w') = sync_in_progress (system_state w) || due ∧
      last_sync (system_state w') =
        (if due then clock (S (S (time_reads w))) else last_sync (system_state w)) ∧
      (∃ new, sent w' = sent w ++ new ∧
         new ≡ₚ (if due
                 then broadcast_calls (sync_message (clock (S (S (S (time_reads w)))))) w
                 else [])) ∧
      timers w' = timers w ++ (if due then [(5, cb_complete_synchronization)] else [])
  end.
Proof.
  destruct (clients w !! client_id) as [info|] eqn:Hc.
  - cbn zeta.
    destruct (update_client_state_clients client_id m w info Hc) as (Hcl&_).
    rewrite Hcl, lookup_insert_eq. cbn [fmap option_fmap option_map].
    split; [done|]. split.
    { intros v Hv. unfold updated_info, get. cbn [ci_state]. by rewrite Hv. }
    split; [done|]. split; [done|].
    rewrite (update_client_state_some _ _ _ _ Hc).
    destruct (sync_in_progress (system_state w)) eqn:Hs; cbn [negb andb orb].
    + rewrite periodic_sync_round_busy by done. world_cbn.
      rewrite Hs, app_nil_r, Nat.add_0_r. repeat split; try done.
      exists []. by rewrite app_nil_r.
    + rewrite periodic_sync_round_idle by done. world_cbn.
      case_bool_decide.
      * rewrite trigger_idle by done. world_cbn.
        repeat split; try done; [lia|]. by eexists.
      * world_cbn. rewrite Hs, app_nil_r, Nat.add_0_r. repeat split; try done.
        exists []. by rewrite app_nil_r.
  - split; [by apply update_client_state_none|].
    intros Ht. cbn zeta.
    destruct (process_client_message_registry client_id m client_socket address w)
      as (->&->&->&->&->&->).
    unfold dispatch. rewrite Ht.
    rewrite decide_False by done. rewrite decide_True by done.
    by rewrite update_client_state_none.
Qed.

(** C10: the dispatcher answers every message without an exception; a
    register message creates the session with 'Unknown', (0, 0) and 'RED'
    for the fields it lacks; a state update without a state keeps the
    state of the session and still writes [last_heartbeat] and counts the
    change. *)
Theorem missing_fields_are_defaulted (client_id : string) (m : message)
    (client_socket : sock) (address : addr) (w : world) :
  let r := process_client_message clock client_id m client_socket address w in
  r.1 = Ok () ∧
  (get "type" VNone m = VStr "register" →
   ∃ info, clients r.2 !! client_id = Some info ∧
     (m !! "intersection" = None → ci_intersection info = VStr "Unknown") ∧
     (m !! "position" = None → ci_position info = VPos 0 0) ∧
     (m !! "state" = None → ci_state info = VStr "RED")) ∧
  (get "type" VNone m = VStr "state_update" → m !! "state" = None →
   ∀ info, clients w !! client_id = Some info →
     ∃ info', clients r.2 !! client_id = Some info' ∧
       ci_state info' = ci_state info ∧
       ci_last_heartbeat info' = clock (time_reads w) ∧
       ci_state_changes info' = S (ci_state_changes info)).
Proof.
  cbn zeta. split; [by rewrite process_client_message_eq|].
  destruct (process_client_message_registry client_id m client_socket address w)
    as (->&_). split.
  - intros Ht. rewrite dispatch_register by done.
    rewrite clients_set_stats, register_client_eq.
    cbn [clients]. rewrite lookup_insert_eq.
    eexists. split; [done|]. unfold registered_info, get.
    cbn [ci_intersection ci_position ci_state].
    repeat split; by intros ->.
  - intros Ht Hst info Hc. rewrite dispatch_state_update by done.
    rewrite clients_set_stats.
    destruct (update_client_state_clients client_id m (after_acquire w) info Hc)
      as (->&_).
    rewrite lookup_insert_eq. eexists. split; [done|].
    unfold updated_info, get. rewrite Hst. done.
Qed.

(** ** Removal and the connection handle *)

Lemma remove_client_closed client_id w : closed (remove_client client_id w) = closed w.
Proof. rewrite remove_client_eq. by destruct (clients w !! client_id). Qed.

Lemma system_monitor_round_closed w : closed (system_monitor_round clock w) = closed w.
Proof.
  unfold system_monitor_round. cbn [time_time].
  apply (foldl_remove_client_inv (λ w', closed w' = closed w)); [|done].
  intros client_id w' <-. apply remove_client_closed.
Qed.

Lemma handle_client_finally_closed client_id client_socket w :
  closed (handle_client_finally client_id client_socket w) =
  {[client_socket]} ∪ closed w.
Proof.
  unfold handle_client_finally, sock_close. cbn.
  destruct client_id as [cid|]; [destruct (truthy_str cid)|]; try done.
  by rewrite remove_client_closed.
Qed.

End Sync.

(** C1, what the code does at the failing input: both sessions are older
    than 60 seconds when the sweep runs; the sweep takes A1 out of the
    registry and forgets its connection handle, socket 7, without closing
    it, whereas the disconnect path of [handle_client] closes the socket. *)
Theorem sweep_removes_session_and_leaves_handle_open :
  client_sockets (two_clients clock100) !! "A1" = Some 7%nat ∧
  clients (system_monitor_round clock100 (two_clients clock100)) !! "A1" = None ∧
  client_sockets (system_monitor_round clock100 (two_clients clock100)) !! "A1" = None ∧
  (7%nat ∉ closed (system_monitor_round clock100 (two_clients clock100))) ∧
  (7%nat ∉ closed (remove_client "A1" (two_clients clock100))) ∧
  (7%nat ∈ closed (handle_client_finally (Some "A1") 7%nat (two_clients clock100))).
Proof.
  assert (closed (two_clients clock100) = ∅) as Hclosed by reflexivity.
  split; [reflexivity|]. split; [reflexivity|]. split; [reflexivity|].
  rewrite system_monitor_round_closed, remove_client_closed,
    handle_client_finally_closed, Hclosed.
  split; [apply not_elem_of_empty|]. split; [apply not_elem_of_empty|].
  apply elem_of_union_l, elem_of_singleton. reflexivity.
Qed.

(** The acquisition raises at its third iteration, after one lock was
    taken: the exception comes out and the lock is free again. *)
Lemma locks_released_witness :
  (locked (Some 2%nat) ["clients_lock"; "message_lock"; "system_lock"; "clients_lock"]
     (λ w0, (Ok (), w0)) (init clock0)).1 = Raise "Exception" ∧
  clients_lock
    (locked (Some 2%nat) ["clients_lock"; "message_lock"; "system_lock"; "clients_lock"]
       (λ w0, (Ok (), w0)) (init clock0)).2 = 0%nat.
Proof.
  destruct (locks_ordered_and_released_on_all_paths (Some 2%nat)
              ["clients_lock"; "message_lock"; "system_lock"; "clients_lock"]
              (λ w0, (Ok (), w0)) (init clock0))
    as (_ & _ & _ & Hraise & _ & Hlevel & _).
  - intros w0. split; reflexivity.
  - split; [|exact Hlevel].
    destruct (Hraise eq_refl) as [_ Hr]. exact (f_equal fst Hr).
Defined.

(** The same run, evaluated: one acquisition, one release. *)
Example acquisition_fails_midway :
  lock_events
    (locked (Some 2%nat) ["clients_lock"; "message_lock"; "system_lock"; "clients_lock"]
       (λ w0, (Ok (), w0)) (init clock0)).2 =
  [EvAcquire "clients_lock"; EvRelease "clients_lock"].
Proof. reflexivity. Qed.

(** The body raises after both locks were taken; they are released in
    the [finally]. *)
Example body_raises_inside_scope :
  let r := locked None ["clients_lock"; "clients_lock"; "system_lock"]
             (λ w0, (@Raise unit "KeyError", w0)) (init clock0) in
  r.1 = Raise "KeyError" ∧ clients_lock r.2 = 0%nat ∧
  lock_events r.2 =
    [EvAcquire "clients_lock"; EvAcquire "clients_lock";
     EvRelease "clients_lock"; EvRelease "clients_lock"].
Proof. by vm_compute. Qed.

(** The run of [test_deadlock_prevention]. *)
Example test_deadlock_prevention :
  let r := acquire_locks_in_order None ["clients_lock"; "system_lock"] (init clock0) in
  r.1 = Ok ["clients_lock"] ∧
  sorted_locks ["clients_lock"; "system_lock"] = ["system_lock"; "clients_lock"] ∧
  clients_lock (release_locks ["clients_lock"] r.2) = 0%nat.
Proof. by vm_compute. Qed.

(** A register message with nothing but its type. *)
Example bare_register :
  clients (process_inbound clock0 (init clock0)
             (mk_inbound "A1" bare_register_msg 7%nat ("10.0.0.1", 5001))) !! "A1" =
  Some (mk_client "A1" (VStr "Unknown") (VPos 0 0) (VStr "RED") 1002 7%nat
          ("10.0.0.1", 5001) 0).
Proof. by vm_compute. Qed.

(** Three state updates after a registration: the scenario of the spec. *)
Example register_then_three_updates :
  let w := foldl (process_inbound clock0) (init clock0)
             [in_A1;
              mk_inbound "A1" (state_update_msg "GREEN") 7%nat ("10.0.0.1", 5001);
              mk_inbound "A1" bare_state_update_msg 7%nat ("10.0.0.1", 5001);
              mk_inbound "A1" (state_update_msg "RED") 7%nat ("10.0.0.1", 5001)] in
  ci_state_changes <$> (clients w !! "A1") = Some 3%nat ∧
  ci_state <$> (clients w !! "A1") = Some (VStr "RED") ∧
  messages_processed (stats w) = 4%nat ∧
  total_clients (system_state w) = 1%nat.
Proof. by vm_compute. Qed.

(** With a clock that jumps 35 seconds per reading, the first state
    update finds the last synchronisation stale and starts one; the second
    finds it in progress. *)
Example stale_update_triggers_one_sync :
  let w := foldl (process_inbound clock35) (init clock35)
             [in_A1;
              mk_inbound "A1" (state_update_msg "GREEN") 7%nat ("10.0.0.1", 5001);
              mk_inbound "A1" (state_update_msg "YELLOW") 7%nat ("10.0.0.1", 5001)] in
  sync_operations (stats w) = 1%nat ∧
  sync_in_progress (system_state w) = true ∧
  timers w = [(5, cb_complete_synchronization)] ∧
  length (sent w) = 2%nat ∧
  sync_in_progress (system_state (timer_fires w)) = false.
Proof. by vm_compute. Qed.

(** A scoped override: only the session at Centro is sent the message. *)
Example scoped_override_centro :
  drop (length (sent (two_clients clock0)))
    (sent (emergency_override clock0 (Some "Centro") "RED" (two_clients clock0))) =
  [(7%nat, emergency_message (Some "Centro") "RED" 1010, true)].
Proof.
  rewrite emergency_override_eq. cbn zeta. cbn [sent]. rewrite drop_app_length.
  change (clock0 (time_reads (two_clients clock0))) with 1010.
  generalize (emergency_message (Some "Centro") "RED" 1010). intros msg.
  by vm_compute.
Qed.

(** The failing input of C4: both sessions are registered and no
    synchronisation is in progress; two callers test before either goes on,
    and the one window gets two operations and two timers. *)
Lemma trigger_synchronization_witness :
  sync_in_progress (system_state (two_clients clock0)) = false ∧
  sync_operations
    (stats (trigger_sched clock0 [tr_test 1; tr_test 2; tr_enter 1; tr_enter 2]
              (two_clients clock0)).1) = 2%nat ∧
  timers
    (trigger_sched clock0 [tr_test 1; tr_test 2; tr_enter 1; tr_enter 2]
       (two_clients clock0)).1 =
  [(5, cb_complete_synchronization); (5, cb_complete_synchronization)].
Proof.
  split; [reflexivity|].
  destruct (trigger_synchronization_once_per_window clock0 (two_clients clock0) 3
              eq_refl) as (_ & _ & _ & _ & _ & _ & _ & _ & _ & _ & Hops & Htim & _).
  split; [exact Hops | exact Htim].
Defined.

(** The claim C5 fails for the empty string as target: the sessions are
    at Centro and Sur, none at the intersection named by the target, and
    both are sent the message. *)
Lemma empty_target_reaches_everyone :
  ci_intersection <$> (clients (two_clients clock0) !! "A1") = Some (VStr "Centro") ∧
  ci_intersection <$> (clients (two_clients clock0) !! "A2") = Some (VStr "Sur") ∧
  fst <$> drop (length (sent (two_clients clock0)))
            (sent (emergency_override clock0 (Some "") "RED" (two_clients clock0))) ≡ₚ
  [(7%nat, {[ "type" := VStr "emergency_override"; "state" := VStr "RED";
              "timestamp" := VNum 1010; "target_intersection" := VStr "" ]});
   (8%nat, {[ "type" := VStr "emergency_override"; "state" := VStr "RED";
              "timestamp" := VNum 1010; "target_intersection" := VStr "" ]})].
Proof.
  split; [by vm_compute|]. split; [by vm_compute|].
  change ({[ "type" := VStr "emergency_override"; "state" := VStr "RED";
             "timestamp" := VNum 1010; "target_intersection" := VStr "" ]} :
          message)
    with (emergency_message (Some "") "RED" 1010).
  rewrite emergency_override_eq. cbn zeta. cbn [sent]. rewrite drop_app_length.
  change (clock0 (time_reads (two_clients clock0))) with 1010.
  generalize (emergency_message (Some "") "RED" 1010). intros msg.
  assert ((if truthy_target (Some "")
           then scoped_calls (target_value (Some "")) msg (two_clients clock0)
           else broadcast_calls msg (two_clients clock0)) =
          [(7%nat, msg, true); (8%nat, msg, true)]) as -> by (by vm_compute).
  done.
Qed.

(** The claim C2 fails on a message of unknown type: it is not one of the
    classified messages, and the counter still moves. *)
Lemma unknown_type_is_counted :
  classified (in_message in_unknown) = false ∧
  messages_processed (stats (foldl (process_inbound clock0) (init clock0) [in_unknown])) ≠
    (messages_processed (stats (init clock0)) + count_classified [in_unknown])%nat.
Proof. split; [reflexivity|]. vm_compute. lia. Qed.

End ServerSpec.

(** * Further properties of the coordinator *)

Module ServerExtra.
Import Server ServerSpec.

Section Extra.

Variable clock : nat → Z.

(** ** Liveness sweep *)

Lemma inactive_clients_elem current_time w client_id :
  client_id ∈ inactive_clients current_time w ↔
  ∃ info, clients w !! client_id = Some info ∧ stale current_time info = true.
Proof.
  unfold inactive_clients, stale. rewrite list_elem_of_fmap. split.
  - intros ([k info] & -> & Hin). apply list_elem_of_filter in Hin as [Hp Hin].
    apply elem_of_map_to_list in Hin. exists info. split; [done|].
    by apply bool_decide_eq_true.
  - intros (info & Hc & Hs). exists (client_id, info). split; [done|].
    apply list_elem_of_filter. split; [by apply bool_decide_eq_true in Hs|].
    by apply elem_of_map_to_list.
Qed.

Lemma inactive_clients_NoDup current_time w : NoDup (inactive_clients current_time w).
Proof.
  unfold inactive_clients.
  apply (sublist_NoDup _ (map_to_list (clients w)).*1);
    first [apply NoDup_fst_map_to_list | apply fmap_sublist, sublist_filter].
Qed.

Lemma lookup_after_deletes {A} (x c : string) (l : list string) (v : option A) :
  (if decide (x = c) then None else if decide (c ∈ l) then None else v) =
  if decide (c ∈ x :: l) then None else v.
Proof.
  destruct (decide (x = c)) as [->|Hne]; [by rewrite decide_True by left|].
  destruct (decide (c ∈ l)) as [Hin|Hin].
  - by rewrite decide_True by (by right).
  - rewrite decide_False; [done|]. intros [?|?]%elem_of_cons; congruence.
Qed.

Lemma foldl_remove_client_lookup (l : list string) : ∀ w,
  NoDup l → (∀ c, c ∈ l → is_Some (clients w !! c)) →
  let w' := foldl (λ w client_id, remove_client client_id w) w l in
  (∀ c, clients w' !! c = if decide (c ∈ l) then None else clients w !! c) ∧
  (∀ c, client_sockets w' !! c =
        if decide (c ∈ l) then None else client_sockets w !! c) ∧
  client_locks w' = client_locks w ∖ list_to_set l ∧
  time_reads w' = time_reads w ∧ sent w' = sent w ∧ closed w' = closed w ∧
  stats w' = stats w.
Proof.
  induction l as [|x l IH]; intros w Hnd Hin.
  - cbn [foldl]. split; [done|]. split; [done|].
    split; [by rewrite list_to_set_nil, difference_empty_L|done].
  - cbn [foldl]. apply NoDup_cons in Hnd as [Hx Hnd].
    destruct (Hin x) as [info Hinfo]; [by left|].
    pose proof (remove_client_eq x w) as Heq. rewrite Hinfo in Heq.
    destruct (IH (remove_client x w) Hnd) as (Hc & Hs & Hl & Ht & Hse & Hcl & Hst).
    { intros c Hc. rewrite Heq. world_cbn.
      rewrite lookup_delete_ne by (by intros ->). apply Hin. by right. }
    rewrite Heq in Hc, Hs, Hl, Ht, Hse, Hcl, Hst. rewrite Heq.
    split; [|split].
    + intros c. rewrite Hc. world_cbn. rewrite lookup_delete.
      rewrite <- lookup_after_deletes. by repeat case_decide.
    + intros c. rewrite Hs. world_cbn. rewrite lookup_delete.
      rewrite <- lookup_after_deletes. by repeat case_decide.
    + rewrite Hl, Ht, Hse, Hcl, Hst. world_cbn. rewrite list_to_set_cons.
      split; [|done]. by rewrite difference_difference_l_L.
Qed.

(** ** The dispatcher around a handler *)

Lemma same_core_after_acquire w : same_core w (after_acquire w).
Proof. by repeat split. Qed.

Lemma same_core_set_stats f w : same_core w (set_stats f w).
Proof. by repeat split. Qed.

Lemma same_core_release_one x w : same_core w (release_one x w).
Proof. rewrite release_one_eq. cbn zeta. by repeat split. Qed.

Lemma same_core_trans w1 w2 w3 : same_core w1 w2 → same_core w2 w3 → same_core w1 w3.
Proof.
  unfold same_core. intros (?&?&?&?&?&?&?&?&?) (?&?&?&?&?&?&?&?&?).
  repeat split; congruence.
Qed.

Lemma process_inbound_core w i :
  same_core
    (handler clock (in_client_id i) (in_message i) (in_socket i) (in_address i)
       (after_acquire w))
    (process_inbound clock w i).
Proof.
  unfold process_inbound. rewrite process_client_message_eq. cbn [snd].
  eapply same_core_trans; [|apply same_core_release_one].
  apply (same_core_set_stats incr_messages_processed).
Qed.

Lemma process_inbound_stats w i :
  stats (process_inbound clock w i) =
  incr_messages_processed
    (stats (handler clock (in_client_id i) (in_message i) (in_socket i)
              (in_address i) (after_acquire w))).
Proof.
  unfold process_inbound. rewrite process_client_message_eq. cbn [snd].
  rewrite release_one_eq. done.
Qed.

(** A property of the core that every handler keeps is kept by the
    dispatcher. *)
Lemma process_inbound_inv (P : world → Prop) w i :
  (∀ w1 w2, same_core w1 w2 → P w1 → P w2) →
  (∀ client_id m client_socket address w0,
     P w0 → P (register_client clock client_id m client_socket address w0)) →
  (∀ client_id m w0, P w0 → P (update_client_state clock client_id m w0)) →
  (∀ client_id w0, P w0 → P (update_client_heartbeat clock client_id w0)) →
  P w → P (process_inbound clock w i).
Proof.
  intros Hcore Hreg Hupd Hhb Hw.
  apply (Hcore _ _ (process_inbound_core w i)).
  apply (Hcore _ _ (same_core_after_acquire w)) in Hw.
  unfold handler. repeat case_decide; auto.
Qed.

(** The same for every operation. *)
Lemma run_op_inv (P : world → Prop) w o :
  (∀ w1 w2, same_core w1 w2 → P w1 → P w2) →
  (∀ client_id m client_socket address w0,
     P w0 → P (register_client clock client_id m client_socket address w0)) →
  (∀ client_id m w0, P w0 → P (update_client_state clock client_id m w0)) →
  (∀ client_id w0, P w0 → P (update_client_heartbeat clock client_id w0)) →
  (∀ client_id w0, P w0 → P (remove_client client_id w0)) →
  (∀ s w0, P w0 → P (sock_close s w0)) →
  (∀ w0, P w0 → P (set_time_reads S w0)) →
  (∀ w0, P w0 → P (periodic_sync_round clock w0)) →
  (∀ w0, P w0 → P (timer_fires w0)) →
  (∀ target st, o = op_emergency target st →
     P (emergency_override clock target st w)) →
  (∀ s w0, P w0 → P (set_broken (λ b, {[s]} ∪ b) w0)) →
  P w → P (run_op clock w o).
Proof.
  intros Hcore Hreg Hupd Hhb Hrem Hclose Htime Hper Htimer Hem Hbr Hw.
  destruct o as [i|cid s|cid| | | |target st|s]; cbn [run_op]; auto.
  - by apply process_inbound_inv.
  - unfold handle_client_finally. apply Hclose.
    destruct cid as [cid|]; [destruct (truthy_str cid)|]; auto.
  - unfold system_monitor_round. cbn [time_time].
    apply foldl_remove_client_inv; auto.
Qed.

Lemma get_system_status_state n : (get_system_status n).2 = n.
Proof.
  destruct n as [w r]. unfold get_system_status. cbn [snd nd_world running].
  by rewrite rlock_release_acquire.
Qed.

Lemma foldl_sock_close_inv (P : world → Prop) (l : list sock) :
  (∀ s w, P w → P (sock_close s w)) →
  ∀ w, P w → P (foldl (λ w s, sock_close s w) w l).
Proof.
  intros Hstep. induction l as [|x l IH]; intros w Hw; [done|].
  cbn [foldl]. by apply IH, Hstep.
Qed.

Lemma same_core_unlock w : same_core w (default w (rlock_release w)).
Proof.
  unfold rlock_release. destruct w as [? ? ? ? ? ? [|k] ? ? ? ? ? ?]; by repeat split.
Qed.

(** The same for every action on the server object. *)
Lemma run_action_inv (P : world → Prop) n a :
  (∀ w1 w2, same_core w1 w2 → P w1 → P w2) →
  (∀ client_id m client_socket address w0,
     P w0 → P (register_client clock client_id m client_socket address w0)) →
  (∀ client_id m w0, P w0 → P (update_client_state clock client_id m w0)) →
  (∀ client_id w0, P w0 → P (update_client_heartbeat clock client_id w0)) →
  (∀ client_id w0, P w0 → P (remove_client client_id w0)) →
  (∀ s w0, P w0 → P (sock_close s w0)) →
  (∀ w0, P w0 → P (set_time_reads S w0)) →
  (∀ w0, P w0 → P (periodic_sync_round clock w0)) →
  (∀ w0, P w0 → P (trigger_synchronization clock w0)) →
  (∀ w0, P w0 → P (timer_fires w0)) →
  (∀ target st, a = act_op (op_emergency target st) →
     P (emergency_override clock target st (nd_world n))) →
  (∀ s w0, P w0 → P (set_broken (λ b, {[s]} ∪ b) w0)) →
  P (nd_world n) → P (nd_world (run_action clock n a)).
Proof.
  intros Hcore Hreg Hupd Hhb Hrem Hclose Htime Hper Htrig Htimer Hem Hbr Hw.
  destruct a as [o| | |]; cbn [run_action nd_world]; auto.
  - apply run_op_inv; auto. intros target st ->. by apply Hem.
  - by rewrite get_system_status_state.
  - unfold stop_server, with_clients_lock. cbn [nd_world].
    eapply Hcore; [apply same_core_unlock|].
    apply foldl_sock_close_inv; [done|].
    eapply Hcore; [|exact Hw]. by repeat split.
Qed.

(** ** Sessions, sockets and per-client locks *)

Lemma registry_wf_core w1 w2 : same_core w1 w2 → registry_wf w1 → registry_wf w2.
Proof. unfold registry_wf. by intros (-> & -> & -> & _). Qed.

Lemma registry_wf_frame w1 w2 : registry_frame w1 w2 → registry_wf w1 → registry_wf w2.
Proof. unfold registry_wf. by intros (-> & -> & -> & _). Qed.

Lemma registry_wf_insert w client_id info w' :
  registry_wf w →
  ci_id info = client_id →
  client_sockets w !! client_id = Some (ci_socket info) ∨
    client_sockets w' = <[client_id := ci_socket info]> (client_sockets w) →
  clients w' = <[client_id := info]> (clients w) →
  (client_sockets w' = client_sockets w ∨
   client_sockets w' = <[client_id := ci_socket info]> (client_sockets w)) →
  client_locks w' = {[client_id]} ∪ client_locks w →
  registry_wf w'.
Proof.
  intros (Hd & Hl & Hs) Hid Hsock Hc Hso Hlo. unfold registry_wf.
  rewrite Hc, Hlo, Hl, dom_insert_L.
  assert (client_sockets w' = <[client_id := ci_socket info]> (client_sockets w))
    as Hso'.
  { destruct Hsock as [Hsock|Hsock]; [|done].
    destruct Hso as [Hso|Hso]; [|done]. rewrite Hso. symmetry.
    by apply insert_id. }
  rewrite Hso', dom_insert_L, Hd.
  split; [done|]. split; [done|].
  intros c info' Hlook. destruct (decide (client_id = c)) as [->|Hne].
  - rewrite lookup_insert_eq in Hlook. injection Hlook as <-.
    by rewrite lookup_insert_eq.
  - rewrite lookup_insert_ne in Hlook by done. rewrite lookup_insert_ne by done.
    by apply Hs.
Qed.

Lemma registry_wf_register client_id m client_socket address w :
  registry_wf w →
  registry_wf (register_client clock client_id m client_socket address w).
Proof.
  intros Hwf. rewrite register_client_eq. cbn zeta.
  apply (registry_wf_insert w client_id
           (registered_info client_id m client_socket address (clock (time_reads w))));
    [done | done | by right | done | by right | done].
Qed.

Lemma registry_wf_lock_known w client_id info :
  registry_wf w → clients w !! client_id = Some info →
  {[client_id]} ∪ client_locks w = client_locks w.
Proof.
  intros (_ & Hl & _) Hc. rewrite Hl. apply subseteq_union_1_L.
  apply singleton_subseteq_l, elem_of_dom. by exists info.
Qed.

Lemma registry_wf_update client_id m w :
  registry_wf w → registry_wf (update_client_state clock client_id m w).
Proof.
  intros Hwf. destruct (clients w !! client_id) as [info|] eqn:Hc.
  - destruct (update_client_state_clients clock client_id m w info Hc)
      as (Hcl & Hso & Hlo & _).
    destruct (proj2 (proj2 Hwf) _ _ Hc) as [Hid Hsock].
    apply (registry_wf_insert w client_id
             (updated_info info m (clock (time_reads w))));
      [done | done | by left | done | by left |].
    by rewrite Hlo, (registry_wf_lock_known w client_id info).
  - by rewrite update_client_state_none.
Qed.

Lemma registry_wf_heartbeat client_id w :
  registry_wf w → registry_wf (update_client_heartbeat clock client_id w).
Proof.
  intros Hwf. unfold update_client_heartbeat.
  destruct (clients w !! client_id) as [info|] eqn:Hc; [|done].
  destruct (proj2 (proj2 Hwf) _ _ Hc) as [Hid Hsock]. cbn [time_time].
  apply (registry_wf_insert w client_id
           (mk_client (ci_id info) (ci_intersection info) (ci_position info)
              (ci_state info) (clock (time_reads w)) (ci_socket info)
              (ci_address info) (ci_state_changes info)));
    [done | done | by left | done | by left |].
  world_cbn. by rewrite (registry_wf_lock_known w client_id info).
Qed.

Lemma registry_wf_remove client_id w :
  registry_wf w → registry_wf (remove_client client_id w).
Proof.
  intros (Hd & Hl & Hs). rewrite remove_client_eq.
  destruct (clients w !! client_id) as [info|] eqn:Hc; [|done].
  unfold registry_wf. world_cbn. rewrite !dom_delete_L, Hd, Hl.
  split; [done|]. split; [done|].
  intros c info' Hlook. apply lookup_delete_Some in Hlook as [Hne Hlook].
  rewrite lookup_delete_ne by done. by apply Hs.
Qed.

Lemma registry_frame_timer_fires w : registry_frame w (timer_fires w).
Proof. unfold timer_fires. by destruct (timers w) as [|[d []] rest]. Qed.

Lemma registry_frame_emergency target st w :
  registry_frame w (emergency_override clock target st w).
Proof. by rewrite emergency_override_eq. Qed.

Lemma registry_wf_init : registry_wf (init clock).
Proof.
  unfold registry_wf. cbn. rewrite !dom_empty_L. split; [done|]. split; [done|].
  intros c info. by rewrite lookup_empty.
Qed.

Lemma registry_wf_run_action n a :
  registry_wf (nd_world n) → registry_wf (nd_world (run_action clock n a)).
Proof.
  intros Hn. apply (run_action_inv registry_wf); try done.
  - apply registry_wf_core.
  - intros. by apply registry_wf_register.
  - intros. by apply registry_wf_update.
  - intros. by apply registry_wf_heartbeat.
  - intros. by apply registry_wf_remove.
  - intros w0 Hw0.
    by apply (registry_wf_frame w0); [apply periodic_sync_round_registry_frame|].
  - intros w0 Hw0. by apply (registry_wf_frame w0); [apply trigger_registry_frame|].
  - intros w0 Hw0. by apply (registry_wf_frame w0); [apply registry_frame_timer_fires|].
  - intros target st _.
    by apply (registry_wf_frame (nd_world n)); [apply registry_frame_emergency|].
Qed.

Lemma registry_wf_run_op w o : registry_wf w → registry_wf (run_op clock w o).
Proof. intros Hw. apply (registry_wf_run_action (mk_node w true) (act_op o) Hw). Qed.

(** X3: in every state the server reaches, whatever the messages and
    operations, each session is stored under the id it carries, the socket
    stored for that id is the socket of the session, and the stored sockets
    and per-client locks are exactly those of the registered ids. *)
Theorem registry_sockets_and_locks_agree (acts : list action) :
  registry_wf (nd_world (run_actions clock acts)).
Proof.
  unfold run_actions.
  assert (registry_wf (nd_world (started clock))) as Hinit by apply registry_wf_init.
  revert Hinit. generalize (started clock).
  induction acts as [|a acts IH]; intros n Hn; [done|].
  cbn [foldl]. by apply IH, registry_wf_run_action.
Qed.

(** ** The synchronisation window *)

Lemma sync_window_ok_core w1 w2 : same_core w1 w2 → sync_window_ok w1 → sync_window_ok w2.
Proof. unfold sync_window_ok. by intros (_ & _ & _ & -> & -> & _). Qed.

Lemma sync_window_ok_trigger w :
  sync_window_ok w → sync_window_ok (trigger_synchronization clock w).
Proof.
  unfold sync_window_ok. intros Hw.
  destruct (sync_in_progress (system_state w)) eqn:Hs.
  - rewrite trigger_busy by done. by rewrite Hs.
  - rewrite trigger_idle by done. world_cbn. rewrite length_app, Hw. done.
Qed.

Lemma sync_window_ok_periodic w :
  sync_window_ok w → sync_window_ok (periodic_sync_round clock w).
Proof.
  intros Hw. destruct (sync_in_progress (system_state w)) eqn:Hs.
  - by rewrite periodic_sync_round_busy.
  - rewrite periodic_sync_round_idle by done. case_bool_decide; [|done].
    by apply (sync_window_ok_trigger (set_time_reads S w)).
Qed.

Lemma sync_window_ok_timer_fires w : sync_window_ok w → sync_window_ok (timer_fires w).
Proof.
  unfold sync_window_ok, timer_fires. intros Hw.
  destruct (timers w) as [|[d []] rest] eqn:Ht; [by rewrite Ht|].
  cbn [run_callback]. unfold complete_synchronization. world_cbn.
  cbn [length] in Hw.
  destruct (sync_in_progress (system_state w)); lia.
Qed.

Lemma sync_window_ok_update client_id m w :
  sync_window_ok w → sync_window_ok (update_client_state clock client_id m w).
Proof.
  intros Hw. destruct (clients w !! client_id) as [info|] eqn:Hc.
  - rewrite (update_client_state_some clock _ _ _ _ Hc).
    by apply sync_window_ok_periodic.
  - by rewrite update_client_state_none.
Qed.

(** X4: in every state the server reaches by operations that run one
    after the other, a synchronisation is in progress exactly when one
    timer is pending, and there is never more than one: a window that was
    opened is closed by its timer, and no second window opens before.  It
    takes the operations to run one after the other: from such a state with
    no synchronisation in progress, two callers of
    [trigger_synchronization] that both test before either goes on leave
    two timers pending, and when the first has fired no synchronisation is
    in progress while the second is still pending. *)
Theorem sync_window_has_one_pending_timer (acts : list action) :
  let w := nd_world (run_actions clock acts) in
  let raced :=
    (trigger_sched clock [tr_test 1; tr_test 2; tr_enter 1; tr_enter 2] w).1 in
  length (timers w) = (if sync_in_progress (system_state w) then 1 else 0)%nat ∧
  (length (timers w) ≤ 1)%nat ∧
  sync_in_progress (system_state (timer_fires w)) = false ∧
  (sync_in_progress (system_state w) = false →
   length (timers raced) = 2%nat ∧
   sync_in_progress (system_state (timer_fires raced)) = false ∧
   length (timers (timer_fires raced)) = 1%nat).
Proof.
  cbn zeta.
  assert (sync_window_ok (nd_world (run_actions clock acts))) as Hok.
  { unfold run_actions.
    assert (sync_window_ok (nd_world (started clock))) as Hinit by done.
    revert Hinit. generalize (started clock).
    induction acts as [|a acts IH]; intros n Hn; [done|].
    cbn [foldl]. apply IH. apply (run_action_inv sync_window_ok); try done.
    - apply sync_window_ok_core.
    - intros. by rewrite register_client_eq.
    - intros. by apply sync_window_ok_update.
    - intros c w0 Hw0. unfold update_client_heartbeat.
      by destruct (clients w0 !! c).
    - intros c w0 Hw0. rewrite remove_client_eq. by destruct (clients w0 !! c).
    - intros. by apply sync_window_ok_periodic.
    - intros. by apply sync_window_ok_trigger.
    - intros. by apply sync_window_ok_timer_fires.
    - intros target st _. by rewrite emergency_override_eq. }
  pose proof (sync_window_ok_timer_fires _ Hok) as Hfire.
  unfold sync_window_ok in Hok, Hfire.
  generalize dependent (nd_world (run_actions clock acts)). intros w Hok Hfire.
  split; [done|]. split.
  { rewrite Hok. by destruct (sync_in_progress _); lia. }
  split.
  { unfold timer_fires in *.
    destruct (timers w) as [|[d []] rest]; [|done].
    by destruct (sync_in_progress _). }
  intros Hidle. rewrite Hidle in Hok. apply nil_length_inv in Hok.
  rewrite trigger_sched_race by (unfold trigger_test; by rewrite Hidle).
  rewrite !trigger_enter_eq. unfold timer_fires. world_cbn. rewrite Hok.
  cbn [app run_callback]. unfold complete_synchronization. by world_cbn.
Qed.

(** ** Emergency mode *)

Lemma emergency_mode_run_action n a :
  emergency_mode (system_state (nd_world (run_action clock n a))) =
  emergency_mode (system_state (nd_world n)) || is_emergency_action a.
Proof.
  destruct (is_emergency_action a) eqn:Hem.
  - destruct a as [[]| | |]; try done. cbn [run_action run_op nd_world].
    rewrite emergency_override_eq. by rewrite orb_true_r.
  - rewrite orb_false_r.
    apply (run_action_inv
             (λ w, emergency_mode (system_state w) =
                   emergency_mode (system_state (nd_world n)))); try done.
    + by intros w1 w2 (_ & _ & _ & -> & _).
    + intros c m s ad w0 <-.
      by destruct (register_client_frame clock c m s ad w0) as (_&_&_&_&_&_&_&_&->).
    + intros c m w0 <-.
      by destruct (update_client_state_frame clock c m w0) as (_&_&_&_&_&_&_&_&->).
    + intros c w0 <-.
      by destruct (update_client_heartbeat_frame clock c w0) as (_&_&_&_&_&_&_&_&->).
    + intros c w0 <-. rewrite remove_client_eq. by destruct (clients w0 !! c).
    + intros w0 <-.
      by destruct (periodic_sync_round_frame clock w0) as (_&_&_&_&_&_&_&_&->).
    + intros w0 <-. by destruct (trigger_frame clock w0) as (_&_&_&_&_&_&_&_&->).
    + intros w0 <-. unfold timer_fires. by destruct (timers w0) as [|[d []] rest].
    + intros target st ->. done.
Qed.

(** X5: emergency mode is on exactly when an emergency override was among
    the operations so far: nothing but [emergency_override] sets it, and
    nothing ever clears it. *)
Theorem emergency_mode_is_never_cleared (acts : list action) :
  emergency_mode (system_state (nd_world (run_actions clock acts))) =
  existsb is_emergency_action acts.
Proof.
  unfold run_actions.
  assert (∀ n, emergency_mode (system_state (nd_world (foldl (run_action clock) n acts))) =
               emergency_mode (system_state (nd_world n)) ||
               existsb is_emergency_action acts) as Hgen.
  { induction acts as [|a acts IH]; intros n; cbn [foldl existsb].
    - by rewrite orb_false_r.
    - by rewrite IH, emergency_mode_run_action, orb_assoc. }
  by rewrite Hgen.
Qed.

(** ** The lock and the counters *)

Lemma books_frame_trans w1 w2 w3 :
  books_frame w1 w2 → books_frame w2 w3 → books_frame w1 w3.
Proof.
  unfold books_frame. intros (?&?&?&?&?&?) (?&?&?&?&?&?). repeat split; congruence.
Qed.

Lemma books_frame_handler w w' : handler_frame w w' → books_frame w w'.
Proof. unfold books_frame. intros (?&?&?&_&_&?&?&?&_). by repeat split. Qed.

Lemma books_frame_remove client_id w : books_frame w (remove_client client_id w).
Proof. rewrite remove_client_eq. by destruct (clients w !! client_id). Qed.

Lemma handler_frame_handler client_id m client_socket address w :
  handler_frame w (handler clock client_id m client_socket address w).
Proof.
  unfold handler. repeat case_decide.
  - apply register_client_frame.
  - apply update_client_state_frame.
  - apply update_client_heartbeat_frame.
  - apply handler_frame_refl.
Qed.

Lemma books_frame_quiet_op w o :
  (∀ i, o ≠ op_message i) → (∀ target st, o ≠ op_emergency target st) →
  books_frame w (run_op clock w o).
Proof.
  intros Hm He. destruct o as [i|cid s|cid| | | |target st|s]; cbn [run_op].
  - by destruct (Hm i).
  - unfold handle_client_finally.
    destruct cid as [cid|]; [destruct (truthy_str cid)|]; try done.
    by destruct (books_frame_remove cid w) as (?&?&?&?&?&?).
  - apply books_frame_remove.
  - unfold system_monitor_round. cbn [time_time].
    apply (foldl_remove_client_inv (books_frame w)); [|done].
    intros c w0 Hw0. eapply books_frame_trans; [exact Hw0|apply books_frame_remove].
  - apply books_frame_handler, periodic_sync_round_frame.
  - unfold timer_fires. by destruct (timers w) as [|[d []] rest].
  - by destruct (He target st).
  - done.
Qed.

Lemma books_message w i :
  let w' := process_inbound clock w i in
  clients_lock w' = clients_lock w ∧
  active_locks w' = (active_locks w ∪ {["clients_lock"]}) ∖ {["clients_lock"]} ∧
  lock_events w' =
    lock_events w ++ [EvAcquire "clients_lock"; EvRelease "clients_lock"] ∧
  messages_processed (stats w') = S (messages_processed (stats w)) ∧
  deadlock_preventions (stats w') = S (deadlock_preventions (stats w)) ∧
  emergency_overrides (stats w') = emergency_overrides (stats w).
Proof.
  cbn zeta. destruct (process_inbound_fields clock w i) as (Hmp & Hlk & _ & _ & Hev).
  rewrite Hmp, Hlk, Hev, process_inbound_stats.
  destruct (handler_frame_handler (in_client_id i) (in_message i) (in_socket i)
              (in_address i) (after_acquire w)) as (_&Hact&_&_&_&_&Hdp&Heo&_).
  cbn [incr_messages_processed deadlock_preventions emergency_overrides].
  rewrite Hdp, Heo. split; [done|]. split; [|done].
  unfold process_inbound. rewrite process_client_message_eq. cbn [snd].
  rewrite release_one_eq. cbn zeta.
  destruct (dispatch_fields clock (in_client_id i) (in_message i) (in_socket i)
              (in_address i) (after_acquire w)) as (_ & Hact' & _).
  world_cbn. rewrite Hact'. world_cbn.
  by rewrite list_to_set_cons, list_to_set_nil, union_empty_r_L.
Qed.

Lemma run_action_books n a :
  let w := nd_world n in
  let w' := nd_world (run_action clock n a) in
  let k := (if is_message a then 1 else 0)%nat in
  clients_lock w' = clients_lock w ∧
  active_locks w' =
    (if is_message a
     then (active_locks w ∪ {["clients_lock"]}) ∖ {["clients_lock"]}
     else active_locks w) ∧
  lock_events w' =
    lock_events w ++
    (if is_message a then [EvAcquire "clients_lock"; EvRelease "clients_lock"]
     else []) ∧
  messages_processed (stats w') = (messages_processed (stats w) + k)%nat ∧
  deadlock_preventions (stats w') = (deadlock_preventions (stats w) + k)%nat ∧
  emergency_overrides (stats w') =
    (emergency_overrides (stats w) + if is_emergency_action a then 1 else 0)%nat.
Proof.
  cbn zeta.
  assert (∀ w', books_frame (nd_world n) w' → is_message a = false →
                is_emergency_action a = false →
    clients_lock w' = clients_lock (nd_world n) ∧
    active_locks w' = active_locks (nd_world n) ∧
    lock_events w' = lock_events (nd_world n) ++ [] ∧
    messages_processed (stats w') = (messages_processed (stats (nd_world n)) + 0)%nat ∧
    deadlock_preventions (stats w') =
      (deadlock_preventions (stats (nd_world n)) + 0)%nat ∧
    emergency_overrides (stats w') =
      (emergency_overrides (stats (nd_world n)) + 0)%nat) as Hquiet.
  { intros w' (-> & -> & -> & -> & -> & ->) _ _.
    rewrite app_nil_r, !Nat.add_0_r. done. }
  destruct a as [o| | |]; cbn [run_action nd_world is_message is_emergency_action].
  - destruct o as [i|cid s|cid| | | |target st|s];
      try (apply Hquiet; [by apply books_frame_quiet_op|done|done]).
    + cbn [run_op]. destruct (books_message (nd_world n) i) as (->&->&->&->&->&->).
      rewrite Nat.add_0_r. repeat split; try done; lia.
    + cbn [run_op]. rewrite emergency_override_eq. world_cbn.
      rewrite app_nil_r, !Nat.add_0_r. repeat split; try done; lia.
  - apply Hquiet; [|done|done]. apply books_frame_handler, trigger_frame.
  - rewrite get_system_status_state. apply Hquiet; done.
  - apply Hquiet; [|done|done]. unfold stop_server, with_clients_lock. cbn [nd_world].
    assert (books_frame (rlock_acquire (nd_world n))
      (foldl (λ w s, sock_close s w) (rlock_acquire (nd_world n))
         (map_to_list (client_sockets (rlock_acquire (nd_world n)))).*2)) as Hb.
    { apply (foldl_sock_close_inv (books_frame (rlock_acquire (nd_world n))));
        [|done]. by intros s w0 (?&?&?&?&?&?). }
    revert Hb.
    generalize (foldl (λ w s, sock_close s w) (rlock_acquire (nd_world n))
                  (map_to_list (client_sockets (rlock_acquire (nd_world n)))).*2).
    intros X (Hl & Ha & He & Hm & Hd & Ho).
    unfold rlock_release. rewrite Hl. world_cbn.
    unfold books_frame. cbn [default from_option id]. world_cbn.
    by rewrite Ha, He, Hm, Hd, Ho.
Qed.

Lemma run_step_counters n x :
  let s := stats (nd_world n) in
  let s' := stats (nd_world (run_step clock n x)) in
  messages_processed s' = (messages_processed s + if is_counted x then 1 else 0)%nat ∧
  deadlock_preventions s' = (deadlock_preventions s + if is_dispatch x then 1 else 0)%nat ∧
  emergency_overrides s' =
    (emergency_overrides s + if is_emergency_step x then 1 else 0)%nat.
Proof.
  cbn zeta. destruct x as [a|m client_socket address];
    cbn [run_step is_counted is_dispatch is_emergency_step nd_world].
  - by destruct (run_action_books n a) as (_ & _ & _ & -> & -> & ->).
  - destruct (process_arrival_counts clock (nd_world n)
                (mk_arrival id_unhashable m client_socket address))
      as (_ & Hm & Hd & He & _).
    cbn [ar_id ar_message ar_socket ar_address counted] in Hm, Hd, He.
    rewrite Hm, Hd, He. repeat split; lia.
Qed.

(** X6: after any run of the server, messages whose id cannot be hashed
    included, [messages_processed] is the number of messages whose handler
    returned (those with a string id, and those of unknown type),
    [deadlock_preventions] is the number of messages dispatched (the lock
    helper has no caller but the dispatcher, and counts before the handler
    runs), so the first never exceeds the second and both agree when every
    id is a string; [emergency_overrides] is the number of emergency
    overrides. *)
Theorem counters_count_messages_and_overrides (steps : list step) :
  let s := stats (nd_world (run_steps clock steps)) in
  messages_processed s = length (filter (λ x, is_counted x = true) steps) ∧
  deadlock_preventions s = length (filter (λ x, is_dispatch x = true) steps) ∧
  emergency_overrides s = length (filter (λ x, is_emergency_step x = true) steps) ∧
  (messages_processed s ≤ deadlock_preventions s)%nat ∧
  (Forall (λ x, ∃ a, x = st_action a) steps →
   deadlock_preventions s = messages_processed s).
Proof.
  cbn zeta. unfold run_steps.
  assert (∀ n,
    let s := stats (nd_world (foldl (run_step clock) n steps)) in
    messages_processed s =
      (messages_processed (stats (nd_world n)) +
       length (filter (λ x, is_counted x = true) steps))%nat ∧
    deadlock_preventions s =
      (deadlock_preventions (stats (nd_world n)) +
       length (filter (λ x, is_dispatch x = true) steps))%nat ∧
    emergency_overrides s =
      (emergency_overrides (stats (nd_world n)) +
       length (filter (λ x, is_emergency_step x = true) steps))%nat) as Hgen.
  { induction steps as [|x steps IH]; intros n; cbn zeta.
    - cbn [foldl]. rewrite !filter_nil. cbn [length]. lia.
    - cbn [foldl]. destruct (IH (run_step clock n x)) as (-> & -> & ->).
      destruct (run_step_counters n x) as (-> & -> & ->).
      rewrite !filter_cons.
      destruct (is_counted x), (is_dispatch x), (is_emergency_step x);
        repeat (case_decide; try done); cbn [length]; lia. }
  destruct (Hgen (started clock)) as (-> & -> & ->). cbn.
  split; [done|]. split; [done|]. split; [done|].
  assert (∀ l : list step,
            (length (filter (λ x, is_counted x = true) l) ≤
             length (filter (λ x, is_dispatch x = true) l))%nat) as Hle.
  { induction l as [|x l IH]; [done|]. rewrite !filter_cons.
    destruct x as [a|m client_socket address]; cbn [is_counted is_dispatch].
    - destruct (is_message a); repeat (case_decide; try done); cbn [length]; lia.
    - rewrite (decide_True (P := true = true)) by done.
      case_decide; cbn [length]; lia. }
  split; [apply Hle|].
  clear Hgen Hle. intros Hall. induction Hall as [|x l [a ->] _ IH]; [done|].
  rewrite !filter_cons. cbn [is_counted is_dispatch].
  destruct (is_message a); repeat (case_decide; try done); cbn [length]; lia.
Qed.

(** X7: after any run of the server the registry lock is free and
    [active_locks] is empty, and the helper's log is one acquisition
    followed by its release for each message dispatched: no operation
    leaves the lock held. *)
Theorem registry_lock_is_free_between_operations (acts : list action) :
  let w := nd_world (run_actions clock acts) in
  clients_lock w = 0%nat ∧ active_locks w = ∅ ∧
  lock_events w =
    mjoin (replicate (length (filter (λ a, is_message a = true) acts))
             [EvAcquire "clients_lock"; EvRelease "clients_lock"]).
Proof.
  cbn zeta. unfold run_actions.
  assert (∀ n, active_locks (nd_world n) = ∅ →
    let w := nd_world (foldl (run_action clock) n acts) in
    clients_lock w = clients_lock (nd_world n) ∧ active_locks w = ∅ ∧
    lock_events w =
      lock_events (nd_world n) ++
      mjoin (replicate (length (filter (λ a, is_message a = true) acts))
               [EvAcquire "clients_lock"; EvRelease "clients_lock"])) as Hgen.
  { induction acts as [|a acts IH]; intros n Hact; cbn zeta.
    - cbn [foldl]. rewrite filter_nil. cbn. by rewrite app_nil_r.
    - cbn [foldl].
      destruct (run_action_books n a) as (Hl & Ha & He & _).
      destruct (IH (run_action clock n a)) as (-> & -> & ->).
      { rewrite Ha, Hact. destruct (is_message a); [|done].
        by rewrite union_empty_l_L, difference_diag_L. }
      rewrite Hl, He, filter_cons.
      destruct (is_message a).
      + rewrite decide_True by done.
        cbn [length replicate mjoin list_join]. by rewrite <- !app_assoc.
      + rewrite decide_False by done. by rewrite app_nil_r. }
  destruct (Hgen (started clock)) as (-> & -> & ->); done.
Qed.

Lemma system_monitor_round_lookup w :
  let l := inactive_clients (clock (time_reads w)) (set_time_reads S w) in
  let w' := system_monitor_round clock w in
  (∀ c, clients w' !! c = if decide (c ∈ l) then None else clients w !! c) ∧
  (∀ c, client_sockets w' !! c =
        if decide (c ∈ l) then None else client_sockets w !! c) ∧
  sent w' = sent w ∧ closed w' = closed w ∧ time_reads w' = S (time_reads w).
Proof.
  cbn zeta. unfold system_monitor_round. cbn [time_time].
  destruct (foldl_remove_client_lookup
              (inactive_clients (clock (time_reads w)) (set_time_reads S w))
              (set_time_reads S w)) as (Hc & Hs & _ & Ht & Hse & Hcl & _).
  { apply inactive_clients_NoDup. }
  { intros c Hin. apply inactive_clients_elem in Hin as (info & Hi & _).
    by exists info. }
  by rewrite Ht, Hse, Hcl.
Qed.

(** X1: one round of the liveness sweep removes exactly the sessions whose
    heartbeat is more than 60 seconds before the clock reading of the
    round, with their stored sockets; every other session and every other
    stored socket stays as it was; the round sends nothing and closes
    nothing. *)
Theorem sweep_removes_exactly_the_stale (w : world) (client_id : string) :
  let current_time := clock (time_reads w) in
  let w' := system_monitor_round clock w in
  clients w' !! client_id =
    match clients w !! client_id with
    | Some info => if stale current_time info then None else Some info
    | None => None
    end ∧
  client_sockets w' !! client_id =
    match clients w !! client_id with
    | Some info =>
        if stale current_time info then None else client_sockets w !! client_id
    | None => client_sockets w !! client_id
    end ∧
  sent w' = sent w ∧ closed w' = closed w ∧ time_reads w' = S (time_reads w).
Proof.
  cbn zeta.
  destruct (system_monitor_round_lookup w) as (Hc & Hs & Hse & Hcl & Ht).
  rewrite Hc, Hs, Ht, Hse, Hcl.
  set (l := inactive_clients (clock (time_reads w)) (set_time_reads S w)).
  assert (client_id ∈ l ↔
          ∃ info, clients w !! client_id = Some info ∧
                  stale (clock (time_reads w)) info = true) as Hl.
  { exact (inactive_clients_elem (clock (time_reads w)) (set_time_reads S w)
             client_id). }
  destruct (decide (client_id ∈ l)) as [Hin|Hin].
  - apply Hl in Hin as (info & -> & ->). done.
  - destruct (clients w !! client_id) as [info|] eqn:Hinfo; [|done].
    destruct (stale (clock (time_reads w)) info) eqn:Hst; [|done].
    destruct Hin. apply Hl. by exists info.
Qed.

(** X2: a heartbeat of a registered session writes the clock reading as
    its [last_heartbeat] and nothing else of the session; the sweep that
    follows keeps the session when its own clock reading is at most 60
    seconds later and removes it otherwise. *)
Theorem heartbeat_keeps_session_alive (w : world) (client_id : string)
    (info : client_info) :
  clients w !! client_id = Some info →
  let w1 := update_client_heartbeat clock client_id w in
  let info1 :=
    mk_client (ci_id info) (ci_intersection info) (ci_position info) (ci_state info)
      (clock (time_reads w)) (ci_socket info) (ci_address info)
      (ci_state_changes info) in
  w1 = set_clients (insert client_id info1) (set_time_reads S w) ∧
  clients (system_monitor_round clock w1) !! client_id =
    if bool_decide (clock (S (time_reads w)) - clock (time_reads w) > 60)
    then None else Some info1.
Proof.
  intros Hinfo. cbn zeta.
  set (info1 := mk_client (ci_id info) (ci_intersection info) (ci_position info)
                  (ci_state info) (clock (time_reads w)) (ci_socket info)
                  (ci_address info) (ci_state_changes info)).
  assert (update_client_heartbeat clock client_id w =
          set_clients (insert client_id info1) (set_time_reads S w)) as Heq.
  { unfold update_client_heartbeat. by rewrite Hinfo. }
  split; [done|]. rewrite Heq.
  set (w1 := set_clients (insert client_id info1) (set_time_reads S w)).
  destruct (system_monitor_round_lookup w1) as (Hc & _). rewrite Hc.
  assert (clients w1 !! client_id = Some info1) as Hlook.
  { subst w1. world_cbn. by rewrite lookup_insert_eq. }
  rewrite Hlook.
  pose proof (inactive_clients_elem (clock (time_reads w1)) (set_time_reads S w1)
                client_id) as Hl.
  destruct (decide (client_id ∈ _)) as [Hin|Hin].
  - apply Hl in Hin as (info' & Hi & Hst).
    change (clients w1 !! client_id = Some info') in Hi.
    rewrite Hlook in Hi. injection Hi as <-.
    unfold stale in Hst. apply bool_decide_eq_true in Hst.
    by rewrite bool_decide_true.
  - case_bool_decide as Hgt; [|done]. destruct Hin. apply Hl. exists info1.
    split; [done|]. unfold stale. by apply bool_decide_eq_true.
Qed.

(** ** Registration *)

Lemma total_clients_ok_run_action n a :
  total_clients_ok (nd_world n) → total_clients_ok (nd_world (run_action clock n a)).
Proof.
  intros Hn. apply (run_action_inv total_clients_ok); try done.
  - unfold total_clients_ok. by intros w1 w2 (-> & _ & _ & -> & _).
  - intros. unfold total_clients_ok. by rewrite register_client_eq.
  - intros c m w0 Hw0. unfold total_clients_ok in *.
    destruct (clients w0 !! c) as [info|] eqn:Hc.
    + destruct (update_client_state_clients clock c m w0 info Hc) as (->&_&_&->).
      rewrite map_size_insert_Some; [done|by eexists].
    + by rewrite update_client_state_none.
  - intros c w0 Hw0. unfold total_clients_ok, update_client_heartbeat in *.
    destruct (clients w0 !! c) as [info|] eqn:Hc; [|done]. cbn [time_time]. world_cbn.
    rewrite map_size_insert_Some; [done|by eexists].
  - intros. by apply remove_client_total_clients_ok.
  - intros w0 Hw0.
    by apply (total_clients_ok_frame w0);
      [apply periodic_sync_round_registry_frame|].
  - intros w0 Hw0.
    by apply (total_clients_ok_frame w0); [apply trigger_registry_frame|].
  - intros w0 Hw0.
    by apply (total_clients_ok_frame w0); [apply registry_frame_timer_fires|].
  - intros target st _.
    by apply (total_clients_ok_frame (nd_world n));
      [apply registry_frame_emergency|].
Qed.

(** What holds of the registry in every state the server reaches. *)
Lemma reachable_registry (acts : list action) :
  registry_wf (nd_world (run_actions clock acts)) ∧
  total_clients_ok (nd_world (run_actions clock acts)).
Proof.
  unfold run_actions.
  assert (registry_wf (nd_world (started clock)) ∧
          total_clients_ok (nd_world (started clock))) as Hinit.
  { split; [apply registry_wf_init|done]. }
  revert Hinit. generalize (started clock).
  induction acts as [|a acts IH]; intros n [Hwf Hok]; [done|].
  cbn [foldl]. apply IH.
  split; [by apply registry_wf_run_action | by apply total_clients_ok_run_action].
Qed.

Lemma registry_wf_sockets w : registry_wf w → client_sockets w = ci_socket <$> clients w.
Proof.
  intros (Hd & _ & Hs). apply map_eq. intros c. rewrite lookup_fmap.
  destruct (clients w !! c) as [info|] eqn:Hc.
  - by destruct (Hs c info Hc) as [_ ->].
  - apply not_elem_of_dom. rewrite Hd. by apply not_elem_of_dom.
Qed.

(** X8: registering an id that is already registered replaces its session:
    the new session starts with the fields of the new message and
    [state_changes] 0, the stored socket becomes the new one, the
    confirmation goes to the new socket, [total_clients] stays the size of
    the registry, every other session is untouched, and the socket of the
    old session is not closed. *)
Theorem reregistration_replaces_session (w : world) (client_id : string) (m : message)
    (client_socket : sock) (address : addr) (old : client_info) :
  clients w !! client_id = Some old →
  let w' := register_client clock client_id m client_socket address w in
  clients w' !! client_id =
    Some (registered_info client_id m client_socket address (clock (time_reads w))) ∧
  client_sockets w' !! client_id = Some client_socket ∧
  size (clients w') = size (clients w) ∧
  total_clients (system_state w') = size (clients w) ∧
  (∀ c, c ≠ client_id →
     clients w' !! c = clients w !! c ∧
     client_sockets w' !! c = client_sockets w !! c) ∧
  closed w' = closed w ∧
  sent w' =
    sent w ++ [(client_socket,
                registration_confirmed client_id (clock (S (time_reads w))),
                send_ok client_socket w)].
Proof.
  intros Hold. cbn zeta. rewrite register_client_eq. cbn zeta. world_cbn.
  rewrite !lookup_insert_eq.
  rewrite map_size_insert_Some by (by eexists).
  repeat split; try done; by rewrite lookup_insert_ne.
Qed.

(** X9: in any state the server reaches, registering an id that is not
    registered and then removing it gives back the registry, the stored
    sockets, the per-client locks and the system state as they were
    ([total_clients] goes up by one and down again); what remains is the
    confirmation that was sent, and the socket is still open. *)
Theorem register_then_remove_restores_registry (acts : list action)
    (client_id : string) (m : message) (client_socket : sock) (address : addr) :
  let w := nd_world (run_actions clock acts) in
  clients w !! client_id = None →
  let w1 := register_client clock client_id m client_socket address w in
  let w2 := remove_client client_id w1 in
  total_clients (system_state w1) = S (total_clients (system_state w)) ∧
  clients w2 = clients w ∧ client_sockets w2 = client_sockets w ∧
  client_locks w2 = client_locks w ∧ system_state w2 = system_state w ∧
  closed w2 = closed w ∧
  sent w2 =
    sent w ++ [(client_socket,
                registration_confirmed client_id (clock (S (time_reads w))),
                send_ok client_socket w)].
Proof.
  cbn zeta. destruct (reachable_registry acts) as [(Hd & Hl & _) Hok].
  generalize dependent (nd_world (run_actions clock acts)). intros w Hd Hl Hok Hnone.
  assert (client_sockets w !! client_id = None) as Hs.
  { apply not_elem_of_dom. rewrite Hd. by apply not_elem_of_dom. }
  assert (client_id ∉ client_locks w) as Hlk.
  { rewrite Hl. by apply not_elem_of_dom. }
  rewrite remove_client_eq, register_client_eq. cbn zeta. world_cbn.
  rewrite lookup_insert_eq. world_cbn.
  rewrite !delete_insert_id by done.
  rewrite map_size_insert_None by done.
  unfold total_clients_ok in Hok. rewrite Hok.
  split; [done|]. split; [done|]. split; [done|]. split; [|split; [|done]].
  - rewrite difference_union_distr_l_L, difference_diag_L, union_empty_l_L.
    apply difference_disjoint_L. by apply disjoint_singleton_r.
  - rewrite <- Hok. by destruct (system_state w).
Qed.

(** X10: in any state the server reaches, a broadcast calls [send] once
    for each registered session, on the socket of that session and with the
    message given, so the number of calls is [total_clients]; whatever the
    calls return, nothing but the log of sends changes: no session is
    removed when a send fails. *)
Theorem broadcast_reaches_every_session (acts : list action) (msg : message) :
  let w := nd_world (run_actions clock acts) in
  ∃ calls, broadcast_message msg w = add_sent calls w ∧
    fst <$> calls ≡ₚ
      (λ kv : string * client_info, (ci_socket kv.2, msg)) <$>
      map_to_list (clients w) ∧
    length calls = total_clients (system_state w).
Proof.
  cbn zeta. destruct (reachable_registry acts) as [Hwf Hok].
  generalize dependent (nd_world (run_actions clock acts)). intros w Hwf Hok.
  exists (broadcast_calls msg w). split; [apply broadcast_message_eq|]. split.
  - rewrite (broadcast_calls_sent msg w), (registry_wf_sockets w Hwf), map_to_list_fmap.
    by rewrite <- list_fmap_compose.
  - unfold broadcast_calls. rewrite length_fmap, length_map_to_list.
    rewrite (registry_wf_sockets w Hwf), map_size_fmap. by rewrite Hok.
Qed.

(** ** The connection loop *)

Lemma process_message_session w client_id m client_socket address :
  delete client_id
    (clients (process_client_message clock client_id m client_socket address w).2) =
  delete client_id (clients w).
Proof.
  destruct (process_inbound_core w (mk_inbound client_id m client_socket address))
    as (Hc & _).
  unfold process_inbound in Hc. cbn [in_client_id in_message in_socket in_address] in Hc.
  rewrite Hc. unfold handler. repeat case_decide.
  - rewrite register_client_eq. cbn zeta. world_cbn. by rewrite delete_insert_eq.
  - destruct (clients (after_acquire w) !! client_id) as [info|] eqn:Hinfo.
    + destruct (update_client_state_clients clock client_id m _ info Hinfo) as (-> & _).
      by rewrite delete_insert_eq.
    + by rewrite update_client_state_none.
  - unfold update_client_heartbeat.
    destruct (clients (after_acquire w) !! client_id) as [info|]; [|done].
    cbn [time_time]. world_cbn. by rewrite delete_insert_eq.
  - done.
Qed.

Lemma foldl_process_session client_id client_socket address
    (msgs : list (string * message)) : ∀ w,
  Forall (λ im, im.1 = client_id) msgs → registry_wf w → total_clients_ok w →
  let w1 :=
    foldl (λ w im, (process_client_message clock im.1 im.2 client_socket address w).2)
      w msgs in
  registry_wf w1 ∧ total_clients_ok w1 ∧
  delete client_id (clients w1) = delete client_id (clients w) ∧
  closed w1 = closed w ∧ clients_lock w1 = clients_lock w ∧
  messages_processed (stats w1) = (messages_processed (stats w) + length msgs)%nat.
Proof.
  induction msgs as [|[cid m] msgs IH]; intros w Hall Hwf Hok; cbn zeta.
  - cbn [foldl length]. by rewrite Nat.add_0_r.
  - cbn [foldl fst snd length]. apply Forall_cons in Hall as [Hcid Hall].
    cbn [fst] in Hcid. subst cid.
    pose (i := mk_inbound client_id m client_socket address).
    destruct (process_inbound_fields clock w i) as (Hmp & Hlk & Hcl & _).
    destruct (IH (process_inbound clock w i) Hall) as (Hwf' & Hok' & Hd & Hc & Hl & Hm).
    { apply (registry_wf_run_op w (op_message i) Hwf). }
    { apply (run_op_total_clients_ok clock w (op_message i) Hok). }
    split; [exact Hwf'|]. split; [exact Hok'|].
    change (process_client_message clock client_id m client_socket address w).2
      with (process_inbound clock w i).
    rewrite Hd, Hc, Hl, Hm, Hmp, Hlk, Hcl.
    split; [apply process_message_session|]. repeat split; try done. lia.
Qed.

(** X13: a connection whose messages all carry one non-empty id leaves no
    session behind: when it ends, the registry, the stored sockets and the
    per-client locks are those from before the connection without that id
    (so a session that another connection had registered under the same id
    is removed too), [total_clients] is the size of that registry, the
    socket of the connection is closed, the lock is at its level and every
    message was counted. *)
Theorem connection_leaves_no_session (acts : list action) (client_id : string)
    (client_socket : sock) (address : addr) (msgs : list (string * message)) :
  let w := nd_world (run_actions clock acts) in
  client_id ≠ "" → msgs ≠ [] → Forall (λ im, im.1 = client_id) msgs →
  let w' := handle_client clock client_socket address msgs w in
  clients w' = delete client_id (clients w) ∧
  client_sockets w' = delete client_id (client_sockets w) ∧
  client_locks w' = client_locks w ∖ {[client_id]} ∧
  total_clients (system_state w') = size (delete client_id (clients w)) ∧
  closed w' = {[client_socket]} ∪ closed w ∧
  clients_lock w' = clients_lock w ∧
  messages_processed (stats w') = (messages_processed (stats w) + length msgs)%nat.
Proof.
  cbn zeta. destruct (reachable_registry acts) as [Hwf Hok].
  generalize dependent (nd_world (run_actions clock acts)).
  intros w Hwf Hok Hne Hmsgs Hall.
  unfold handle_client.
  destruct (foldl_process_session client_id client_socket address msgs w Hall Hwf Hok)
    as (Hwf1 & Hok1 & Hd & Hc & Hl & Hm).
  revert Hwf1 Hok1 Hd Hc Hl Hm.
  generalize (foldl
    (λ w im, (process_client_message clock im.1 im.2 client_socket address w).2) w msgs).
  intros w1 Hwf1 Hok1 Hd Hc Hl Hm.
  assert (fst <$> last msgs = Some client_id) as ->.
  { destruct (last msgs) as [x|] eqn:Hlast.
    - apply last_Some in Hlast as [l' ->]. apply Forall_app in Hall as [_ Hx].
      apply Forall_inv in Hx. exact (f_equal Some Hx).
    - by apply last_None in Hlast. }
  unfold handle_client_finally.
  assert (truthy_str client_id = true) as -> by (by destruct client_id).
  assert (delete client_id (client_sockets w1) = delete client_id (client_sockets w))
    as Hds.
  { rewrite (registry_wf_sockets w1 Hwf1), (registry_wf_sockets w Hwf).
    by rewrite <- !fmap_delete, Hd. }
  assert (client_locks w1 ∖ {[client_id]} = client_locks w ∖ {[client_id]}) as Hdl.
  { destruct Hwf1 as (_ & -> & _), Hwf as (_ & -> & _).
    by rewrite <- !dom_delete_L, Hd. }
  rewrite remove_client_eq.
  destruct (clients w1 !! client_id) as [info|] eqn:Hlook.
  - unfold sock_close. world_cbn. by rewrite Hd, Hds, Hdl, Hc, Hl, Hm.
  - unfold sock_close. world_cbn. rewrite Hc, Hl, Hm, <- Hd, <- Hds, <- Hdl.
    assert (client_sockets w1 !! client_id = None) as Hs.
    { apply not_elem_of_dom. destruct Hwf1 as (-> & _). by apply not_elem_of_dom. }
    assert (client_id ∉ client_locks w1) as Hnl.
    { destruct Hwf1 as (_ & -> & _). by apply not_elem_of_dom. }
    rewrite !delete_id by done.
    rewrite difference_disjoint_L by (by apply disjoint_singleton_r).
    done.
Qed.

Lemma process_message_other w client_id m client_socket address c :
  c ≠ client_id →
  let w' := (process_client_message clock client_id m client_socket address w).2 in
  clients w' !! c = clients w !! c ∧ client_sockets w' !! c = client_sockets w !! c ∧
  closed w' = closed w.
Proof.
  intros Hne. cbn zeta.
  pose (i := mk_inbound client_id m client_socket address).
  destruct (process_inbound_core w i) as (Hc & Hs & _).
  destruct (process_inbound_fields clock w i) as (_ & _ & Hcl & _).
  change (process_client_message clock client_id m client_socket address w).2
    with (process_inbound clock w i).
  rewrite Hc, Hs, Hcl. cbn [i in_client_id in_message in_socket in_address].
  split; [|split; [|done]]; unfold handler; repeat case_decide; try done.
  - rewrite register_client_eq. cbn zeta. world_cbn. by rewrite lookup_insert_ne.
  - destruct (clients (after_acquire w) !! client_id) as [info|] eqn:Hinfo.
    + destruct (update_client_state_clients clock client_id m _ info Hinfo) as (-> & _).
      by rewrite lookup_insert_ne.
    + by rewrite update_client_state_none.
  - unfold update_client_heartbeat.
    destruct (clients (after_acquire w) !! client_id) as [info|]; [|done].
    cbn [time_time]. world_cbn. by rewrite lookup_insert_ne.
  - rewrite register_client_eq. cbn zeta. world_cbn. by rewrite lookup_insert_ne.
  - destruct (clients (after_acquire w) !! client_id) as [info|] eqn:Hinfo.
    + by destruct (update_client_state_clients clock client_id m _ info Hinfo)
        as (_ & -> & _).
    + by rewrite update_client_state_none.
  - unfold update_client_heartbeat.
    by destruct (clients (after_acquire w) !! client_id) as [info|].
Qed.

Lemma foldl_process_other c client_socket address (msgs : list (string * message)) :
  ∀ w, Forall (λ im, im.1 ≠ c) msgs →
  let w' :=
    foldl (λ w im, (process_client_message clock im.1 im.2 client_socket address w).2)
      w msgs in
  clients w' !! c = clients w !! c ∧ client_sockets w' !! c = client_sockets w !! c ∧
  closed w' = closed w.
Proof.
  induction msgs as [|[cid m] msgs IH]; intros w Hall; cbn zeta; [done|].
  cbn [foldl fst snd]. apply Forall_cons in Hall as [Hne Hall]. cbn [fst] in Hne.
  destruct (IH (process_client_message clock cid m client_socket address w).2 Hall)
    as (-> & -> & ->).
  by apply process_message_other.
Qed.

(** X16: the cleanup at the end of a connection removes only the id of
    the last message.  A session that the connection registered under an
    id [a], followed by messages that all carry other ids, is still
    registered when the connection is gone: it is in the registry with the
    socket of the connection, that socket is closed, and every later send
    to [a] fails. *)
Theorem session_outlives_connection (w : world) (client_socket : sock)
    (address : addr) (pre post : list (string * message)) (a : string) (m : message) :
  get "type" VNone m = VStr "register" →
  post ≠ [] → Forall (λ im, im.1 ≠ a) post →
  let w' := handle_client clock client_socket address (pre ++ (a, m) :: post) w in
  (∃ t, clients w' !! a = Some (registered_info a m client_socket address t)) ∧
  client_sockets w' !! a = Some client_socket ∧
  client_socket ∈ closed w' ∧
  ∀ msg, (send_to_client a msg w').1 = false.
Proof.
  intros Hreg Hpost Hall. cbn zeta. unfold handle_client.
  rewrite foldl_app. cbn [foldl fst snd].
  set (w0 := foldl _ w pre).
  destruct (foldl_process_other a client_socket address post
              (process_client_message clock a m client_socket address w0).2 Hall)
    as (Hc & Hs & _).
  revert Hc Hs.
  generalize (foldl
    (λ w im, (process_client_message clock im.1 im.2 client_socket address w).2)
    (process_client_message clock a m client_socket address w0).2 post).
  intros w1 Hc Hs.
  assert (clients (process_client_message clock a m client_socket address w0).2 !! a =
            Some (registered_info a m client_socket address (clock (time_reads w0))) ∧
          client_sockets (process_client_message clock a m client_socket address w0).2
            !! a = Some client_socket) as [Hc0 Hs0].
  { destruct (process_inbound_core w0 (mk_inbound a m client_socket address))
      as (Hc0 & Hs0 & _).
    unfold process_inbound in Hc0, Hs0.
    cbn [in_client_id in_message in_socket in_address] in Hc0, Hs0.
    rewrite Hc0, Hs0. unfold handler. rewrite decide_True by done.
    rewrite register_client_eq. cbn zeta. world_cbn. by rewrite !lookup_insert_eq. }
  rewrite Hc0 in Hc. rewrite Hs0 in Hs.
  assert (∃ b, fst <$> last (pre ++ (a, m) :: post) = Some b ∧ b ≠ a) as (b & -> & Hb).
  { destruct (last post) as [x|] eqn:Hlast; [|by apply last_None in Hlast].
    apply last_Some in Hlast as [l' ->]. apply Forall_app in Hall as [_ Hx].
    apply Forall_inv in Hx. exists x.1. split; [|done].
    by rewrite app_comm_cons, app_assoc, last_snoc. }
  assert (clients (if truthy_str b then remove_client b w1 else w1) !! a =
            clients w1 !! a ∧
          client_sockets (if truthy_str b then remove_client b w1 else w1) !! a =
            client_sockets w1 !! a ∧
          closed (if truthy_str b then remove_client b w1 else w1) = closed w1)
    as (Hc' & Hs' & Hcl').
  { destruct (truthy_str b); [|done]. rewrite remove_client_eq.
    destruct (clients w1 !! b); [|done]. world_cbn.
    by rewrite !lookup_delete_ne. }
  unfold handle_client_finally.
  revert Hc' Hs' Hcl'. generalize (if truthy_str b then remove_client b w1 else w1).
  intros w2 Hc' Hs' Hcl'. unfold sock_close. world_cbn.
  rewrite Hc', Hs', Hc, Hs.
  split; [by eexists|]. split; [done|]. split; [by apply elem_of_union_l, elem_of_singleton|].
  intros msg. unfold send_to_client. world_cbn. rewrite Hs', Hs.
  unfold sock_send, send_ok. world_cbn. apply bool_decide_eq_false.
  intros Hn. apply Hn. by apply elem_of_union_l, elem_of_union_l, elem_of_singleton.
Qed.

(** ** A server nobody registered with *)

Lemma unvisited_core w1 w2 : same_core w1 w2 → unvisited w1 → unvisited w2.
Proof. unfold unvisited. by intros (-> & -> & -> & -> & _ & -> & _). Qed.

Lemma unvisited_remove client_id w : unvisited w → remove_client client_id w = w.
Proof. intros (Hc & _). rewrite remove_client_eq, Hc. by rewrite lookup_empty. Qed.

Lemma unvisited_trigger w : unvisited w → unvisited (trigger_synchronization clock w).
Proof.
  intros Hw. destruct (sync_in_progress (system_state w)) eqn:Hs.
  - by rewrite trigger_busy.
  - rewrite trigger_idle by done. destruct Hw as (Hc & Hso & Hl & Hse & Ht).
    unfold unvisited, broadcast_calls. world_cbn.
    by rewrite Hso, Hse, map_to_list_empty.
Qed.

Lemma unvisited_periodic w : unvisited w → unvisited (periodic_sync_round clock w).
Proof.
  intros Hw. destruct (sync_in_progress (system_state w)) eqn:Hs.
  - by rewrite periodic_sync_round_busy.
  - rewrite periodic_sync_round_idle by done. case_bool_decide; [|done].
    by apply (unvisited_trigger (set_time_reads S w)).
Qed.

Lemma unvisited_handler client_id m client_socket address w :
  get "type" VNone m ≠ VStr "register" → unvisited w →
  handler clock client_id m client_socket address w = w.
Proof.
  intros Hty (Hc & _). unfold handler. rewrite decide_False by done.
  repeat case_decide; try done.
  - apply update_client_state_none. by rewrite Hc, lookup_empty.
  - unfold update_client_heartbeat. by rewrite Hc, lookup_empty.
Qed.

Lemma unvisited_run_action n a :
  is_register_action a = false →
  unvisited (nd_world n) → unvisited (nd_world (run_action clock n a)).
Proof.
  intros Ha Hw. destruct a as [o| | |]; cbn [run_action nd_world].
  - destruct o as [i|cid s|cid| | | |target st|s]; cbn [run_op].
    + cbn [is_register_action] in Ha. apply bool_decide_eq_false in Ha.
      apply (unvisited_core _ _ (process_inbound_core (nd_world n) i)).
      rewrite unvisited_handler;
        [|done|by apply (unvisited_core _ _ (same_core_after_acquire (nd_world n)))].
      by apply (unvisited_core _ _ (same_core_after_acquire (nd_world n))).
    + unfold handle_client_finally.
      destruct cid as [cid|]; [destruct (truthy_str cid)|]; try done.
      by rewrite unvisited_remove.
    + by rewrite unvisited_remove.
    + unfold system_monitor_round. cbn [time_time].
      apply foldl_remove_client_inv; [|done].
      intros c w0 Hw0. by rewrite unvisited_remove.
    + by apply unvisited_periodic.
    + unfold timer_fires. by destruct (timers (nd_world n)) as [|[d []] rest].
    + rewrite emergency_override_eq. destruct Hw as (Hc & Hso & Hl & Hse & Ht).
      unfold unvisited, scoped_calls, broadcast_calls. cbn zeta. world_cbn.
      rewrite Hc, Hso, Hse, !map_to_list_empty. by destruct (truthy_target target).
    + done.
  - by apply unvisited_trigger.
  - by rewrite get_system_status_state.
  - unfold stop_server, with_clients_lock. cbn [nd_world].
    apply (unvisited_core _ _ (same_core_unlock _)).
    apply foldl_sock_close_inv; [done|].
    by apply (unvisited_core (nd_world n)).
Qed.

Lemma unvisited_run_actions (acts : list action) : ∀ n,
  existsb is_register_action acts = false → unvisited (nd_world n) →
  unvisited (nd_world (foldl (run_action clock) n acts)).
Proof.
  induction acts as [|a acts IH]; intros n Hacts Hn; [done|].
  cbn [existsb] in Hacts. apply orb_false_iff in Hacts as [Ha Hacts].
  cbn [foldl]. apply IH; [done|]. by apply unvisited_run_action.
Qed.

(** X15: the only way into the registry is a message of type [register].
    A server that has received no such message, whatever else happened to
    it, has no session, no stored socket, [total_clients] 0, and has never
    called [send]: state updates and heartbeats of unregistered ids are
    dropped, and synchronisations and emergency overrides reach nobody. *)
Theorem nothing_is_sent_before_a_registration (acts : list action) :
  existsb is_register_action acts = false →
  let w := nd_world (run_actions clock acts) in
  clients w = ∅ ∧ client_sockets w = ∅ ∧ client_locks w = ∅ ∧ sent w = [] ∧
  total_clients (system_state w) = 0%nat.
Proof.
  intros Hacts. by apply (unvisited_run_actions acts (started clock)).
Qed.

(** ** Shutdown and status *)

Lemma close_all_empty w : close_all ∅ w = w.
Proof. destruct w. unfold close_all. world_simpl. by rewrite union_empty_l_L. Qed.

Lemma foldl_sock_close_eq (l : list sock) : ∀ w,
  foldl (λ w s, sock_close s w) w l = close_all (list_to_set l) w.
Proof.
  induction l as [|x l IH]; intros w; cbn [foldl].
  - by rewrite list_to_set_nil, close_all_empty.
  - rewrite IH, list_to_set_cons. unfold close_all, sock_close. destruct w.
    world_simpl. f_equal.
    by rewrite (comm_L (∪) {[x]} (list_to_set l)), <- (assoc_L (∪)).
Qed.

Lemma stop_server_eq n :
  stop_server n =
  mk_node (close_all (stored_sockets (nd_world n)) (nd_world n)) false.
Proof.
  unfold stop_server, stored_sockets. rewrite with_clients_lock_eq.
  - by rewrite foldl_sock_close_eq.
  - by rewrite !foldl_sock_close_eq.
Qed.

Lemma elem_of_stored_sockets s w :
  s ∈ stored_sockets w ↔ ∃ client_id, client_sockets w !! client_id = Some s.
Proof.
  unfold stored_sockets. rewrite elem_of_list_to_set, list_elem_of_fmap. split.
  - intros ([k v] & -> & Hin). exists k. by apply elem_of_map_to_list.
  - intros (cid & H). exists (cid, s). split; [done|]. by apply elem_of_map_to_list.
Qed.

(** X11: [stop_server] clears the flag and closes exactly the sockets that
    are stored at that moment, so that no stored session can be sent
    anything afterwards; it leaves the sessions registered, sends nothing,
    and a second call changes nothing. *)
Theorem stop_server_closes_stored_sockets (n : node) :
  let n' := stop_server n in
  running n' = false ∧
  (∀ s, s ∈ closed (nd_world n') ↔
        s ∈ closed (nd_world n) ∨
        ∃ client_id, client_sockets (nd_world n) !! client_id = Some s) ∧
  (∀ client_id msg, (send_to_client client_id msg (nd_world n')).1 = false) ∧
  clients (nd_world n') = clients (nd_world n) ∧
  client_sockets (nd_world n') = client_sockets (nd_world n) ∧
  system_state (nd_world n') = system_state (nd_world n) ∧
  sent (nd_world n') = sent (nd_world n) ∧
  stop_server n' = n'.
Proof.
  cbn zeta. rewrite !stop_server_eq. destruct n as [w r]. cbn [nd_world running].
  split; [done|]. split; [|split; [|repeat split; try done]].
  - intros s. unfold close_all. world_cbn.
    rewrite elem_of_union, elem_of_stored_sockets. tauto.
  - intros cid msg. unfold send_to_client, close_all. world_cbn.
    destruct (client_sockets w !! cid) as [s|] eqn:Hs; [|done].
    unfold sock_send, send_ok. world_cbn. apply bool_decide_eq_false.
    intros Hn. apply Hn. apply elem_of_union_l, elem_of_union_l.
    apply elem_of_stored_sockets. by exists cid.
  - f_equal. unfold close_all, stored_sockets. destruct w. world_simpl. f_equal.
    by rewrite (assoc_L (∪)), (idemp_L (∪)).
Qed.

Lemma reachable_lock_free (acts : list action) :
  clients_lock (nd_world (run_actions clock acts)) = 0%nat ∧
  active_locks (nd_world (run_actions clock acts)) = ∅.
Proof.
  unfold run_actions.
  assert (clients_lock (nd_world (started clock)) = 0%nat ∧
          active_locks (nd_world (started clock)) = ∅) as Hinit by done.
  revert Hinit. generalize (started clock).
  induction acts as [|a acts IH]; intros n [Hl Ha]; [done|].
  cbn [foldl]. apply IH.
  destruct (run_action_books n a) as (-> & -> & _). split; [done|].
  rewrite Ha. destruct (is_message a); [|done].
  by rewrite union_empty_l_L, difference_diag_L.
Qed.

(** X12: a status taken in any state the server reaches is consistent and
    costs nothing: its [total_clients] is the number of entries of its
    [clients], which is also the [total_clients] of its system state; it
    has one entry per registered session, with the four reported fields of
    that session; its list of active locks is empty; and the server is
    left exactly as it was. *)
Theorem status_snapshot_is_consistent (acts : list action) :
  let n := run_actions clock acts in
  let st := (get_system_status n).1 in
  (get_system_status n).2 = n ∧
  st_running st = running n ∧
  st_total_clients st = size (st_clients st) ∧
  st_total_clients st = total_clients (st_system_state st) ∧
  (∀ client_id,
     st_clients st !! client_id = client_status_of <$> clients (nd_world n) !! client_id) ∧
  st_system_state st = system_state (nd_world n) ∧
  st_stats st = stats (nd_world n) ∧
  st_active_locks st = [].
Proof.
  cbn zeta. destruct (reachable_registry acts) as [_ Hok].
  destruct (reachable_lock_free acts) as [_ Hact].
  split; [apply get_system_status_state|].
  generalize dependent (run_actions clock acts). intros [w r] Hok Hact.
  unfold get_system_status.
  cbn [fst nd_world running st_running st_total_clients st_clients st_system_state
       st_stats st_active_locks] in *.
  world_cbn. rewrite map_size_fmap, Hact, elements_empty.
  repeat split; try done.
  intros cid. by rewrite lookup_fmap.
Qed.

(** ** The return value of the lock helper *)

Lemma filter_clients_lock_sorted lock_names :
  filter (λ x, x = "clients_lock") (sorted_locks lock_names) =
  replicate (length (filter (λ x, x = "clients_lock") lock_names)) "clients_lock".
Proof.
  symmetry. apply replicate_as_Forall. split.
  - by rewrite sorted_locks_perm.
  - apply Forall_forall. intros x Hx. by apply list_elem_of_filter in Hx as [-> _].
Qed.

Lemma list_to_set_replicate (k : nat) (x : string) :
  list_to_set (replicate k x) =@{gset string} if decide (k = 0%nat) then ∅ else {[x]}.
Proof.
  induction k as [|k IH]; [done|]. cbn [replicate]. rewrite list_to_set_cons, IH.
  destruct (decide (k = 0%nat)); rewrite decide_False by lia.
  - by rewrite union_empty_r_L.
  - by rewrite (idemp_L (∪)).
Qed.

(** X14: of the names it is given, [acquire_locks_in_order] takes only
    [clients_lock]: with [k] occurrences of that name in the request, in
    whatever order and among whatever other names, the call returns [k]
    times ['clients_lock'], raises the level of the reentrant lock by [k],
    records the name in [active_locks] when [k] is not 0, counts one
    deadlock prevention, and touches nothing else. *)
Theorem acquire_takes_only_the_registry_lock (lock_names : list string) (w : world) :
  let k := length (filter (λ x, x = "clients_lock") lock_names) in
  let r := acquire_locks_in_order None lock_names w in
  r.1 = Ok (replicate k "clients_lock") ∧
  clients_lock r.2 = (clients_lock w + k)%nat ∧
  lock_events r.2 = lock_events w ++ replicate k (EvAcquire "clients_lock") ∧
  active_locks r.2 =
    active_locks w ∪ (if decide (k = 0%nat) then ∅ else {["clients_lock"]}) ∧
  stats r.2 = incr_deadlock_preventions (stats w) ∧
  same_core w r.2.
Proof.
  cbn zeta. unfold acquire_locks_in_order.
  rewrite acquire_loop_eq, app_nil_l. cbn [completes].
  unfold acquired_of. cbn [visited]. rewrite filter_clients_lock_sorted.
  generalize (length (filter (λ x, x = "clients_lock") lock_names)). intros k.
  cbn [fst snd]. world_cbn.
  rewrite fmap_replicate, length_replicate, list_to_set_replicate.
  by repeat split.
Qed.

(** ** Stored times *)

Lemma stamps_ok_step w w' :
  stamps_ok clock w → (time_reads w ≤ time_reads w')%nat →
  (last_sync (system_state w') = last_sync (system_state w) ∨
   ∃ k, (k < time_reads w')%nat ∧ last_sync (system_state w') = clock k) →
  (∀ client_id info, clients w' !! client_id = Some info →
     clients w !! client_id = Some info ∨
     ∃ k, (k < time_reads w')%nat ∧ ci_last_heartbeat info = clock k) →
  stamps_ok clock w'.
Proof.
  intros [(k & Hk & Hs) Hc] Ht Hs' Hc'. split.
  - destruct Hs' as [->|Hnew]; [|done]. exists k. split; [lia|done].
  - intros cid info Hlook. destruct (Hc' cid info Hlook) as [Hold|Hnew]; [|done].
    destruct (Hc cid info Hold) as (k' & Hk' & Hh). exists k'. split; [lia|done].
Qed.

Lemma stamps_ok_core w1 w2 : same_core w1 w2 → stamps_ok clock w1 → stamps_ok clock w2.
Proof. unfold stamps_ok. by intros (-> & _ & _ & -> & _ & _ & _ & _ & ->). Qed.

Lemma stamps_ok_trigger w :
  stamps_ok clock w → stamps_ok clock (trigger_synchronization clock w).
Proof.
  intros Hw. destruct (sync_in_progress (system_state w)) eqn:Hs.
  - by rewrite trigger_busy.
  - rewrite trigger_idle by done. apply (stamps_ok_step w); [done|world_cbn; lia| |].
    + right. exists (time_reads w). world_cbn. split; [lia|done].
    + intros cid info. by left.
Qed.

Lemma stamps_ok_tick w : stamps_ok clock w → stamps_ok clock (set_time_reads S w).
Proof.
  intros Hw. apply (stamps_ok_step w); [done|world_cbn; lia|by left|].
  intros cid info. by left.
Qed.

Lemma stamps_ok_periodic w :
  stamps_ok clock w → stamps_ok clock (periodic_sync_round clock w).
Proof.
  intros Hw. destruct (sync_in_progress (system_state w)) eqn:Hs.
  - by rewrite periodic_sync_round_busy.
  - rewrite periodic_sync_round_idle by done.
    case_bool_decide; [apply stamps_ok_trigger|]; by apply stamps_ok_tick.
Qed.

Lemma stamps_ok_insert w client_id info :
  stamps_ok clock w → ci_last_heartbeat info = clock (time_reads w) →
  stamps_ok clock (set_clients (insert client_id info) (set_time_reads S w)).
Proof.
  intros Hw Hh. apply (stamps_ok_step w); [done|world_cbn; lia|by left|].
  intros cid info'. world_cbn. intros [[<- <-]|[_ Hold]]%lookup_insert_Some.
  - right. exists (time_reads w). split; [lia|done].
  - by left.
Qed.

Lemma stamps_ok_run_action n a :
  stamps_ok clock (nd_world n) → stamps_ok clock (nd_world (run_action clock n a)).
Proof.
  intros Hn. apply (run_action_inv (stamps_ok clock)); try done.
  - apply stamps_ok_core.
  - intros c m s ad w0 Hw0. rewrite register_client_eq. cbn zeta.
    apply (stamps_ok_step w0); [done|world_cbn; lia|by left|].
    intros cid info'. world_cbn. intros [[<- <-]|[_ Hold]]%lookup_insert_Some.
    + right. exists (time_reads w0). split; [lia|done].
    + by left.
  - intros c m w0 Hw0. destruct (clients w0 !! c) as [info|] eqn:Hc.
    + rewrite (update_client_state_some clock _ _ _ _ Hc).
      by apply stamps_ok_periodic, stamps_ok_insert.
    + by rewrite update_client_state_none.
  - intros c w0 Hw0. unfold update_client_heartbeat.
    destruct (clients w0 !! c) as [info|] eqn:Hc; [|done]. cbn [time_time].
    by apply stamps_ok_insert.
  - intros c w0 Hw0. rewrite remove_client_eq.
    destruct (clients w0 !! c) as [info|] eqn:Hc; [|done].
    apply (stamps_ok_step w0); [done|done|by left|].
    intros cid info'. world_cbn. intros [_ Hold]%lookup_delete_Some. by left.
  - intros. by apply stamps_ok_tick.
  - intros. by apply stamps_ok_periodic.
  - intros. by apply stamps_ok_trigger.
  - intros w0 Hw0. unfold timer_fires. by destruct (timers w0) as [|[d []] rest].
  - intros target st _. rewrite emergency_override_eq. cbn zeta.
    apply (stamps_ok_step (nd_world n)); [done|world_cbn; lia|by left|].
    intros cid info. by left.
Qed.

(** X23: in every state the server reaches, every time it stores, the
    [last_heartbeat] of a session or [last_sync], is a reading of the clock
    taken before the current one.  With a clock that does not go back, no
    stored time lies in the future, so the ages that the liveness sweep and
    the synchronisation check compute from the next reading are never
    negative. *)
Theorem stored_times_are_past_readings (acts : list action) :
  let w := nd_world (run_actions clock acts) in
  (∃ k, (k < time_reads w)%nat ∧ last_sync (system_state w) = clock k) ∧
  (∀ client_id info, clients w !! client_id = Some info →
     ∃ k, (k < time_reads w)%nat ∧ ci_last_heartbeat info = clock k) ∧
  ((∀ i j, (i ≤ j)%nat → (clock i ≤ clock j)%Z) →
   (0 ≤ clock (time_reads w) - last_sync (system_state w))%Z ∧
   ∀ client_id info, clients w !! client_id = Some info →
     (0 ≤ clock (time_reads w) - ci_last_heartbeat info)%Z).
Proof.
  cbn zeta.
  assert (stamps_ok clock (nd_world (run_actions clock acts))) as [Hs Hc].
  { unfold run_actions.
    assert (stamps_ok clock (nd_world (started clock))) as Hinit.
    { split; [exists 0%nat; by split; [cbn; lia|]|].
      intros cid info. cbn. by rewrite lookup_empty. }
    revert Hinit. generalize (started clock).
    induction acts as [|a acts IH]; intros n Hn; [done|].
    cbn [foldl]. by apply IH, stamps_ok_run_action. }
  split; [exact Hs|]. split; [exact Hc|]. intros Hmono. split.
  - destruct Hs as (k & Hk & ->).
    pose proof (Hmono k (time_reads (nd_world (run_actions clock acts)))). lia.
  - intros cid info Hlook. destruct (Hc cid info Hlook) as (k & Hk & ->).
    pose proof (Hmono k (time_reads (nd_world (run_actions clock acts)))). lia.
Qed.

(** ** A connection of messages that register nobody *)

Lemma unvisited_handle_client client_socket address (msgs : list (string * message)) :
  ∀ w, Forall (λ im, get "type" VNone im.2 ≠ VStr "register") msgs →
  unvisited w →
  unvisited (handle_client clock client_socket address msgs w) ∧
  messages_processed (stats (handle_client clock client_socket address msgs w)) =
    (messages_processed (stats w) + length msgs)%nat.
Proof.
  unfold handle_client. generalize (fst <$> last msgs). intros final.
  induction msgs as [|[cid m] msgs IH]; intros w Hall Hw.
  - cbn [foldl length]. rewrite Nat.add_0_r.
    pose proof (unvisited_run_action (mk_node w true)
                  (act_op (op_disconnect final client_socket)) eq_refl Hw) as Hu.
    split; [exact Hu|]. unfold handle_client_finally.
    destruct final as [cid|]; [destruct (truthy_str cid)|]; try done.
    by rewrite unvisited_remove.
  - cbn [foldl fst snd length]. apply Forall_cons in Hall as [Hty Hall].
    cbn [snd] in Hty.
    pose (i := mk_inbound cid m client_socket address).
    change (process_client_message clock cid m client_socket address w).2
      with (process_inbound clock w i).
    destruct (IH (process_inbound clock w i) Hall) as [Hu Hm].
    { apply (unvisited_run_action (mk_node w true) (act_op (op_message i))); [|done].
      cbn [is_register_action i in_message]. by apply bool_decide_eq_false. }
    split; [exact Hu|]. rewrite Hm.
    destruct (process_inbound_fields clock w i) as (-> & _). lia.
Qed.

End Extra.

Lemma heartbeat_keeps_session_alive_witness :
  clients (system_monitor_round clock0
             (update_client_heartbeat clock0 "A1" (two_clients clock0))) !! "A1" =
  Some (mk_client "A1" (VStr "Centro") (VPos 1 2) (VStr "GREEN") 1010 7%nat
          ("10.0.0.1", 5001) 0).
Proof.
  destruct (heartbeat_keeps_session_alive clock0 (two_clients clock0) "A1"
              (mk_client "A1" (VStr "Centro") (VPos 1 2) (VStr "GREEN") 1002 7%nat
                 ("10.0.0.1", 5001) 0) eq_refl) as [_ H].
  exact H.
Defined.

Lemma reregistration_replaces_session_witness :
  let w' := register_client clock0 "A1" (register_msg "Norte") 9%nat ("10.0.0.9", 5009)
              (two_clients clock0) in
  client_sockets w' !! "A1" = Some 9%nat ∧
  total_clients (system_state w') = 2%nat ∧ closed w' = ∅.
Proof.
  destruct (reregistration_replaces_session clock0 (two_clients clock0) "A1"
              (register_msg "Norte") 9%nat ("10.0.0.9", 5009)
              (mk_client "A1" (VStr "Centro") (VPos 1 2) (VStr "GREEN") 1002 7%nat
                 ("10.0.0.1", 5001) 0) eq_refl) as (_ & Hs & _ & Ht & _ & Hc & _).
  exact (conj Hs (conj Ht Hc)).
Defined.

Lemma register_then_remove_restores_registry_witness :
  clients (remove_client "A3"
             (register_client clock0 "A3" (register_msg "Norte") 9%nat ("10.0.0.9", 5009)
                (two_clients clock0))) =
  clients (two_clients clock0).
Proof.
  destruct (register_then_remove_restores_registry clock0
              [act_op (op_message in_A1); act_op (op_message in_A2)] "A3"
              (register_msg "Norte") 9%nat ("10.0.0.9", 5009) eq_refl)
    as (_ & H & _).
  exact H.
Defined.

Lemma connection_leaves_no_session_witness :
  let w' := handle_client clock0 7%nat ("10.0.0.1", 5001)
              [("A1", register_msg "Centro"); ("A1", state_update_msg "GREEN")]
              (init clock0) in
  clients w' = delete "A1" (clients (init clock0)) ∧
  closed w' = {[7%nat]} ∪ closed (init clock0).
Proof.
  destruct (connection_leaves_no_session clock0 [] "A1" 7%nat ("10.0.0.1", 5001)
              [("A1", register_msg "Centro"); ("A1", state_update_msg "GREEN")])
    as (Hc & _ & _ & _ & Hcl & _); [done | done | by repeat constructor |].
  exact (conj Hc Hcl).
Defined.

Lemma session_outlives_connection_witness :
  let w' := handle_client clock0 7%nat ("10.0.0.1", 5001)
              [("A1", register_msg "Centro"); ("A2", state_update_msg "GREEN")]
              (init clock0) in
  client_sockets w' !! "A1" = Some 7%nat ∧ 7%nat ∈ closed w'.
Proof.
  destruct (session_outlives_connection clock0 (init clock0) 7%nat ("10.0.0.1", 5001)
              [] [("A2", state_update_msg "GREEN")] "A1" (register_msg "Centro"))
    as (_ & Hs & Hc & _); [done | done | by repeat constructor |].
  exact (conj Hs Hc).
Defined.

Lemma nothing_is_sent_before_a_registration_witness :
  sent (nd_world (run_actions clock0
          [act_op (op_message (mk_inbound "A1" (state_update_msg "GREEN") 7%nat
                                 ("10.0.0.1", 5001)));
           act_op (op_emergency None "RED"); act_trigger])) = [].
Proof.
  destruct (nothing_is_sent_before_a_registration clock0
              [act_op (op_message (mk_inbound "A1" (state_update_msg "GREEN") 7%nat
                                     ("10.0.0.1", 5001)));
               act_op (op_emergency None "RED"); act_trigger])
    as (_ & _ & _ & Hs & _); [done|].
  exact Hs.
Defined.

End ServerExtra.

(** * Further properties of the agent *)

Module LightExtra.
Import Light LightSpec.

Section Extra.

Variable clock : nat → Z.

(** ** State names and durations *)

(** X17: every state name parses back to its state and is already in
    upper case, the lookup by name accepts nothing but the three names, and
    every state has a duration in [STATE_DURATIONS], so the fallback of 5
    seconds in [get_state_duration] is never used. *)
Theorem state_names_parse_back (s : TrafficLightState) (key : string) :
  state_of_name (name s) = Some s ∧ upper (name s) = name s ∧
  (state_of_name key = Some s ↔ key = name s) ∧
  STATE_DURATIONS !! name s = Some (get_state_duration s) ∧
  get_state_duration s = match s with RED => 8 | YELLOW => 3 | GREEN => 10 end.
Proof.
  split; [by destruct s|]. split; [by destruct s|]. split; [|by destruct s].
  split.
  - unfold state_of_name.
    destruct (String.eqb_spec key "RED") as [->|_]; [by intros [= <-]|].
    destruct (String.eqb_spec key "YELLOW") as [->|_]; [by intros [= <-]|].
    destruct (String.eqb_spec key "GREEN") as [->|_]; [by intros [= <-]|].
    done.
  - intros ->. by destruct s.
Qed.

(** ** What an agent reports *)

(** X18: whatever states are applied to an agent, in whatever order, what
    it sends is one state update for each actual change of state, in
    order, stamped with successive readings of the clock, when its socket
    is connected and [send] works, and nothing at all otherwise; in
    particular the quiet cycle reports the changes of RED, GREEN, YELLOW
    repeated, where a first RED on an agent that already shows RED is no
    change. *)
Theorem reported_states_are_the_changes (a : light) (l : list TrafficLightState)
    (n : nat) :
  outbox (apply_states clock l a) =
    outbox a ++
    (if delivers a
     then reports clock a (time_reads a) (changes (current_state a) l) else []) ∧
  state_changes (apply_states clock l a) =
    (state_changes a + length (changes (current_state a) l))%nat ∧
  outbox (traffic_light_cycle clock (replicate n None) a) =
    outbox a ++
    (if delivers a
     then reports clock a (time_reads a)
            (changes (current_state a) (mjoin (replicate n [RED; GREEN; YELLOW])))
     else []).
Proof.
  split; [apply apply_states_outbox|].
  split; [by rewrite apply_states_count, changes_length|].
  change (outbox (traffic_light_cycle clock (replicate n None) a))
    with (outbox (unheld (traffic_light_cycle clock (replicate n None) a))).
  rewrite unheld_quiet_rounds, apply_states_outbox.
  by rewrite (reports_ext clock a (unheld a)).
Qed.

(** ** Commands of the server *)

Lemma typed_not_empty (c : message) (v : value) :
  get "type" VNone c = v → v ≠ VNone → c ≠ ∅.
Proof. intros Hty Hv ->. by apply Hv. Qed.

(** X19: both threads of an agent read commands from the same socket, and
    each acts on its own kind only.  An emergency override that the
    communication thread receives is dropped without any effect; a
    synchronisation request that the cycle receives is dropped and the
    normal round runs; the communication thread answers a synchronisation
    request with one report of the state shown, which it does not change;
    and an agent that is not connected receives nothing. *)
Theorem commands_reach_one_thread_only (a : light) (c : message) :
  (get "type" VNone c = VStr "emergency_override" →
     communication_round clock a (Some c) = a) ∧
  (get "type" VNone c = VStr "sync_request" →
     cycle_round clock a (Some c) = normal_cycle clock a ∧
     let a' := communication_round clock a (Some c) in
     current_state a' = current_state a ∧ previous_state a' = previous_state a ∧
     state_changes a' = state_changes a ∧ held a' = held a ∧
     outbox a' =
       outbox a ++
       (if delivers a
        then [state_update_message a (current_state a) (clock (time_reads a))]
        else [])) ∧
  (connected a = false → ∀ incoming, communication_round clock a incoming = a).
Proof.
  split; [|split].
  - intros Hty. unfold communication_round, receive_command_from_server.
    destruct (connected a); [|done]. cbn [negb].
    case_bool_decide; [|done]. unfold handle_server_command. rewrite Hty.
    by rewrite !decide_False.
  - intros Hty. split.
    + unfold cycle_round, is_emergency. rewrite Hty.
      by rewrite (bool_decide_false (VStr "sync_request" = _)), andb_false_r.
    + cbn zeta. unfold communication_round, receive_command_from_server, delivers.
      destruct (connected a) eqn:Hc; cbn [negb andb]; [|by rewrite app_nil_r].
      rewrite bool_decide_true by (by apply (typed_not_empty c _ Hty)).
      unfold handle_server_command. rewrite Hty, decide_True by done. cbn [snd].
      unfold send_state_to_server, tick. cbn. rewrite Hc. cbn.
      destruct (send_raises a); cbn; by rewrite ?app_nil_r.
  - intros Hc incoming. unfold communication_round, receive_command_from_server.
    by rewrite Hc.
Qed.

(** ** Start and stop *)

(** X20: [start] on an agent that is not running sets [running] before it
    connects and does not clear it when the connection fails: it returns
    [True] or [False] with the outcome of the connection, and either way a
    second [start] returns at once and changes nothing, so a failed start
    is not retried until [stop] is called.  [stop] leaves the agent not
    running and not connected, and [start] then connects again. *)
Theorem failed_start_blocks_restart (g : agent) (reachable again : bool) :
  ag_running g = false →
  let r := start reachable g in
  r.1 = (if reachable then start_true else start_false) ∧
  ag_running r.2 = true ∧
  connected (ag_light r.2) = (reachable || connected (ag_light g)) ∧
  start again r.2 = (start_none, r.2) ∧
  ag_running (stop r.2) = false ∧ connected (ag_light (stop r.2)) = false ∧
  (start again (stop r.2)).1 = (if again then start_true else start_false).
Proof.
  intros Hr. cbn zeta. unfold start. rewrite Hr. unfold connect_to_server.
  destruct reachable; cbn; [|destruct again; cbn; by destruct (connected (ag_light g))].
  by destruct again.
Qed.

(** ** Everything an agent sends is a state update *)

Lemma state_update_message_is a st t :
  is_state_update_of (light_id a) (state_update_message a st t).
Proof. split; by vm_compute. Qed.

Lemma reports_only_send id st t a :
  reports_only id a → reports_only id (send_state_to_server st t a).2.
Proof.
  intros [Hid Hall]. unfold send_state_to_server.
  destruct (connected a); cbn; [|done]. destruct (send_raises a); cbn; [done|].
  split; [done|]. apply Forall_app. split; [done|].
  apply Forall_singleton. rewrite <- Hid. apply state_update_message_is.
Qed.

Lemma reports_only_change id s a :
  reports_only id a → reports_only id (change_state clock s a).2.
Proof.
  intros Ha. unfold change_state. case_decide; [|done]. cbn [snd].
  by apply reports_only_send.
Qed.

Lemma reports_only_sleep id d a : reports_only id a → reports_only id (sleep d a).
Proof. done. Qed.

Lemma reports_only_round id a e :
  reports_only id a → reports_only id (agent_round clock a e).
Proof.
  intros Ha. destruct e as [command|incoming]; cbn [agent_round].
  - unfold cycle_round. destruct (is_emergency command).
    + unfold handle_emergency_override.
      destruct (get "state" (VStr "RED") (default ∅ command)) as [| | |es|];
        try (by apply reports_only_sleep).
      destruct (state_of_name (upper es)); [|done].
      by apply reports_only_sleep, reports_only_change.
    + unfold normal_cycle. cbn [foldl].
      by repeat (apply reports_only_sleep, reports_only_change).
  - unfold communication_round.
    destruct (receive_command_from_server incoming a) as [c|]; [|done].
    case_bool_decide; [|done]. unfold handle_server_command.
    repeat case_decide; try done.
    + cbn [snd]. by apply reports_only_send.
    + destruct (get "state" VNone c) as [| | |ns|]; try done.
      destruct (state_of_name (upper ns)); [|done]. by apply reports_only_change.
Qed.

Lemma reports_only_run id events : ∀ a,
  reports_only id a → reports_only id (agent_run clock events a).
Proof.
  induction events as [|e events IH]; intros a Ha; [done|].
  unfold agent_run in *. cbn [foldl]. by apply IH, reports_only_round.
Qed.

End Extra.

Lemma failed_start_blocks_restart_witness :
  start true (start false (new_agent "L1" "Centro" 10 20 false)).2 =
  (start_none, (start false (new_agent "L1" "Centro" 10 20 false)).2).
Proof.
  destruct (failed_start_blocks_restart (new_agent "L1" "Centro" 10 20 false)
              false true eq_refl) as (_ & _ & _ & H & _).
  exact H.
Defined.

End LightExtra.

(** * Properties of the logger *)

Module LoggerExtra.
Import Logger.

Lemma run_call_total lg c :
  let s := stats lg in
  let s' := stats (run_call lg c).2 in
  total_logs s = (error_count s + warning_count s + info_count s + debug_count s)%nat →
  total_logs s' = (error_count s' + warning_count s' + info_count s' + debug_count s')%nat.
Proof.
  cbn zeta. intros H.
  destruct c as [| | |[]| | |[| |n| |]|]; cbn; try destruct (float_overflows n);
    cbn; try done; try lia.
Qed.

Lemma run_call_effect lg c :
  is_reset c = false →
  let lg' := (run_call lg c).2 in
  total_logs (stats lg') =
    (total_logs (stats lg) + if decide (level_of c = None) then 0 else 1)%nat ∧
  debug_count (stats lg') =
    (debug_count (stats lg) + if decide (level_of c = Some DEBUG) then 1 else 0)%nat ∧
  emitted lg' =
    emitted lg ++
    match level_of c with
    | Some l => if decide (l = DEBUG) then [] else [l]
    | None => []
    end.
Proof.
  intros Hr. cbn zeta.
  destruct c as [| | |[]| | |[| |n| |]|]; try done; cbn;
    try destruct (float_overflows n); cbn;
    rewrite ?app_nil_r, ?Nat.add_0_r, ?Nat.add_1_r; done.
Qed.

(** X21: after any sequence of calls on a [ConcurrentLogger], resets
    included, [total_logs] is the sum of the four counters by level, and no
    record of level DEBUG was passed on: with [LOG_LEVEL] INFO the
    performance logs are counted but never written.  Without a reset,
    [total_logs] is the number of calls that returned, and the records
    passed on are the calls counted minus the performance logs.  A call
    that raises because its message cannot be built counts nothing and
    leaves the logger as it was: [log_communication] with a direction that
    is no string, [log_performance] with a duration that is no number or
    is an [int] too large for a float. *)
Theorem logger_counters_add_up (calls : list call) :
  let lg := run_calls calls in
  let s := stats lg in
  total_logs s = (error_count s + warning_count s + info_count s + debug_count s)%nat ∧
  (DEBUG ∉ emitted lg) ∧
  (existsb is_reset calls = false →
   total_logs s = length (filter (λ c, is_Some (level_of c)) calls) ∧
   (length (emitted lg) + debug_count s)%nat = total_logs s) ∧
  (∀ lg0 c, is_reset c = false →
     (is_Some (level_of c) ↔ (run_call lg0 c).1 = Ok ())) ∧
  (∀ lg0 c, (run_call lg0 c).1 ≠ Ok () → (run_call lg0 c).2 = lg0) ∧
  (∀ lg0 direction,
     (run_call lg0 (log_communication direction)).1 =
     match direction with VStr _ => Ok () | _ => Raise "AttributeError" end) ∧
  (∀ lg0 duration,
     (run_call lg0 (log_performance duration)).1 =
     match duration with
     | VNum n => if decide (Z.abs n < 2 ^ 1024 - 2 ^ 970)%Z then Ok ()
                 else Raise "OverflowError"
     | VBool _ => Ok ()
     | VStr _ => Raise "ValueError"
     | _ => Raise "TypeError"
     end).
Proof.
  cbn zeta. unfold run_calls.
  assert (∀ lg0,
    total_logs (stats lg0) =
      (error_count (stats lg0) + warning_count (stats lg0) + info_count (stats lg0) +
       debug_count (stats lg0))%nat →
    DEBUG ∉ emitted lg0 →
    let lg := foldl (λ lg c, (run_call lg c).2) lg0 calls in
    total_logs (stats lg) =
      (error_count (stats lg) + warning_count (stats lg) + info_count (stats lg) +
       debug_count (stats lg))%nat ∧
    (DEBUG ∉ emitted lg) ∧
    (existsb is_reset calls = false →
     total_logs (stats lg) =
       (total_logs (stats lg0) + length (filter (λ c, is_Some (level_of c)) calls))%nat ∧
     (length (emitted lg) + debug_count (stats lg))%nat =
       (length (emitted lg0) + debug_count (stats lg0) +
        length (filter (λ c, is_Some (level_of c)) calls))%nat)) as Hgen.
  { induction calls as [|c calls IH]; intros lg0 Htot Hdbg; cbn zeta.
    - cbn [foldl]. rewrite filter_nil. cbn [length]. repeat split; try done; lia.
    - cbn [foldl].
      destruct (IH (run_call lg0 c).2) as (Ht & Hd & Hn).
      { by apply run_call_total. }
      { destruct c as [| | |[]| | |[| |n| |]|]; cbn;
          try destruct (float_overflows n); cbn; try done;
          rewrite elem_of_app, list_elem_of_singleton; intros [?|?]; done. }
      split; [exact Ht|]. split; [exact Hd|].
      intros Hres. cbn [existsb] in Hres. apply orb_false_iff in Hres as [Hc Hres].
      destruct (Hn Hres) as [-> Hem]. rewrite Hem.
      destruct (run_call_effect lg0 c Hc) as (-> & -> & ->).
      rewrite filter_cons, length_app.
      destruct (level_of c) as [l|].
      + rewrite (decide_True (P := is_Some (Some l))) by (by eexists).
        destruct l; repeat (case_decide; try done); cbn [length]; split; lia.
      + rewrite (decide_False (P := is_Some None)) by (by intros [? ?]).
        repeat (case_decide; try done); cbn [length]; split; lia. }
  destruct (Hgen init) as (Ht & Hd & Hn); [done | by apply not_elem_of_nil |].
  split; [exact Ht|]. split; [exact Hd|]. split.
  { intros Hres. destruct (Hn Hres) as [-> ->]. cbn. split; lia. }
  split.
  { intros lg0 c Hc.
    destruct c as [| | |[]| | |[| |n| |]|]; cbn; try destruct (float_overflows n);
      cbn; try done; split; try done; try (by intros [? ?]); by eexists. }
  split.
  { intros lg0 c Hne.
    destruct c as [| | |[]| | |[| |n| |]|]; cbn in *; try destruct (float_overflows n);
      cbn in *; done. }
  split; [by intros lg0 []|].
  intros lg0 [| |n| |]; cbn; try done.
  unfold float_overflows. case_decide as Hlt.
  - by rewrite (proj2 (Z.leb_gt _ _) Hlt).
  - apply Z.nlt_ge in Hlt. by rewrite (proj2 (Z.leb_le _ _) Hlt).
Qed.

End LoggerExtra.

(** * The agents and the coordinator together *)

Module SystemExtra.
Import Server ServerSpec ServerExtra.

(** X22: an agent never sends anything but state updates carrying its own
    id, whatever commands its two threads receive, and the coordinator
    registers a session only for a message of type [register].  So a
    coordinator that has received no such message and then serves a
    connection with everything an agent has sent counts every message and
    still has no session and no stored socket, and has sent nothing: the
    agent's states are not recorded, and no synchronisation request or
    emergency override can reach it. *)
Theorem agents_are_never_registered (clock_agent clock_server : nat → Z)
    (events : list Light.event) (a : Light.light) (acts : list action)
    (client_socket : sock) (address : addr) :
  Light.outbox a = [] → existsb is_register_action acts = false →
  let a' := Light.agent_run clock_agent events a in
  let msgs := (λ m, (Light.light_id a, m)) <$> Light.outbox a' in
  let w := nd_world (run_actions clock_server acts) in
  let w' := handle_client clock_server client_socket address msgs w in
  Forall (Light.is_state_update_of (Light.light_id a)) (Light.outbox a') ∧
  clients w' = ∅ ∧ client_sockets w' = ∅ ∧ sent w' = [] ∧
  total_clients (system_state w') = 0%nat ∧
  messages_processed (stats w') =
    (messages_processed (stats w) + length (Light.outbox a'))%nat.
Proof.
  intros Hout Hacts. cbn zeta.
  destruct (LightExtra.reports_only_run clock_agent (Light.light_id a) events a)
    as [_ Hall].
  { split; [done|]. rewrite Hout. constructor. }
  split; [exact Hall|].
  destruct (unvisited_handle_client clock_server client_socket address
              ((λ m, (Light.light_id a, m)) <$>
               Light.outbox (Light.agent_run clock_agent events a))
              (nd_world (run_actions clock_server acts)))
    as [(Hc & Hs & _ & Hse & Ht) Hm].
  { apply Forall_fmap. eapply Forall_impl; [exact Hall|].
    intros m [Hty _]. cbn. by rewrite Hty. }
  { by apply (unvisited_run_actions clock_server acts (started clock_server)). }
  rewrite Hm, length_fmap. done.
Qed.

Lemma agents_are_never_registered_witness :
  let a' := Light.agent_run Light.clock0 [Light.ev_cycle None; Light.ev_cycle None]
              Light.light0 in
  let w' := handle_client clock0 7%nat ("10.0.0.1", 5001)
              ((λ m, (Light.light_id Light.light0, m)) <$> Light.outbox a')
              (nd_world (run_actions clock0 [])) in
  clients w' = ∅ ∧
  messages_processed (stats w') =
    (messages_processed (stats (nd_world (run_actions clock0 []))) +
     length (Light.outbox a'))%nat.
Proof.
  destruct (agents_are_never_registered Light.clock0 clock0
              [Light.ev_cycle None; Light.ev_cycle None] Light.light0 []
              7%nat ("10.0.0.1", 5001) eq_refl eq_refl)
    as (_ & Hc & _ & _ & _ & Hm).
  exact (conj Hc Hm).
Defined.

End SystemExtra.
